(** * QuranRAG: the reference-annotation pipeline

    A shallow embedding of the text utilities ([arabic-utils]) and of the
    transcript processor ([processor]) of the repository, with the
    properties of the pipeline stated and proved over it.

    Conventions.
    - A JavaScript string is the list of its UTF-16 code units ([str]);
      [length] is the number of code units, as in the source.
    - Offsets, lengths and size limits are integers ([Z]).
    - Similarity and confidence values are numbers that the code only
      compares; they are rationals ([Q]).
    - External services (embedding + vector index, generative model,
      persistence, id generation) are functions of the history of the calls
      made so far and of the request; the pipeline threads that history. *)

From Stdlib Require Import List ZArith NArith QArith Bool Lia String Ascii DecimalString.
From Stdlib Require Import Sorted Permutation DecimalZ DecimalPos.
Import ListNotations.

Set Implicit Arguments.

(* ================================================================== *)
(** ** JavaScript strings *)
(* ================================================================== *)

Module JsString.

Definition char := N.
Definition str := list char.

(** ASCII literal to code units. *)
Definition js (s : string) : str :=
  List.map N_of_ascii (list_ascii_of_string s).

Definition len (s : str) : Z := Z.of_nat (List.length s).

(** A string is truthy in a condition iff it is not empty. *)
Definition truthy (s : str) : bool :=
  match s with [] => false | _ :: _ => true end.

Definition in_range (lo hi c : N) : bool := ((lo <=? c) && (c <=? hi))%N.

Definition one_of (cs : list N) (c : N) : bool := existsb (N.eqb c) cs.

(** The class [\s] of regular expressions, which is also the set of
    characters removed by [String.prototype.trim]. *)
Definition isSpace (c : char) : bool :=
  one_of [9; 10; 11; 12; 13; 32; 160; 5760; 8232; 8233; 8239; 8287; 12288; 65279]%N c
  || in_range 8192 8202 c.

Definition LF : char := 10%N.
Definition SP : char := 32%N.

Fixpoint dropWhile (p : char -> bool) (s : str) : str :=
  match s with
  | [] => []
  | c :: s' => if p c then dropWhile p s' else s
  end.

(** [s.trim()] *)
Definition trim (s : str) : str :=
  rev (dropWhile isSpace (rev (dropWhile isSpace s))).

(** [s.replace(/[class]/g, rep)] for a one-character class. *)
Definition replace_class (cls : char -> bool) (rep : str) (s : str) : str :=
  flat_map (fun c => if cls c then rep else [c]) s.

(** [s.replace(/\s+/g, ' ')]: every maximal run of white space becomes one
    space.  [in_run] tells that the previous character belonged to a run. *)
Fixpoint replace_ws_runs (in_run : bool) (s : str) : str :=
  match s with
  | [] => []
  | c :: s' =>
      if isSpace c
      then if in_run then replace_ws_runs true s' else SP :: replace_ws_runs true s'
      else c :: replace_ws_runs false s'
  end.

Fixpoint prefixb (p s : str) : bool :=
  match p, s with
  | [], _ => true
  | _ :: _, [] => false
  | a :: p', b :: s' => (a =? b)%N && prefixb p' s'
  end.

(** [s.indexOf(needle)]: the least position at which [needle] occurs,
    [None] for -1. *)
Fixpoint indexOf_from (needle s : str) (i : nat) : option nat :=
  if prefixb needle s then Some i
  else match s with
       | [] => None
       | _ :: s' => indexOf_from needle s' (S i)
       end.

Definition indexOf (s needle : str) : option nat := indexOf_from needle s 0.

(** [s.substring(0, i)] and [s.substring(i)] for [0 <= i]. *)
Definition substring_to (s : str) (i : nat) : str := firstn i s.
Definition substring_from (s : str) (i : nat) : str := skipn i s.

(** [a.join(sep)] *)
Fixpoint join (sep : str) (l : list str) : str :=
  match l with
  | [] => []
  | [x] => x
  | x :: l' => x ++ sep ++ join sep l'
  end.

End JsString.
Import JsString.

(* ================================================================== *)
(** ** Text Normalizer ([arabic-utils]) *)
(* ================================================================== *)

Module ArabicUtils.

(** [ARABIC_DIACRITICS]: the class of U+064B..U+065F and U+0670. *)
Definition ARABIC_DIACRITICS (c : char) : bool :=
  in_range 1611 1631 c || (c =? 1648)%N.

(** [ARABIC_NORMALIZATIONS]: pattern (a character class) and replacement. *)
Definition ARABIC_NORMALIZATIONS : list ((char -> bool) * str) :=
  [ (one_of [1570; 1571; 1573]%N, [1575%N]);   (* alif variants -> alif *)
    (one_of [1577%N],             [1607%N]);   (* ta marbuta -> ha *)
    (one_of [1609%N],             [1610%N]);   (* alif maksura -> ya *)
    (one_of [1572%N],             [1608%N]);   (* waw with hamza -> waw *)
    (one_of [1574%N],             [1610%N]) ]. (* ya with hamza -> ya *)

Definition removeDiacritics (text : str) : str :=
  replace_class ARABIC_DIACRITICS [] text.

Definition normalizeArabic (text : str) : str :=
  let normalized := removeDiacritics text in
  let normalized :=
    fold_left (fun acc pr => replace_class (fst pr) (snd pr) acc)
              ARABIC_NORMALIZATIONS normalized in
  trim (replace_ws_runs false normalized).

(** [containsArabic]: some character lies in U+0600..U+06FF. *)
Definition isArabicChar (c : char) : bool := in_range 1536 1791 c.
Definition containsArabic (text : str) : bool := existsb isArabicChar text.

(** *** Chunking *)

(** [text.split(/\n\n+/)]: the pieces between the maximal runs of two or
    more line feeds.  [skipping] holds while the scan is inside such a run;
    [cur] is the current piece, reversed. *)
Fixpoint split_nl (skipping : bool) (cur : str) (s : str) : list str :=
  match s with
  | [] => [rev cur]
  | c :: s' =>
      if skipping && (c =? LF)%N then split_nl true cur s'
      else if (c =? LF)%N && match s' with d :: _ => (d =? LF)%N | [] => false end
           then rev cur :: split_nl true [] s'
           else split_nl false (c :: cur) s'
  end.

Definition split_paragraphs (text : str) : list str := split_nl false [] text.

(** The class [[.!?]]. *)
Definition isTerminator (c : char) : bool := one_of [46; 33; 63]%N c.

(** [paragraph.split(/(?<=[.!?])\s+/)]: a separator is a maximal run of
    white space that directly follows a terminator.  [prev_term] tells
    that the previous character is a terminator. *)
Fixpoint split_sent (prev_term skipping : bool) (cur : str) (s : str) : list str :=
  match s with
  | [] => [rev cur]
  | c :: s' =>
      if isSpace c then
        if skipping then split_sent false true cur s'
        else if prev_term then rev cur :: split_sent false true [] s'
             else split_sent false false (c :: cur) s'
      else split_sent (isTerminator c) false (c :: cur) s'
  end.

Definition split_sentences (paragraph : str) : list str :=
  split_sent false false [] paragraph.

(** [if (chunk) chunks.push(chunk.trim())] *)
Definition push_trimmed (chunks : list str) (chunk : str) : list str :=
  if truthy chunk then chunks ++ [trim chunk] else chunks.

(** Body of the inner loop over the sentences of an oversized paragraph;
    the state is [(chunks, sentenceChunk)]. *)
Definition sentence_step (maxChunkSize : Z) (st : list str * str) (sentence : str)
  : list str * str :=
  let '(chunks, sentenceChunk) := st in
  if (len sentenceChunk + len sentence >? maxChunkSize)%Z
  then (push_trimmed chunks sentenceChunk, sentence)
  else (chunks, sentenceChunk ++ (if truthy sentenceChunk then js " " else []) ++ sentence).

(** Body of the loop over the paragraphs; the state is
    [(chunks, currentChunk)]. *)
Definition paragraph_step (maxChunkSize : Z) (st : list str * str) (paragraph : str)
  : list str * str :=
  let '(chunks, currentChunk) := st in
  if (len currentChunk + len paragraph >? maxChunkSize)%Z
  then
    let chunks := push_trimmed chunks currentChunk in
    if (len paragraph >? maxChunkSize)%Z
    then fold_left (sentence_step maxChunkSize) (split_sentences paragraph) (chunks, [])
    else (chunks, paragraph)
  else (chunks, currentChunk ++ (if truthy currentChunk then [LF; LF] else []) ++ paragraph).

Definition splitIntoChunks (text : str) (maxChunkSize : Z) : list str :=
  let '(chunks, currentChunk) :=
    fold_left (paragraph_step maxChunkSize) (split_paragraphs text) ([], []) in
  push_trimmed chunks currentChunk.

(** The paragraph separator the chunker joins with. *)
Definition PARAGRAPH_SEP : str := [LF; LF].

(** Putting the chunks back together with the paragraph separator. *)
Definition rejoin_chunks (chunks : list str) : str := join PARAGRAPH_SEP chunks.

End ArabicUtils.
Import ArabicUtils.

(* ================================================================== *)
(** ** Data model ([types]) *)
(* ================================================================== *)

(** The interfaces of [types].  Fields that several interfaces share are
    prefixed ([d_type], [m_type], [a_...]); [match] is a keyword and becomes
    [match_].  The numeric columns of the corpus and the offsets are
    integers in the schema; similarities and confidences are only compared.
    Embedding vectors play no role in the pipeline and are left out. *)
Module Types.

Inductive RefKind := quran | hadith.

Record QuranVerse := {
  qv_id : Z;
  surah_number : Z;
  ayah_number : Z;
  qv_arabic_text : str;
  qv_english_text : str;
  transliteration : str
}.

Record Hadith := {
  h_id : str;
  collection : str;
  book_number : Z;
  hadith_number : Z;
  h_arabic_text : str;
  h_english_text : str;
  grade : str;
  narrator_chain : str
}.

(** [reference: QuranVerse | Hadith] *)
Inductive Reference :=
| RefVerse (v : QuranVerse)
| RefHadith (h : Hadith).

Record DetectedReference := {
  d_type : RefKind;
  original_text : str;
  corrected_text : str;
  start_index : Z;
  end_index : Z;
  context : str
}.

Record MatchResult := {
  reference : Reference;
  similarity : Q;
  m_type : RefKind
}.

(** [match] and [reference_id] are nullable. *)
Record VerifiedMatch := {
  detected : DetectedReference;
  match_ : option MatchResult;
  confidence : Q;
  reference_id : option str
}.

Record Annotation := {
  a_id : str;
  a_transcript_id : str;
  a_type : RefKind;
  a_reference_id : str;
  a_original_text : str;
  a_corrected_text : str;
  a_confidence : Q;
  a_start_index : Z;
  a_end_index : Z
}.

Record Stats := {
  total_detected : Z;
  quran_matches : Z;
  hadith_matches : Z;
  low_confidence_skipped : Z
}.

Record ProcessingResult := {
  annotated_text : str;
  annotations : list Annotation;
  stats : Stats
}.

Inductive Status := pending | processing | complete | error.

(** The object the verification prompt asks the model for, at the type
    [verifyMatch] declares: [match_index: number | null] and
    [confidence: number].  An index that is not a position of the array
    selects nothing. *)
Record Verification := {
  match_index : option Z;
  v_confidence : Q;
  reasoning : str
}.

End Types.
Import Types.

(* ================================================================== *)
(** ** Arrays *)
(* ================================================================== *)

Module JsArray.

(** [a[i]] for an integer [i]: [None] stands for [undefined]. *)
Definition index {A} (a : list A) (i : Z) : option A :=
  if (i <? 0)%Z then None else nth_error a (Z.to_nat i).

(** [a.sort(cmp)], which is stable.  [le x y] tells [cmp(x, y) <= 0]:
    [x] may stay before [y]. *)
Fixpoint insert_sorted {A} (le : A -> A -> bool) (x : A) (l : list A) : list A :=
  match l with
  | [] => [x]
  | y :: l' => if le x y then x :: l else y :: insert_sorted le x l'
  end.

Fixpoint sort {A} (le : A -> A -> bool) (l : list A) : list A :=
  match l with
  | [] => []
  | x :: l' => insert_sorted le x (sort le l')
  end.

(** [a.length] *)
Definition size {A} (a : list A) : Z := Z.of_nat (List.length a).

(** [a.slice(0, n)] for an integer [n]; a negative [n] counts from the
    end. *)
Definition slice0 {A} (a : list A) (n : Z) : list A :=
  if (n <? 0)%Z then firstn (List.length a - Z.to_nat (- n)) a
  else firstn (Z.to_nat n) a.

End JsArray.
Import JsArray.

(* ================================================================== *)
(** ** Annotation markers ([processor]) *)
(* ================================================================== *)

Module Marker.

(** [`${n}`] for an integer of magnitude below 10^21, which the runtime
    prints with all its decimal digits; from 10^21 on it prints an exponent
    form, which this definition does not give. *)
Definition num (n : Z) : str := js (NilZero.string_of_int (Z.to_int n)).

(** A type tag that contradicts the stored entry reads properties the
    entry does not have: they print as [undefined]. *)
Definition createReferenceId (m : MatchResult) : str :=
  match m_type m with
  | quran =>
      match reference m with
      | RefVerse verse => num (surah_number verse) ++ js ":" ++ num (ayah_number verse)
      | RefHadith _ => js "undefined:undefined"
      end
  | hadith =>
      match reference m with
      | RefHadith h =>
          collection h ++ js ":" ++ num (book_number h) ++ js ":" ++ num (hadith_number h)
      | RefVerse _ => js "undefined:undefined:undefined"
      end
  end.

Definition createAnnotationMarkdown (verified : VerifiedMatch) : str :=
  let originalText := original_text (detected verified) in
  match match_ verified, reference_id verified with
  | Some m, Some rid =>
      if truthy rid then
        match m_type m with
        | quran => js "[[quran:" ++ rid ++ js "|" ++ originalText ++ js "]]"
        | hadith => js "[[hadith:" ++ rid ++ js "|" ++ originalText ++ js "]]"
        end
      else originalText
  | _, _ => originalText
  end.

(** *** A backtracking matcher for the two marker patterns

    The patterns are sequences of literals and of capturing groups
    [([^x]+)]. *)
Inductive Atom :=
| Lit (s : str)
| CapturePlus (cls : char -> bool).

(** The greedy [+]: take the character at hand, first try to take more,
    and fall back to stopping here.  [acc] is the text captured so far,
    reversed; [k] continues with the capture and the rest of the input. *)
Fixpoint plus_bt {R} (cls : char -> bool) (s : str) (acc : str)
         (k : str -> str -> option R) : option R :=
  match s with
  | [] => None
  | c :: s' =>
      if cls c then
        match plus_bt cls s' (c :: acc) k with
        | Some r => Some r
        | None => k (rev (c :: acc)) s'
        end
      else None
  end.

(** Match the pattern at the start of [s]; the result lists the captures. *)
Fixpoint match_here (re : list Atom) (s : str) : option (list str) :=
  match re with
  | [] => Some []
  | Lit p :: re' =>
      if prefixb p s then match_here re' (skipn (List.length p) s) else None
  | CapturePlus cls :: re' =>
      plus_bt cls s [] (fun cap rest => option_map (cons cap) (match_here re' rest))
  end.

(** [s.match(re)] without the [g] flag: the match at the least position. *)
Fixpoint regex_search (re : list Atom) (s : str) : option (list str) :=
  match match_here re s with
  | Some caps => Some caps
  | None => match s with
            | [] => None
            | _ :: s' => regex_search re s'
            end
  end.

Definition not_char (x : char) (c : char) : bool := negb (c =? x)%N.

Definition PIPE : char := 124%N.
Definition RBRACKET : char := 93%N.
Definition LBRACKET : char := 91%N.

(** [/\[\[quran:([^\|]+)\|([^\]]+)\]\]/] *)
Definition quran_re : list Atom :=
  [Lit (js "[[quran:"); CapturePlus (not_char PIPE); Lit (js "|");
   CapturePlus (not_char RBRACKET); Lit (js "]]")].

(** [/\[\[hadith:([^\|]+)\|([^\]]+)\]\]/] *)
Definition hadith_re : list Atom :=
  [Lit (js "[[hadith:"); CapturePlus (not_char PIPE); Lit (js "|");
   CapturePlus (not_char RBRACKET); Lit (js "]]")].

Record ParsedAnnotation := {
  p_type : RefKind;
  p_reference : str;
  p_display : str
}.

Definition parseAnnotation (markdown : str) : option ParsedAnnotation :=
  match regex_search quran_re markdown with
  | Some [g1; g2] => Some {| p_type := quran; p_reference := g1; p_display := g2 |}
  | _ =>
      match regex_search hadith_re markdown with
      | Some [g1; g2] => Some {| p_type := hadith; p_reference := g1; p_display := g2 |}
      | _ => None
      end
  end.

End Marker.
Import Marker.

(* ================================================================== *)
(** ** Effects: external calls and exceptions *)
(* ================================================================== *)

Module Effects.

(** The calls the pipeline makes to its collaborators, with their
    requests. *)
Inductive Event :=
| EvSearchQuran (queryText : str) (threshold : Q) (limit : Z)
| EvSearchHadith (queryText : str) (threshold : Q) (limit : Z)
| EvDetect (chunk : str)
| EvVerify (detection : DetectedReference) (matches : list MatchResult)
| EvUpdateStatus (transcriptId : str) (status : Status)
| EvSaveAnnotated (transcriptId : str) (annotatedText : str) (status : Status)
| EvInsertAnnotations (rows : list Annotation)
| EvUuid.

(** The history of a run, latest call first. *)
Definition Trace := list Event.

(** A computation returns a value or throws. *)
Inductive Exc (A : Type) :=
| Ok (a : A)
| Throw.
Arguments Ok {A} a.
Arguments Throw {A}.

(** The collaborators.  Each answer may depend on everything that was
    called before. *)
Record Services := {
  (** [searchQuranVerses] and [searchHadith] of [rag]: embed the query, ask
      the vector index; they throw when either step fails. *)
  searchQuranVerses : Trace -> str -> Q -> Z -> Exc (list (QuranVerse * Q));
  searchHadith : Trace -> str -> Q -> Z -> Exc (list (Hadith * Q));
  (** The chat completion behind [detectReferences]: the content of the
      first choice, [None] for [null]. *)
  detection_model : Trace -> str -> Exc (option str);
  (** The chat completion behind [verifyMatch]; its prompt is built from
      the detection and the matches. *)
  verification_model : Trace -> DetectedReference -> list MatchResult -> Exc (option str);
  (** [JSON.parse(content).detections]: throws on text that is not JSON,
      [None] when the property is missing. *)
  parse_detections : str -> Exc (option (list DetectedReference));
  (** [JSON.parse(content)] read at the type [verifyMatch] declares. *)
  parse_verification : str -> Exc Verification;
  (** The persistence collaborator. *)
  db_write : Trace -> Event -> Exc unit;
  uuidv4 : Trace -> str;
  (** [String.prototype.toLowerCase] *)
  toLowerCase : str -> str
}.

Definition M (A : Type) : Type := Trace -> Exc A * Trace.

Definition ret {A} (a : A) : M A := fun t => (Ok a, t).

Definition throw {A} : M A := fun t => (Throw, t).

Definition bind {A B} (m : M A) (f : A -> M B) : M B :=
  fun t => match m t with
           | (Ok a, t') => f a t'
           | (Throw, t') => (Throw, t')
           end.

(** [try { body } catch { handler }] *)
Definition tryCatch {A} (body handler : M A) : M A :=
  fun t => match body t with
           | (Ok a, t') => (Ok a, t')
           | (Throw, t') => handler t'
           end.

(** One call to a collaborator: it answers from the history and is then
    recorded. *)
Definition call {A} (ev : Event) (answer : Trace -> Exc A) : M A :=
  fun t => (answer t, ev :: t).

(** A pure step that may throw. *)
Definition lift {A} (r : Exc A) : M A := fun t => (r, t).

(** [await Promise.all([a, b])]: both calls are made; the result is
    rejected when one of them is. *)
Definition promise_all2 {A B} (a : M A) (b : M B) : M (A * B) :=
  fun t =>
    let (ra, t1) := a t in
    let (rb, t2) := b t1 in
    (match ra, rb with
     | Ok x, Ok y => Ok (x, y)
     | _, _ => Throw
     end, t2).

(** A loop that collects one result per element. *)
Fixpoint mapM {A B} (f : A -> M B) (l : list A) : M (list B) :=
  match l with
  | [] => ret []
  | x :: l' => bind (f x) (fun y => bind (mapM f l') (fun ys => ret (y :: ys)))
  end.

(** A loop that threads a state. *)
Fixpoint foldM {A S} (f : S -> A -> M S) (l : list A) (s : S) : M S :=
  match l with
  | [] => ret s
  | x :: l' => bind (f s x) (foldM f l')
  end.

End Effects.
Import Effects.

Declare Scope monad_scope.
Delimit Scope monad_scope with monad.
Notation "x <- m ;; k" := (bind m (fun x => k))
  (at level 61, m at next level, right associativity) : monad_scope.
Notation "m ;;; k" := (bind m (fun _ => k))
  (at level 61, right associativity) : monad_scope.
Open Scope monad_scope.

(* ================================================================== *)
(** ** Reference Store ([rag]) *)
(* ================================================================== *)

Section Pipeline.

Variable svc : Services.

Definition by_similarity_desc (a b : MatchResult) : bool :=
  Qle_bool (similarity b) (similarity a).

Definition searchAll (queryText : str) (threshold : Q) (limit : Z)
  : M (list MatchResult) :=
  rs <- promise_all2
          (call (EvSearchQuran queryText threshold limit)
                (fun t => searchQuranVerses svc t queryText threshold limit))
          (call (EvSearchHadith queryText threshold limit)
                (fun t => searchHadith svc t queryText threshold limit)) ;;
  let '(quranResults, hadithResults) := rs in
  let results :=
    List.map (fun vs => {| reference := RefVerse (fst vs);
                           similarity := snd vs; m_type := quran |}) quranResults
    ++ List.map (fun hs => {| reference := RefHadith (fst hs);
                              similarity := snd hs; m_type := hadith |}) hadithResults in
  ret (slice0 (JsArray.sort by_similarity_desc results) limit).

(* ================================================================== *)
(** ** Detector and Matcher/Verifier ([processor]) *)
(* ================================================================== *)

Definition CONFIDENCE_AUTO_ANNOTATE : Q := 5 # 10.
Definition CONFIDENCE_SUGGEST : Q := 3 # 10.

Definition detectReferences (text : str) : M (list DetectedReference) :=
  tryCatch
    (content <- call (EvDetect text) (fun t => detection_model svc t text) ;;
     match content with
     | None => ret []
     | Some c =>
         if truthy c then
           parsed <- lift (parse_detections svc c) ;;
           ret (match parsed with Some ds => ds | None => [] end)
         else ret []
     end)
    (ret []).

Definition no_response : Verification :=
  {| match_index := None; v_confidence := 0; reasoning := js "No response" |}.

Definition error_response : Verification :=
  {| match_index := None; v_confidence := 0; reasoning := js "Error" |}.

Definition verifyMatch (detection : DetectedReference) (matches : list MatchResult)
  : M Verification :=
  tryCatch
    (content <- call (EvVerify detection matches)
                     (fun t => verification_model svc t detection matches) ;;
     match content with
     | None => ret no_response
     | Some c =>
         if truthy c then lift (parse_verification svc c) else ret no_response
     end)
    (ret error_response).

Definition no_match (detection : DetectedReference) : VerifiedMatch :=
  {| detected := detection; match_ := None; confidence := 0; reference_id := None |}.

Definition matchAndVerify (detection : DetectedReference) : M VerifiedMatch :=
  tryCatch
    (let searchText := corrected_text detection ++ js " " ++ context detection in
     matches <- searchAll searchText (3 # 10) 5 ;;
     if (size matches =? 0)%Z then ret (no_match detection)
     else
       verificationResult <- verifyMatch detection matches ;;
       match match_index verificationResult with
       | None =>
           ret {| detected := detection; match_ := None;
                  confidence := v_confidence verificationResult;
                  reference_id := None |}
       | Some i =>
           match index matches i with
           | Some bestMatch =>
               ret {| detected := detection; match_ := Some bestMatch;
                      confidence := v_confidence verificationResult;
                      reference_id := Some (createReferenceId bestMatch) |}
           | None => throw  (* [createReferenceId(undefined)] raises a TypeError *)
           end
       end)
    (ret (no_match detection)).

(* ================================================================== *)
(** ** Pipeline Orchestrator ([processor]) *)
(* ================================================================== *)

(** [detection.start_index += chunkOffset; detection.end_index += chunkOffset] *)
Definition rebase (chunkOffset : Z) (d : DetectedReference) : DetectedReference :=
  {| d_type := d_type d;
     original_text := original_text d;
     corrected_text := corrected_text d;
     start_index := start_index d + chunkOffset;
     end_index := end_index d + chunkOffset;
     context := context d |}.

(** Step 2: the loop over the chunks, from the running [chunkOffset]. *)
Fixpoint detect_chunks (chunks : list str) (chunkOffset : Z)
  : M (list DetectedReference) :=
  match chunks with
  | [] => ret []
  | chunk :: rest =>
      detections <- detectReferences chunk ;;
      more <- detect_chunks rest (chunkOffset + len chunk + 2) ;;
      ret (List.map (rebase chunkOffset) detections ++ more)
  end.

(** The values of [chunkOffset] at the start of each iteration. *)
Fixpoint chunk_offsets (chunks : list str) (chunkOffset : Z) : list Z :=
  match chunks with
  | [] => []
  | chunk :: rest => chunkOffset :: chunk_offsets rest (chunkOffset + len chunk + 2)
  end.

Definition is_some {A} (o : option A) : bool :=
  match o with Some _ => true | None => false end.

(** [m.confidence >= CONFIDENCE_AUTO_ANNOTATE && m.match] *)
Definition accepted (m : VerifiedMatch) : bool :=
  Qle_bool CONFIDENCE_AUTO_ANNOTATE (confidence m) && is_some (match_ m).

(** [b.detected.start_index - a.detected.start_index <= 0] *)
Definition by_start_desc (a b : VerifiedMatch) : bool :=
  (start_index (detected b) <=? start_index (detected a))%Z.

Definition sortedMatches (verifiedMatches : list VerifiedMatch) : list VerifiedMatch :=
  JsArray.sort by_start_desc (List.filter accepted verifiedMatches).

(** [m.confidence < CONFIDENCE_AUTO_ANNOTATE] *)
Definition low_confidence (m : VerifiedMatch) : bool :=
  negb (Qle_bool CONFIDENCE_AUTO_ANNOTATE (confidence m)).

(** The variables the annotation loop updates. *)
Record AnnState := {
  st_annotations : list Annotation;
  st_quran_matches : Z;
  st_hadith_matches : Z;
  st_annotatedText : str
}.

(** The replacement of the first occurrence found, if any. *)
Definition place (annotatedText originalText annotationFormat : str) : str :=
  match indexOf (toLowerCase svc annotatedText) (toLowerCase svc originalText) with
  | Some actualIndex =>
      substring_to annotatedText actualIndex
      ++ annotationFormat
      ++ substring_from annotatedText (actualIndex + List.length originalText)
  | None => annotatedText
  end.

(** Body of the loop over [sortedMatches]. *)
Definition annotate_step (transcriptId : str) (st : AnnState) (verified : VerifiedMatch)
  : M AnnState :=
  match match_ verified, reference_id verified with
  | Some m, Some rid =>
      if truthy rid then
        id <- call EvUuid (fun t => Ok (uuidv4 svc t)) ;;
        let annotation :=
          {| a_id := id;
             a_transcript_id := transcriptId;
             a_type := m_type m;
             a_reference_id := rid;
             a_original_text := original_text (detected verified);
             a_corrected_text := corrected_text (detected verified);
             a_confidence := confidence verified;
             a_start_index := start_index (detected verified);
             a_end_index := end_index (detected verified) |} in
        let originalText := original_text (detected verified) in
        let annotationFormat := createAnnotationMarkdown verified in
        ret {| st_annotations := st_annotations st ++ [annotation];
               st_quran_matches :=
                 match m_type m with
                 | quran => st_quran_matches st + 1
                 | hadith => st_quran_matches st
                 end;
               st_hadith_matches :=
                 match m_type m with
                 | quran => st_hadith_matches st
                 | hadith => st_hadith_matches st + 1
                 end;
               st_annotatedText :=
                 place (st_annotatedText st) originalText annotationFormat |}
      else ret st
  | _, _ => ret st
  end.

Definition db (ev : Event) : M unit := call ev (fun t => db_write svc t ev).

(** Steps 1 to 3: status update, chunking, detection, verification. *)
Definition detect_and_verify (transcriptId text : str)
  : M (list DetectedReference * list VerifiedMatch) :=
  db (EvUpdateStatus transcriptId processing) ;;;
  let chunks := splitIntoChunks text 2000 in
  allDetections <- detect_chunks chunks 0 ;;
  verifiedMatches <- mapM matchAndVerify allDetections ;;
  ret (allDetections, verifiedMatches).

(** Steps 4 and 5: annotation, statistics, persistence. *)
Definition annotate_and_save (transcriptId text : str)
           (allDetections : list DetectedReference)
           (verifiedMatches : list VerifiedMatch) : M ProcessingResult :=
  st <- foldM (annotate_step transcriptId) (sortedMatches verifiedMatches)
          {| st_annotations := []; st_quran_matches := 0;
             st_hadith_matches := 0; st_annotatedText := text |} ;;
  let stats :=
    {| total_detected := size allDetections;
       quran_matches := st_quran_matches st;
       hadith_matches := st_hadith_matches st;
       low_confidence_skipped := size (List.filter low_confidence verifiedMatches) |} in
  db (EvSaveAnnotated transcriptId (st_annotatedText st) complete) ;;;
  (if (size (st_annotations st) >? 0)%Z
   then db (EvInsertAnnotations (st_annotations st))
   else ret tt) ;;;
  ret {| annotated_text := st_annotatedText st;
         annotations := st_annotations st;
         stats := stats |}.

(** [processTranscript], called without a progress callback. *)
Definition processTranscript (transcriptId text : str) : M ProcessingResult :=
  tryCatch
    (dv <- detect_and_verify transcriptId text ;;
     annotate_and_save transcriptId text (fst dv) (snd dv))
    (db (EvUpdateStatus transcriptId error) ;;; throw).

End Pipeline.

(* ================================================================== *)
(** ** Concrete collaborators for the scenarios *)
(* ================================================================== *)

Module Scenario.

(** Lower-casing of the letters A-Z, which is what [toLowerCase] does on
    ASCII text. *)
Definition ascii_lower (s : str) : str :=
  List.map (fun c => if in_range 65 90 c then (c + 32)%N else c) s.

(** Collaborators that always answer the same: the Reference Store returns
    [verses] and [traditions], the Detector reports [detections] for every
    chunk, the adjudication answers [verdict], persistence succeeds. *)
Definition fixed_services (verses : list (QuranVerse * Q))
           (traditions : list (Hadith * Q))
           (detections : list DetectedReference)
           (verdict : Verification) : Services :=
  {| searchQuranVerses := fun _ _ _ _ => Ok verses;
     searchHadith := fun _ _ _ _ => Ok traditions;
     detection_model := fun _ _ => Ok (Some (js "{detections}"));
     verification_model := fun _ _ _ => Ok (Some (js "{verdict}"));
     parse_detections := fun _ => Ok (Some detections);
     parse_verification := fun _ => Ok verdict;
     db_write := fun _ _ => Ok tt;
     uuidv4 := fun _ => js "uuid";
     toLowerCase := ascii_lower |}.

Definition verse (surah ayah : Z) : QuranVerse :=
  {| qv_id := 0; surah_number := surah; ayah_number := ayah;
     qv_arabic_text := []; qv_english_text := []; transliteration := [] |}.

Definition candidate (literal : str) (start stop : Z) : DetectedReference :=
  {| d_type := quran; original_text := literal; corrected_text := literal;
     start_index := start; end_index := stop; context := [] |}.

Definition verdict (i : option Z) (c : Q) : Verification :=
  {| match_index := i; v_confidence := c; reasoning := [] |}.

(** Scenario A of the specification, with a Detector that reports the
    span [0, 25) for a quotation that starts at offset 9. *)
Definition scenarioA_text : str := js "He said, Allahu la ilaha illa huwa.".
Definition scenarioA_literal : str := js "Allahu la ilaha illa huwa".
Definition scenarioA_services : Services :=
  fixed_services [(verse 2 255, 8 # 10)] []
                 [candidate scenarioA_literal 0 25] (verdict (Some 0%Z) (8 # 10)).

End Scenario.

Module ScenarioMatches.
Import Scenario.

Definition tradition (coll : str) (book number : Z) : Hadith :=
  {| h_id := []; collection := coll; book_number := book; hadith_number := number;
     h_arabic_text := []; h_english_text := []; grade := []; narrator_chain := [] |}.

Definition verse_result (surah ayah : Z) (score : Q) : MatchResult :=
  {| reference := RefVerse (verse surah ayah); similarity := score; m_type := quran |}.

Definition tradition_result (coll : str) (book number : Z) (score : Q) : MatchResult :=
  {| reference := RefHadith (tradition coll book number);
     similarity := score; m_type := hadith |}.

(** A Verified Match as [matchAndVerify] builds it for a chosen entry. *)
Definition verified (literal : str) (m : MatchResult) (c : Q) : VerifiedMatch :=
  {| detected := candidate literal 0 0; match_ := Some m; confidence := c;
     reference_id := Some (createReferenceId m) |}.

(** Scenario D of the specification: the two best scores are 0.52 and
    0.50, and the adjudication picks index 1 and reports 0.9. *)
Definition scenarioD_services : Services :=
  fixed_services [(verse 2 255, 52 # 100); (verse 3 2, 50 # 100)] []
                 [candidate scenarioA_literal 9 34] (verdict (Some 1%Z) (9 # 10)).

(** A clear winner (one result, score 0.9) that the adjudication rejects. *)
Definition clear_winner_services : Services :=
  fixed_services [(verse 2 255, 9 # 10)] []
                 [candidate scenarioA_literal 9 34] (verdict None (9 # 10)).

(** The Detector reports a literal text that is not in the document. *)
Definition missing_literal_services : Services :=
  fixed_services [(verse 2 255, 8 # 10)] []
                 [candidate (js "Allahu akbar") 9 21] (verdict (Some 0%Z) (8 # 10)).

(** Collaborators whose embedding service is down for every query that
    starts with the letter x. *)
Definition flaky_services : Services :=
  {| searchQuranVerses := fun _ q _ _ =>
       if prefixb (js "x") q then Throw else Ok [(verse 2 255, 8 # 10)];
     searchHadith := fun _ _ _ _ => Ok [];
     detection_model := fun _ _ => Ok (Some (js "{detections}"));
     verification_model := fun _ _ _ => Ok (Some (js "{verdict}"));
     parse_detections := fun _ => Ok (Some []);
     parse_verification := fun _ => Ok (verdict (Some 0%Z) (8 # 10));
     db_write := fun _ _ => Ok tt;
     uuidv4 := fun _ => js "uuid";
     toLowerCase := ascii_lower |}.

(** The results of the runs over the text of Scenario A, for the transcript
    [t1]. *)
Definition recorded (literal key : str) (start stop : Z) (c : Q) : Annotation :=
  {| a_id := js "uuid"; a_transcript_id := js "t1"; a_type := quran;
     a_reference_id := key; a_original_text := literal;
     a_corrected_text := literal; a_confidence := c;
     a_start_index := start; a_end_index := stop |}.

Definition counts (total verses traditions low : Z) : Stats :=
  {| total_detected := total; quran_matches := verses;
     hadith_matches := traditions; low_confidence_skipped := low |}.

Definition scenarioA_marker : str := js "[[quran:2:255|Allahu la ilaha illa huwa]]".

Definition scenarioA_result : ProcessingResult :=
  {| annotated_text := js "He said, " ++ scenarioA_marker ++ js ".";
     annotations := [recorded scenarioA_literal (js "2:255") 0 25 (8 # 10)];
     stats := counts 1 1 0 0 |}.

Definition missing_literal_result : ProcessingResult :=
  {| annotated_text := scenarioA_text;
     annotations := [recorded (js "Allahu akbar") (js "2:255") 9 21 (8 # 10)];
     stats := counts 1 1 0 0 |}.

Definition clear_winner_result : ProcessingResult :=
  {| annotated_text := scenarioA_text;
     annotations := [];
     stats := counts 1 0 0 0 |}.

End ScenarioMatches.

(* ================================================================== *)
(** ** Vocabulary of the statements about the pipeline *)
(* ================================================================== *)

Module PipelineSpec.

Section WithServices.

Variable svc : Services.

(** The query [matchAndVerify] sends to the Reference Store. *)
Definition searchText (d : DetectedReference) : str :=
  corrected_text d ++ js " " ++ context d.

(** What [searchAll] returns from the history [t]. *)
Definition stored (queryText : str) (threshold : Q) (limit : Z) (t : Trace)
  : Exc (list MatchResult) :=
  match searchQuranVerses svc t queryText threshold limit,
        searchHadith svc (EvSearchQuran queryText threshold limit :: t)
                     queryText threshold limit with
  | Ok quranResults, Ok hadithResults =>
      Ok (slice0 (JsArray.sort by_similarity_desc
                    (List.map (fun vs => {| reference := RefVerse (fst vs);
                                            similarity := snd vs; m_type := quran |})
                              quranResults
                     ++ List.map (fun hs => {| reference := RefHadith (fst hs);
                                               similarity := snd hs; m_type := hadith |})
                                 hadithResults)) limit)
  | _, _ => Throw
  end.

Definition after_search (queryText : str) (threshold : Q) (limit : Z) (t : Trace) : Trace :=
  EvSearchHadith queryText threshold limit :: EvSearchQuran queryText threshold limit :: t.

(** What [verifyMatch] returns from the history [t]. *)
Definition verdict_of (d : DetectedReference) (ms : list MatchResult) (t : Trace)
  : Verification :=
  match verification_model svc t d ms with
  | Throw => error_response
  | Ok None => no_response
  | Ok (Some c) =>
      if truthy c then
        match parse_verification svc c with
        | Ok vr => vr
        | Throw => error_response
        end
      else no_response
  end.

(** The failures of matching and verification: the search of the Reference
    Store throws (the embedding service or the vector index fails for
    either corpus), the adjudication call fails, or its output cannot be
    parsed. *)
Definition verification_fails (d : DetectedReference) (t : Trace) : Prop :=
  fst (searchAll svc (searchText d) (3 # 10) 5 t) = Throw
  \/ exists ms t1,
       searchAll svc (searchText d) (3 # 10) 5 t = (Ok ms, t1) /\ ms <> []
       /\ (verification_model svc t1 d ms = Throw
           \/ exists c, verification_model svc t1 d ms = Ok (Some c)
                        /\ truthy c = true /\ parse_verification svc c = Throw).

(** The annotation loop records a match that has an entry and a key. *)
Definition annotatable (v : VerifiedMatch) : bool :=
  match match_ v, reference_id v with
  | Some _, Some rid => truthy rid
  | _, _ => false
  end.

(** Annotation [a] of transcript [transcriptId] was recorded from [v]. *)
Definition records (transcriptId : str) (a : Annotation) (v : VerifiedMatch) : Prop :=
  exists m,
    match_ v = Some m
    /\ reference_id v = Some (a_reference_id a)
    /\ a_transcript_id a = transcriptId
    /\ a_type a = m_type m
    /\ a_original_text a = original_text (detected v)
    /\ a_corrected_text a = corrected_text (detected v)
    /\ a_confidence a = confidence v
    /\ a_start_index a = start_index (detected v)
    /\ a_end_index a = end_index (detected v).

(** Candidate [d] is what the Detector reported for some chunk, rebased by
    the running offset of that chunk. *)
Definition from_detector (chunks : list str) (d : DetectedReference) : Prop :=
  exists chunk off t0 raws t0' raw,
    In (chunk, off) (combine chunks (chunk_offsets chunks 0))
    /\ detectReferences svc chunk t0 = (Ok raws, t0')
    /\ In raw raws
    /\ d = rebase off raw.

(** The shape [matchAndVerify] gives its results. *)
Definition well_formed (v : VerifiedMatch) : Prop :=
  match match_ v with
  | Some m => reference_id v = Some (createReferenceId m)
  | None => reference_id v = None
  end.

End WithServices.

(** The Verified Match built from the stored results [ms] and the
    adjudication's answer [vr]. *)
Definition verified_from (d : DetectedReference) (ms : list MatchResult)
           (vr : Verification) : VerifiedMatch :=
  match match_index vr with
  | None => {| detected := d; match_ := None;
               confidence := v_confidence vr; reference_id := None |}
  | Some i =>
      match index ms i with
      | Some bestMatch =>
          {| detected := d; match_ := Some bestMatch;
             confidence := v_confidence vr;
             reference_id := Some (createReferenceId bestMatch) |}
      | None => no_match d
      end
  end.

(** The record the annotation loop builds for [v]. *)
Definition annotation_of (transcriptId id : str) (v : VerifiedMatch)
           (m : MatchResult) (rid : str) : Annotation :=
  {| a_id := id;
     a_transcript_id := transcriptId;
     a_type := m_type m;
     a_reference_id := rid;
     a_original_text := original_text (detected v);
     a_corrected_text := corrected_text (detected v);
     a_confidence := confidence v;
     a_start_index := start_index (detected v);
     a_end_index := end_index (detected v) |}.

(** [type === 'quran'], the test that chooses the counter. *)
Definition is_quran (k : RefKind) : bool :=
  match k with quran => true | hadith => false end.

(** What one recorded match of kind [k] adds to the counter of the verses
    and to the counter of the traditions. *)
Definition counted_as (k : RefKind) : Z * Z :=
  match k with quran => (1, 0)%Z | hadith => (0, 1)%Z end.

(** Confidence at or above the threshold, but no entry. *)
Definition confident_without_entry (v : VerifiedMatch) : bool :=
  Qle_bool CONFIDENCE_AUTO_ANNOTATE (confidence v) && negb (is_some (match_ v)).

(** The state the annotation loop starts from. *)
Definition initial_state (text : str) : AnnState :=
  {| st_annotations := []; st_quran_matches := 0;
     st_hadith_matches := 0; st_annotatedText := text |}.

(** The writes that end a successful run, latest first: the annotated
    text with the [complete] status, then the annotations if there are
    any. *)
Definition final_writes (transcriptId : str) (rows : list Annotation) (annotatedText : str)
  : Trace :=
  (if (size rows >? 0)%Z then [EvInsertAnnotations rows] else [])
  ++ [EvSaveAnnotated transcriptId annotatedText complete].

End PipelineSpec.
Import PipelineSpec.

(* ================================================================== *)
(** ** Shapes of text used in the statements *)
(* ================================================================== *)

Module TextShape.

(** Not empty, and the first character is not white space. *)
Definition head_ok (s : str) : bool :=
  match s with [] => false | c :: _ => negb (isSpace c) end.

(** Not empty, no white space at either end. *)
Definition edge_clean (s : str) : bool := head_ok s && head_ok (rev s).

(** Every white-space character is a single space between two other
    characters or at an end. *)
Fixpoint single_spaced (s : str) : bool :=
  match s with
  | [] => true
  | c :: s' =>
      (if isSpace c
       then (c =? SP)%N && match s' with [] => true | d :: _ => negb (isSpace d) end
       else true)
      && single_spaced s'
  end.

(** White space already collapsed and trimmed. *)
Definition ws_canonical (s : str) : bool :=
  match s with [] => true | _ => edge_clean s && single_spaced s end.

(** No two line feeds in a row. *)
Fixpoint no_blank_line (s : str) : bool :=
  match s with
  | [] => true
  | c :: s' =>
      negb ((c =? LF)%N && match s' with d :: _ => (d =? LF)%N | [] => false end)
      && no_blank_line s'
  end.

(** A paragraph the chunker keeps whole: trimmed, not empty, without a
    blank line inside, within the size limit. *)
Definition clean_paragraph (maxChunkSize : Z) (p : str) : bool :=
  edge_clean p && no_blank_line p && (len p <=? maxChunkSize)%Z.

(** The pending chunk of the chunker as a list: nothing when it is empty. *)
Definition pending (cur : str) : list str := if truthy cur then [cur] else [].

(** The character [x] does not occur in [s]. *)
Definition free_of (x : char) (s : str) : bool := forallb (not_char x) s.

(** [text.substring(off, off + n)] for [0 <= off]. *)
Definition substring (text : str) (off : Z) (n : nat) : str :=
  firstn n (skipn (Z.to_nat off) text).

End TextShape.
Import TextShape.

(* ================================================================== *)
(** ** Surah names ([arabic-utils]) *)
(* ================================================================== *)

Module SurahNames.




End SurahNames.
Import SurahNames.

(* ================================================================== *)
(** ** Readers of the markers ([AnnotatedViewer], [ExportButton]) *)
(* ================================================================== *)

Module Viewer.

(** The items of the pattern
    [/\[\[(quran|hadith):([^\|]+)\|([^\]]+)\]\]/g]: literals, the
    capturing alternative, and the capturing groups [([^x]+)]. *)
Inductive VAtom :=
| VLit (s : str)
| VAlt (alternatives : list str)
| VPlus (cls : char -> bool).

(** The alternatives are tried from left to right; a later one is tried
    when the rest of the pattern fails after an earlier one. *)
Fixpoint alt_bt {R} (alternatives : list str) (s : str)
         (k : str -> str -> option R) : option R :=
  match alternatives with
  | [] => None
  | p :: alternatives' =>
      if prefixb p s then
        match k p (skipn (List.length p) s) with
        | Some r => Some r
        | None => alt_bt alternatives' s k
        end
      else alt_bt alternatives' s k
  end.

(** Match the pattern at the start of [s]; the result is the list of the
    captures and what follows the match. *)
Fixpoint vmatch (re : list VAtom) (s : str) : option (list str * str) :=
  match re with
  | [] => Some ([], s)
  | VLit p :: re' =>
      if prefixb p s then vmatch re' (skipn (List.length p) s) else None
  | VAlt alternatives :: re' =>
      alt_bt alternatives s
             (fun cap rest =>
                option_map (fun r => (cap :: fst r, snd r)) (vmatch re' rest))
  | VPlus cls :: re' =>
      plus_bt cls s []
              (fun cap rest =>
                 option_map (fun r => (cap :: fst r, snd r)) (vmatch re' rest))
  end.

Definition marker_re : list VAtom :=
  [VLit (js "[["); VAlt [js "quran"; js "hadith"]; VLit (js ":");
   VPlus (not_char PIPE); VLit (js "|"); VPlus (not_char RBRACKET); VLit (js "]]")].

(** The parts [parseAnnotationMarkdown] returns: plain text, or an
    annotation with the three captures. *)
Inductive Part :=
| Text (s : str)
| Ref (type reference display : str).

(** The text between the end of the last match and here, if there is any;
    [plain] holds it reversed. *)
Definition flush (plain : str) : list Part :=
  match plain with [] => [] | _ => [Text (rev plain)] end.

(** The loop [while ((match = regex.exec(text)) !== null)]: the matches
    are found from left to right, each search starting where the last match
    ended.  [skip] counts the characters of the last match still to pass
    over. *)
Fixpoint scan_parts (s : str) (skip : nat) (plain : str) : list Part :=
  match s with
  | [] => flush plain
  | c :: s' =>
      match skip with
      | S k => scan_parts s' k plain
      | O =>
          match vmatch marker_re s with
          | Some ([type; reference; display], rest) =>
              flush plain
              ++ Ref type reference display
                 :: scan_parts s' (List.length s - List.length rest - 1) []
          | _ => scan_parts s' 0 (c :: plain)
          end
      end
  end.

Definition parseAnnotationMarkdown (text : str) : list Part := scan_parts text 0 [].

(** [annotatedText.replace(/\[\[(quran|hadith):([^\|]+)\|([^\]]+)\]\]/g, '[$3]')],
    the plain-text export. *)
Fixpoint export_scan (s : str) (skip : nat) : str :=
  match s with
  | [] => []
  | c :: s' =>
      match skip with
      | S k => export_scan s' k
      | O =>
          match vmatch marker_re s with
          | Some ([_; _; display], rest) =>
              js "[" ++ display ++ js "]"
              ++ export_scan s' (List.length s - List.length rest - 1)
          | _ => c :: export_scan s' 0
          end
      end
  end.

Definition exportAsText (annotatedText : str) : str := export_scan annotatedText 0.

End Viewer.
Import Viewer.

(* ================================================================== *)
(** ** Vocabulary of the further statements about the pipeline *)
(* ================================================================== *)

Module PipelineSpecMore.

(** The marker a part stands for. *)
Definition unparse (p : Part) : str :=
  match p with
  | Text s => s
  | Ref type reference display =>
      js "[[" ++ type ++ js ":" ++ reference ++ js "|" ++ display ++ js "]]"
  end.

(** The name of a kind in a marker. *)
Definition kind_name (k : RefKind) : str :=
  match k with quran => js "quran" | hadith => js "hadith" end.


(** On the text [s], lower-casing works character by character with
    [f]. *)
Definition lowered_by (lower : str -> str) (f : char -> char) (s : str) : Prop :=
  lower s = List.map f s.

(** A call to the persistence collaborator. *)
Definition is_db_write (ev : Event) : bool :=
  match ev with
  | EvUpdateStatus _ _ | EvSaveAnnotated _ _ _ | EvInsertAnnotations _ => true
  | _ => false
  end.

(** Calls that leave the persistence collaborator alone. *)
Definition quiet (calls : Trace) : bool := forallb (fun ev => negb (is_db_write ev)) calls.

(** The descending order of the advisory start offsets. *)
Definition start_desc (a b : VerifiedMatch) : Prop :=
  (start_index (detected b) <= start_index (detected a))%Z.



Definition COLON : char := 58%N.

(** The type tag of a match agrees with its entry, as [searchAll] builds
    it. *)
Definition tag_agrees (m : MatchResult) : bool :=
  match m_type m, reference m with
  | quran, RefVerse _ => true
  | hadith, RefHadith _ => true
  | _, _ => false
  end.

(** Two matches point to the same place of the same corpus. *)
Definition same_entry (m1 m2 : MatchResult) : Prop :=
  match reference m1, reference m2 with
  | RefVerse v1, RefVerse v2 =>
      surah_number v1 = surah_number v2 /\ ayah_number v1 = ayah_number v2
  | RefHadith h1, RefHadith h2 =>
      collection h1 = collection h2 /\ book_number h1 = book_number h2
      /\ hadith_number h1 = hadith_number h2
  | _, _ => False
  end.

End PipelineSpecMore.
Import PipelineSpecMore.

(* ================================================================== *)
(** ** Text Normalizer, continued ([arabic-utils]) *)
(* ================================================================== *)

Module ArabicUtilsMore.

(** [s.replace(/lit/g, rep)] for a literal pattern: the occurrences are
    found from left to right and do not overlap.  [skip] counts the
    characters of the current occurrence still to pass over. *)
Fixpoint replace_lit (p rep : str) (skip : nat) (s : str) : str :=
  match s with
  | [] => []
  | c :: s' =>
      match skip with
      | S k => replace_lit p rep k s'
      | O =>
          if prefixb p s
          then rep ++ replace_lit p rep (List.length p - 1) s'
          else c :: replace_lit p rep 0 s'
      end
  end.

(** [normalizeTransliteration]; [lower] is [String.prototype.toLowerCase]. *)
Definition normalizeTransliteration (lower : str -> str) (text : str) : str :=
  let t := lower text in
  let t := replace_lit (js "aa") (js "a") 0 t in
  let t := replace_lit (js "ee") (js "i") 0 t in
  let t := replace_lit (js "oo") (js "u") 0 t in
  let t := replace_lit (js "dh") (js "z") 0 t in
  let t := replace_lit (js "th") (js "s") 0 t in
  let t := replace_lit (js "kh") (js "x") 0 t in
  let t := replace_lit (js "sh") (js "$") 0 t in
  let t := replace_lit (js "gh") (js "g") 0 t in
  let t := replace_class (one_of [39; 45]%N) [] t in
  trim (replace_ws_runs false t).

(** *** Levenshtein distance *)

(** [number[][]] *)
Definition matrix := list (list Z).

(** [matrix[i][j]] *)
Definition mget (M : matrix) (i j : nat) : Z := nth j (nth i M []) 0%Z.

(** [a[i] = v] for a position of the array. *)
Fixpoint set_nth {A} (l : list A) (i : nat) (v : A) : list A :=
  match l, i with
  | [], _ => []
  | _ :: l', O => v :: l'
  | x :: l', S i' => x :: set_nth l' i' v
  end.

(** [matrix[i][j] = v] *)
Definition mset (M : matrix) (i j : nat) (v : Z) : matrix :=
  set_nth M i (set_nth (nth i M []) j v).

(** [Array(m + 1).fill(null).map(() => Array(n + 1).fill(0))] *)
Definition zeros (m n : nat) : matrix := repeat (repeat 0%Z (S n)) (S m).

(** [Math.min(a, b, c)] *)
Definition min3 (a b c : Z) : Z := Z.min a (Z.min b c).

(** Body of the inner loop. *)
Definition fill_cell (str1 str2 : str) (M : matrix) (i j : nat) : matrix :=
  let cost := if (nth (i - 1) str1 0 =? nth (j - 1) str2 0)%N then 0%Z else 1%Z in
  mset M i j (min3 (mget M (i - 1) j + 1)
                   (mget M i (j - 1) + 1)
                   (mget M (i - 1) (j - 1) + cost)).

Definition levenshteinDistance (str1 str2 : str) : Z :=
  let m := List.length str1 in
  let n := List.length str2 in
  if (m =? 0)%nat then Z.of_nat n
  else if (n =? 0)%nat then Z.of_nat m
  else
    let M := zeros m n in
    let M := fold_left (fun M i => mset M i 0 (Z.of_nat i)) (seq 0 (S m)) M in
    let M := fold_left (fun M j => mset M 0 j (Z.of_nat j)) (seq 0 (S n)) M in
    let M := fold_left (fun M i =>
                          fold_left (fun M j => fill_cell str1 str2 M i j) (seq 1 n) M)
                       (seq 1 m) M in
    mget M m n.

(** [a === b] on strings. *)
Fixpoint str_eqb (a b : str) : bool :=
  match a, b with
  | [], [] => true
  | x :: a', y :: b' => (x =? y)%N && str_eqb a' b'
  | _, _ => false
  end.

Section Fuzzy.

(** The numbers of the runtime with the three operations
    [fuzzyMatchArabic] uses on them: the literal [1.0], subtraction and
    division; [of_int] reads an integer as a number. *)
Variable number : Type.
Variable one : number.
Variable of_int : Z -> number.
Variable nsub ndiv : number -> number -> number.

Definition fuzzyMatchArabic (text1 text2 : str) : number :=
  let norm1 := normalizeArabic text1 in
  let norm2 := normalizeArabic text2 in
  if str_eqb norm1 norm2 then one
  else
    let distance := levenshteinDistance norm1 norm2 in
    let maxLength := Z.max (len norm1) (len norm2) in
    if (maxLength =? 0)%Z then one
    else nsub one (ndiv (of_int distance) (of_int maxLength)).

End Fuzzy.

End ArabicUtilsMore.
Import ArabicUtilsMore.

(* ================================================================== *)
(** ** Vocabulary of the statements about the Normalizer *)
(* ================================================================== *)

Module NormalizerSpec.

(** The text without its white space. *)
Definition strip (s : str) : str := List.filter (fun c => negb (isSpace c)) s.

(** The non-white-space content of a state [(chunks, currentChunk)] of
    the chunker. *)
Definition chunker_content (st : list str * str) : str :=
  strip (List.concat (fst st)) ++ strip (snd st).

(** The length of the paragraphs, each counted with the two characters of
    a separator. *)
Definition paragraphs_weight (ps : list str) : Z :=
  fold_right (fun p acc => (len p + 2 + acc)%Z) 0%Z ps.

(** Neither a diacritical mark nor a letter variant. *)
Definition canonical_char (c : char) : bool :=
  negb (ARABIC_DIACRITICS c)
  && forallb (fun pr => negb (fst pr c)) ARABIC_NORMALIZATIONS.

(** The first two steps of [normalizeArabic]: the marks are removed and
    the letter variants replaced. *)
Definition canonical_letters (s : str) : str :=
  fold_left (fun acc pr => replace_class (fst pr) (snd pr) acc)
            ARABIC_NORMALIZATIONS (removeDiacritics s).

(** The normal form of [normalizeArabic]. *)
Definition normal_form (s : str) : bool :=
  forallb canonical_char s && ws_canonical s.

(** Trimmed: empty, or without white space at either end. *)
Definition trimmed (s : str) : bool :=
  match s with [] => true | _ => edge_clean s end.

(** The edit distance by recursion on the two texts: the last operation
    deletes the head of the first, inserts the head of the second, or
    substitutes one for the other. *)
Fixpoint lev (s : str) : str -> Z :=
  match s with
  | [] => fun t => len t
  | a :: s' =>
      fix lev_s (t : str) : Z :=
        match t with
        | [] => len (a :: s')
        | b :: t' =>
            min3 (lev s' t + 1) (lev_s t' + 1)
                 (lev s' t' + (if (a =? b)%N then 0 else 1))
        end
  end.

(** A matrix of [m + 1] rows of [n + 1] cells. *)
Definition matrix_shape (m n : nat) (M : matrix) : Prop :=
  List.length M = S m /\ forall i, (i <= m)%nat -> List.length (nth i M []) = S n.

(** The distance between the first [i] characters of [str1] and the first
    [j] characters of [str2], read from their ends. *)
Definition prefix_distance (str1 str2 : str) (i j : nat) : Z :=
  lev (rev (firstn i str1)) (rev (firstn j str2)).

(** Invariant of the outer loop of [levenshteinDistance]: the first column
    and the rows below [i] hold the distances of the prefixes. *)
Definition rows_filled (str1 str2 : str) (i : nat) (M : matrix) : Prop :=
  let m := List.length str1 in
  let n := List.length str2 in
  matrix_shape m n M
  /\ (forall i', (i' <= m)%nat -> mget M i' 0 = prefix_distance str1 str2 i' 0)
  /\ (forall i' j', (i' < i)%nat -> (i' <= m)%nat -> (j' <= n)%nat ->
                    mget M i' j' = prefix_distance str1 str2 i' j').

End NormalizerSpec.
Import NormalizerSpec.

(* ################################################################## *)
(** * Properties *)
(* ################################################################## *)

(** ** Text Normalizer *)

Example split_paragraphs_ex :
  split_paragraphs (js "a" ++ [LF; LF; LF] ++ js "b" ++ [LF] ++ js "c" ++ [LF; LF])
  = [js "a"; js "b" ++ [LF] ++ js "c"; []].
Proof. reflexivity. Qed.

Example split_sentences_ex :
  split_sentences (js "Hi.  Yes! no ?x. ") = [js "Hi."; js "Yes!"; js "no ?x."; []].
Proof. reflexivity. Qed.

Example splitIntoChunks_ex :
  splitIntoChunks (js "One. Two. Three." ++ [LF; LF] ++ js "ab") 10
  = [js "One. Two."; js "Three." ++ [LF; LF] ++ js "ab"].
Proof. reflexivity. Qed.

Example normalizeArabic_ex :
  normalizeArabic [1571; 1614; 1577; 32; 32; 1609]%N = [1575; 1607; 32; 1610]%N.
Proof. reflexivity. Qed.

Lemma replace_class_none (cls : char -> bool) (rep s : str) :
  Forall (fun c => cls c = false) s -> replace_class cls rep s = s.
Proof.
  unfold replace_class.
  induction 1 as [|c s Hc _ IH]; simpl; [reflexivity|].
  now rewrite Hc, IH.
Qed.

Lemma containsArabic_false (x : str) :
  containsArabic x = false -> Forall (fun c => isArabicChar c = false) x.
Proof.
  unfold containsArabic. induction x as [|c x IH]; simpl; intros H.
  - constructor.
  - apply orb_false_iff in H as [Hc Hx]. constructor; auto.
Qed.

(** The diacritics and the letter variants all lie in the Arabic block. *)
Lemma non_arabic_untouched (c : char) :
  isArabicChar c = false ->
  ARABIC_DIACRITICS c = false
  /\ Forall (fun pr => fst pr c = false) ARABIC_NORMALIZATIONS.
Proof.
  unfold isArabicChar, ARABIC_DIACRITICS, ARABIC_NORMALIZATIONS, in_range, one_of.
  intros H. apply andb_false_iff in H.
  split.
  - apply orb_false_iff. split.
    + apply andb_false_iff. destruct H as [H|H]; [left|right];
        apply N.leb_gt in H; apply N.leb_gt; lia.
    + apply N.eqb_neq. destruct H as [H|H]; apply N.leb_gt in H; lia.
  - repeat constructor; simpl;
      repeat (apply orb_false_iff; split); try reflexivity;
      apply N.eqb_neq; destruct H as [H|H]; apply N.leb_gt in H; lia.
Qed.

Lemma fold_replace_none (rules : list ((char -> bool) * str)) (s : str) :
  Forall (fun pr => Forall (fun c => fst pr c = false) s) rules ->
  fold_left (fun acc pr => replace_class (fst pr) (snd pr) acc) rules s = s.
Proof.
  induction 1 as [|pr rules Hpr _ IH]; simpl; [reflexivity|].
  now rewrite (replace_class_none _ _ Hpr).
Qed.

Lemma normalizeArabic_collapses_only (x : str) :
  containsArabic x = false ->
  normalizeArabic x = trim (replace_ws_runs false x).
Proof.
  intros H. apply containsArabic_false in H.
  unfold normalizeArabic, removeDiacritics.
  rewrite replace_class_none.
  - rewrite fold_replace_none; [reflexivity|].
    apply Forall_forall. intros pr Hpr.
    eapply Forall_impl; [|exact H]. intros c Hc.
    destruct (non_arabic_untouched c Hc) as [_ Hn].
    rewrite Forall_forall in Hn. now apply Hn.
  - eapply Forall_impl; [|exact H]. intros c Hc.
    now destruct (non_arabic_untouched c Hc).
Qed.

Lemma replace_ws_runs_head (b : bool) (s : str) :
  match s with [] => true | d :: _ => negb (isSpace d) end = true ->
  replace_ws_runs b s = replace_ws_runs false s.
Proof.
  destruct s as [|d s]; simpl; [reflexivity|].
  intros H. apply negb_true_iff in H. now rewrite H.
Qed.

Lemma replace_ws_runs_single_spaced (s : str) :
  single_spaced s = true -> replace_ws_runs false s = s.
Proof.
  induction s as [|c s IH]; simpl; [reflexivity|].
  intros H. apply andb_true_iff in H as [Hc Hs].
  destruct (isSpace c).
  - apply andb_true_iff in Hc as [Hsp Hnext].
    apply N.eqb_eq in Hsp. subst c.
    rewrite (replace_ws_runs_head true s Hnext), IH by assumption. reflexivity.
  - now rewrite IH.
Qed.

Lemma dropWhile_head_ok (s : str) : head_ok s = true -> dropWhile isSpace s = s.
Proof.
  destruct s as [|c s]; simpl; [discriminate|].
  intros H. apply negb_true_iff in H. now rewrite H.
Qed.

Lemma trim_edge_clean (s : str) : edge_clean s = true -> trim s = s.
Proof.
  unfold edge_clean, trim. intros H. apply andb_true_iff in H as [H1 H2].
  rewrite (dropWhile_head_ok s H1), (dropWhile_head_ok (rev s) H2).
  apply rev_involutive.
Qed.

(** C9 (as amended): [normalizeArabic] is a total function, and on an input
    without Arabic characters it does nothing but collapse each run of white
    space to one space and trim the ends; it is the identity on such an
    input when its white space is already collapsed and trimmed. *)
Theorem normalizeArabic_non_arabic (x : str) :
  containsArabic x = false ->
  normalizeArabic x = trim (replace_ws_runs false x)
  /\ (ws_canonical x = true -> normalizeArabic x = x).
Proof.
  intros H. pose proof (normalizeArabic_collapses_only x H) as E.
  split; [exact E|].
  intros Hc. rewrite E. destruct x as [|c x]; [reflexivity|].
  unfold ws_canonical in Hc. apply andb_true_iff in Hc as [He Hs].
  rewrite (replace_ws_runs_single_spaced _ Hs). now apply trim_edge_clean.
Qed.

Lemma normalizeArabic_non_arabic_witness :
  containsArabic (js "Allahu  akbar ") = false
  /\ normalizeArabic (js "Allahu  akbar ") = js "Allahu akbar"
  /\ normalizeArabic (js "Allahu akbar") = js "Allahu akbar".
Proof.
  split; [reflexivity|]. split.
  - rewrite (proj1 (normalizeArabic_non_arabic (js "Allahu  akbar ") eq_refl)).
    reflexivity.
  - exact (proj2 (normalizeArabic_non_arabic (js "Allahu akbar") eq_refl) eq_refl).
Defined.

(** C9 (as stated) fails: a Latin text with a doubled space is changed. *)
Lemma normalizeArabic_not_identity :
  containsArabic (js "la  ilaha") = false
  /\ normalizeArabic (js "la  ilaha") <> js "la  ilaha".
Proof. split; [reflexivity|]. vm_compute. discriminate. Qed.

(** ** Chunking *)

Section ChunkReconstruction.

Variable maxChunkSize : Z.

Lemma head_ok_not_LF (c : char) (s : str) : head_ok (c :: s) = true -> c <> LF.
Proof.
  simpl. intros H ->. discriminate.
Qed.

Lemma head_ok_app (a b : str) : head_ok a = true -> head_ok (a ++ b) = true.
Proof. destruct a; simpl; [discriminate|trivial]. Qed.

Lemma edge_clean_app (a m b : str) :
  edge_clean a = true -> edge_clean b = true -> edge_clean (a ++ m ++ b) = true.
Proof.
  unfold edge_clean. intros Ha Hb.
  apply andb_true_iff in Ha as [Ha _]. apply andb_true_iff in Hb as [_ Hb].
  apply andb_true_iff. split.
  - now apply head_ok_app.
  - rewrite !rev_app_distr, <- app_assoc. now apply head_ok_app.
Qed.

Lemma edge_clean_truthy (s : str) : edge_clean s = true -> truthy s = true.
Proof. destruct s; [discriminate|reflexivity]. Qed.

(** The last character of a trimmed text is not a line feed. *)
Lemma edge_clean_last (s : str) : edge_clean s = true -> last s 0%N <> LF.
Proof.
  unfold edge_clean. intros H. apply andb_true_iff in H as [_ H].
  destruct (rev s) as [|c r] eqn:E; [discriminate|].
  apply (f_equal (@rev char)) in E. rewrite rev_involutive in E. simpl in E.
  subst s. rewrite last_last. now apply head_ok_not_LF in H.
Qed.

(** Scanning over a text without blank line that does not end in a line
    feed only extends the current piece. *)
Lemma split_nl_scan (p : str) : forall cur rest,
  no_blank_line p = true -> last p 0%N <> LF ->
  split_nl false cur (p ++ rest) = split_nl false (rev p ++ cur) rest.
Proof.
  induction p as [|c p IH]; intros cur rest Hnb Hlast; [reflexivity|].
  simpl in Hnb. apply andb_true_iff in Hnb as [Hc Hnb].
  assert (Hnext : ((c =? LF)%N
                   && match p ++ rest with d :: _ => (d =? LF)%N | [] => false end)
                  = false).
  { destruct p as [|d p].
    - simpl in Hlast. apply N.eqb_neq in Hlast. now rewrite Hlast.
    - simpl. now apply negb_true_iff in Hc. }
  cbn [app split_nl andb]. rewrite Hnext.
  rewrite IH; [|assumption|].
  - simpl. now rewrite <- app_assoc.
  - destruct p; [simpl; discriminate|exact Hlast].
Qed.

(** After a separator, the scan resumes a fresh piece at the next
    paragraph. *)
Lemma split_nl_separator (cur q : str) :
  match q with [] => false | d :: _ => negb (d =? LF)%N end = true ->
  split_nl false cur (PARAGRAPH_SEP ++ q) = rev cur :: split_nl false [] q.
Proof.
  destruct q as [|d q]; [discriminate|]. intros Hd.
  apply negb_true_iff in Hd.
  cbn [PARAGRAPH_SEP app split_nl andb]. rewrite N.eqb_refl. cbn [andb].
  rewrite Hd. simpl. reflexivity.
Qed.

Lemma join_cons (sep x : str) (l : list str) :
  l <> [] -> join sep (x :: l) = x ++ sep ++ join sep l.
Proof. destruct l; [congruence|reflexivity]. Qed.

Lemma join_head_not_LF (ps : list str) :
  ps <> [] -> Forall (fun p => clean_paragraph maxChunkSize p = true) ps ->
  match join PARAGRAPH_SEP ps with [] => false | d :: _ => negb (d =? LF)%N end = true.
Proof.
  intros Hne Hall. destruct ps as [|p ps]; [congruence|].
  apply Forall_inv in Hall. unfold clean_paragraph, edge_clean in Hall.
  repeat (apply andb_true_iff in Hall as [Hall _]).
  assert (exists c p', p = c :: p' /\ c <> LF) as (c & p' & -> & Hc).
  { destruct p as [|c p']; [discriminate|].
    exists c, p'. split; [reflexivity|]. now apply head_ok_not_LF in Hall. }
  apply N.eqb_neq in Hc.
  destruct ps; simpl; now rewrite Hc.
Qed.

Lemma clean_paragraph_scan (p : str) :
  clean_paragraph maxChunkSize p = true ->
  no_blank_line p = true /\ last p 0%N <> LF.
Proof.
  unfold clean_paragraph. intros H.
  apply andb_true_iff in H as [H _]. apply andb_true_iff in H as [He Hn].
  split; [assumption|now apply edge_clean_last].
Qed.

(** Splitting undoes the join of clean paragraphs. *)
Lemma split_paragraphs_join (ps : list str) :
  ps <> [] -> Forall (fun p => clean_paragraph maxChunkSize p = true) ps ->
  split_paragraphs (join PARAGRAPH_SEP ps) = ps.
Proof.
  unfold split_paragraphs.
  induction ps as [|p ps IH]; intros Hne Hall; [congruence|].
  inversion Hall as [|? ? Hp Hps]; subst.
  destruct (clean_paragraph_scan p Hp) as [Hnb Hlast].
  destruct ps as [|p2 ps].
  - simpl. rewrite <- (app_nil_r p) at 1.
    rewrite split_nl_scan by assumption. simpl.
    now rewrite app_nil_r, rev_involutive.
  - rewrite join_cons by discriminate.
    rewrite split_nl_scan by assumption.
    rewrite split_nl_separator by (apply join_head_not_LF; [discriminate|assumption]).
    rewrite app_nil_r, rev_involutive. f_equal.
    apply IH; [discriminate|assumption].
Qed.

Lemma join_merge (sep x y : str) (a b : list str) :
  join sep (a ++ (x ++ sep ++ y) :: b) = join sep (a ++ x :: y :: b).
Proof.
  induction a as [|z a IH].
  - simpl. destruct b; [reflexivity|]. now rewrite <- !app_assoc.
  - cbn [app]. rewrite !join_cons by (destruct a; discriminate). now rewrite IH.
Qed.

Lemma push_trimmed_pending (chunks : list str) (cur : str) :
  (truthy cur = true -> edge_clean cur = true) ->
  push_trimmed chunks cur = chunks ++ pending cur.
Proof.
  unfold push_trimmed, pending. intros H.
  destruct (truthy cur); [|now rewrite app_nil_r].
  now rewrite trim_edge_clean by auto.
Qed.

(** Invariant of the loop over clean paragraphs: what has been emitted,
    the pending chunk and the paragraphs still to come always join to the
    same text. *)
Lemma paragraph_loop (ps : list str) : forall chunks cur,
  Forall (fun p => clean_paragraph maxChunkSize p = true) ps ->
  (truthy cur = true -> edge_clean cur = true) ->
  exists chunks' cur',
    fold_left (paragraph_step maxChunkSize) ps (chunks, cur) = (chunks', cur')
    /\ (truthy cur' = true -> edge_clean cur' = true)
    /\ join PARAGRAPH_SEP (chunks' ++ pending cur')
       = join PARAGRAPH_SEP (chunks ++ pending cur ++ ps).
Proof.
  induction ps as [|p ps IH]; intros chunks cur Hall Hcur.
  - exists chunks, cur. simpl. now rewrite app_nil_r.
  - inversion Hall as [|? ? Hp Hps]; subst.
    assert (Hclean := Hp). unfold clean_paragraph in Hp.
    apply andb_true_iff in Hp as [Hp Hlen]. apply andb_true_iff in Hp as [Hedge _].
    apply Z.leb_le in Hlen.
    cbn [fold_left]. unfold paragraph_step at 2.
    destruct (len cur + len p >? maxChunkSize)%Z eqn:Hbig.
    + assert (Hsmall : (len p >? maxChunkSize)%Z = false)
        by (rewrite Z.gtb_ltb; apply Z.ltb_ge; lia).
      rewrite Hsmall, push_trimmed_pending by assumption.
      destruct (IH (chunks ++ pending cur) p Hps (fun _ => Hedge))
        as (chunks' & cur' & E & Hc' & J).
      exists chunks', cur'. repeat split; try assumption.
      rewrite J. unfold pending at 2. rewrite (edge_clean_truthy _ Hedge).
      now rewrite <- !app_assoc.
    + destruct (truthy cur) eqn:Ht.
      * destruct (IH chunks (cur ++ [LF; LF] ++ p) Hps) as (chunks' & cur' & E & Hc' & J).
        { intros _. apply edge_clean_app; auto. }
        exists chunks', cur'. repeat split; try assumption.
        rewrite J. unfold pending.
        rewrite Ht, (edge_clean_truthy _ (@edge_clean_app cur [LF; LF] p (Hcur eq_refl) Hedge)).
        cbn [app]. apply (join_merge PARAGRAPH_SEP cur p chunks ps).
      * destruct cur; [|discriminate]. cbn [app].
        destruct (IH chunks p Hps (fun _ => Hedge)) as (chunks' & cur' & E & Hc' & J).
        exists chunks', cur'. repeat split; try assumption.
        rewrite J. unfold pending. cbn [truthy app].
        now rewrite (edge_clean_truthy _ Hedge).
Qed.

(** The running offset of the Orchestrator is the length of what precedes
    the chunk in the joined text. *)
Lemma chunk_offsets_exact (chunks : list str) : forall pre,
  Forall2 (fun c off => substring (pre ++ join PARAGRAPH_SEP chunks) off (List.length c) = c)
          chunks (chunk_offsets chunks (len pre)).
Proof.
  induction chunks as [|c chunks IH]; intros pre; [constructor|].
  cbn [chunk_offsets]. constructor.
  - unfold substring, len. rewrite Nat2Z.id, skipn_app, skipn_all, Nat.sub_diag.
    simpl skipn. cbn [app].
    destruct chunks as [|c2 chunks].
    + simpl. now rewrite firstn_all.
    + now rewrite firstn_app, firstn_all, Nat.sub_diag, firstn_O, app_nil_r.
  - destruct chunks as [|c2 chunks]; [constructor|].
    rewrite join_cons by discriminate.
    replace (len pre + len c + 2)%Z with (len (pre ++ c ++ PARAGRAPH_SEP)).
    + specialize (IH (pre ++ c ++ PARAGRAPH_SEP)).
      rewrite <- !app_assoc in IH. exact IH.
    + unfold len. rewrite !length_app. simpl. lia.
Qed.

(** C6 (as amended): when the text is the double-newline join of paragraphs
    that are not empty, carry no white space at their ends and no blank
    line inside, and fit the size limit, joining the chunks with the
    paragraph separator gives back the text, and each running offset of the
    Orchestrator (chunk lengths plus two per preceding chunk) is the exact
    position of its chunk in the text. *)
Theorem chunk_reconstruction (ps : list str) :
  ps <> [] ->
  Forall (fun p => clean_paragraph maxChunkSize p = true) ps ->
  let text := join PARAGRAPH_SEP ps in
  let chunks := splitIntoChunks text maxChunkSize in
  rejoin_chunks chunks = text
  /\ Forall2 (fun c off => substring text off (List.length c) = c)
             chunks (chunk_offsets chunks 0).
Proof.
  intros Hne Hall text chunks.
  assert (E : rejoin_chunks chunks = text).
  { subst chunks text. unfold splitIntoChunks, rejoin_chunks.
    rewrite split_paragraphs_join by assumption.
    destruct (paragraph_loop [] [] Hall) as (chunks' & cur' & E & Hc' & J);
      [discriminate|].
    unfold str in *. rewrite E, push_trimmed_pending by assumption. exact J. }
  split; [exact E|].
  pose proof (chunk_offsets_exact chunks []) as H.
  cbn [app] in H. unfold rejoin_chunks in E. rewrite E in H. exact H.
Qed.

End ChunkReconstruction.

Lemma chunk_reconstruction_witness :
  let ps := [js "In the name."; js "Praise be. Lord of all."; js "Amen"] in
  ps <> []
  /\ Forall (fun p => clean_paragraph 30 p = true) ps
  /\ splitIntoChunks (join PARAGRAPH_SEP ps) 30
     = [js "In the name."; js "Praise be. Lord of all." ++ [LF; LF] ++ js "Amen"]
  /\ rejoin_chunks (splitIntoChunks (join PARAGRAPH_SEP ps) 30) = join PARAGRAPH_SEP ps.
Proof.
  intros ps.
  assert (Hne : ps <> []) by discriminate.
  assert (Hall : Forall (fun p => clean_paragraph 30 p = true) ps)
    by (repeat constructor).
  split; [exact Hne|]. split; [exact Hall|]. split; [reflexivity|].
  exact (proj1 (@chunk_reconstruction 30 ps Hne Hall)).
Defined.

(** C6 (as stated) fails: a run of three line feeds between two paragraphs
    comes back as two, so the rejoined chunks are one character short. *)
Lemma chunk_reconstruction_fails :
  let text := js "a" ++ [LF; LF; LF] ++ js "b" in
  splitIntoChunks text 2000 = [js "a" ++ [LF; LF] ++ js "b"]
  /\ rejoin_chunks (splitIntoChunks text 2000) <> text.
Proof. split; [reflexivity|]. vm_compute. discriminate. Qed.

(** ** Annotation markers *)

Section MarkerRoundTrip.

(** The greedy group takes exactly the longest run of its class when the
    rest of the pattern matches after it. *)
Lemma plus_bt_greedy {R} (cls : char -> bool) (k : str -> str -> option R) (r : R)
      (cap : str) : forall acc rest,
  cap <> [] ->
  forallb cls cap = true ->
  match rest with [] => true | d :: _ => negb (cls d) end = true ->
  k (rev acc ++ cap) rest = Some r ->
  plus_bt cls (cap ++ rest) acc k = Some r.
Proof.
  induction cap as [|c cap IH]; intros acc rest Hne Hcls Hstop Hk; [congruence|].
  simpl in Hcls. apply andb_true_iff in Hcls as [Hc Hcls].
  cbn [app plus_bt]. rewrite Hc.
  destruct cap as [|c2 cap].
  - cbn [app]. simpl in Hk.
    assert (E : plus_bt cls rest (c :: acc) k = None).
    { destruct rest as [|d rest]; [reflexivity|].
      simpl. apply negb_true_iff in Hstop. now rewrite Hstop. }
    rewrite E. exact Hk.
  - rewrite (IH (c :: acc) rest); try assumption; [reflexivity|discriminate|].
    simpl. now rewrite <- app_assoc.
Qed.

Lemma truthy_nonempty (s : str) : truthy s = true -> s <> [].
Proof. now destruct s. Qed.

(** What follows the kind tag of a marker parses into key and label. *)
Lemma match_marker_body (key label : str) :
  truthy key = true -> free_of PIPE key = true ->
  truthy label = true -> free_of RBRACKET label = true ->
  match_here [CapturePlus (not_char PIPE); Lit (js "|");
              CapturePlus (not_char RBRACKET); Lit (js "]]")]
             (key ++ js "|" ++ label ++ js "]]")
  = Some [key; label].
Proof.
  intros Hk Hkp Hl Hlb.
  cbn [match_here].
  apply plus_bt_greedy; try assumption.
  - apply truthy_nonempty; exact Hk.
  - reflexivity.
  - cbn [rev app]. change (js "|") with [PIPE]. cbn [app prefixb List.length skipn].
    rewrite N.eqb_refl. cbn [andb].
    rewrite (@plus_bt_greedy _ (not_char RBRACKET) _ [label] label [] (js "]]"));
      try assumption; try reflexivity.
    apply truthy_nonempty; exact Hl.
Qed.

Lemma free_of_app (x : char) (a b : str) :
  free_of x (a ++ b) = free_of x a && free_of x b.
Proof. apply forallb_app. Qed.

(** The [quran] pattern needs an opening bracket to start. *)
Lemma regex_search_quran_no_open (s : str) :
  free_of LBRACKET s = true -> regex_search quran_re s = None.
Proof.
  induction s as [|c s IH]; intros H; [reflexivity|].
  simpl in H. apply andb_true_iff in H as [Hc Hs].
  unfold not_char in Hc. apply negb_true_iff in Hc.
  cbn [regex_search quran_re match_here].
  change (js "[[quran:") with (LBRACKET :: js "[quran:").
  cbn [prefixb]. rewrite N.eqb_sym, Hc. cbn [andb].
  now apply IH.
Qed.

Lemma regex_search_quran_hadith_tag (s : str) :
  regex_search quran_re (js "[[hadith:" ++ s) = regex_search quran_re s.
Proof. reflexivity. Qed.

Lemma prefixb_app (p s : str) : prefixb p (p ++ s) = true.
Proof.
  induction p as [|c p IH]; [reflexivity|].
  simpl. now rewrite N.eqb_refl, IH.
Qed.

Lemma match_here_lit (p : str) (re : list Atom) (s : str) :
  match_here (Lit p :: re) (p ++ s) = match_here re s.
Proof.
  cbn [match_here]. rewrite prefixb_app, skipn_app, skipn_all, Nat.sub_diag.
  reflexivity.
Qed.

Lemma regex_search_here (re : list Atom) (s : str) (caps : list str) :
  match_here re s = Some caps -> regex_search re s = Some caps.
Proof. intros H. destruct s; simpl; now rewrite H. Qed.

(** C8 (as amended): parsing the marker built for a match gives back its
    kind, reference key and label whenever the key is not empty and has no
    vertical bar, the label is not empty and has no closing bracket at all,
    and, for a tradition, neither of them has an opening bracket. *)
Theorem marker_round_trip (v : VerifiedMatch) (m : MatchResult) (key : str) :
  match_ v = Some m ->
  reference_id v = Some key ->
  truthy key = true -> free_of PIPE key = true ->
  truthy (original_text (detected v)) = true ->
  free_of RBRACKET (original_text (detected v)) = true ->
  (m_type m = hadith ->
   free_of LBRACKET key = true
   /\ free_of LBRACKET (original_text (detected v)) = true) ->
  parseAnnotation (createAnnotationMarkdown v)
  = Some {| p_type := m_type m; p_reference := key;
            p_display := original_text (detected v) |}.
Proof.
  intros Hm Hr Hk Hkp Hl Hlb Hh.
  unfold createAnnotationMarkdown. rewrite Hm, Hr, Hk.
  set (label := original_text (detected v)) in *.
  pose proof (match_marker_body key label Hk Hkp Hl Hlb) as Hbody.
  unfold parseAnnotation.
  destruct (m_type m) eqn:Ht.
  - rewrite (@regex_search_here quran_re _ [key; label]); [reflexivity|].
    unfold quran_re. now rewrite match_here_lit.
  - destruct (Hh eq_refl) as [Hko Hlo].
    rewrite regex_search_quran_hadith_tag, regex_search_quran_no_open.
    + rewrite (@regex_search_here hadith_re _ [key; label]); [reflexivity|].
      unfold hadith_re. now rewrite match_here_lit.
    + rewrite !free_of_app, Hko, Hlo. reflexivity.
Qed.

End MarkerRoundTrip.

Import Scenario ScenarioMatches.

Lemma marker_round_trip_witness :
  let m := tradition_result (js "bukhari") 1 1 (8 # 10) in
  let v := verified (js "Actions are judged by intentions") m (8 # 10) in
  createAnnotationMarkdown v = js "[[hadith:bukhari:1:1|Actions are judged by intentions]]"
  /\ parseAnnotation (createAnnotationMarkdown v)
     = Some {| p_type := hadith; p_reference := js "bukhari:1:1";
               p_display := js "Actions are judged by intentions" |}.
Proof.
  intros m v. split; [reflexivity|].
  apply (@marker_round_trip v m (js "bukhari:1:1")); try reflexivity.
  intros _. split; reflexivity.
Defined.

(** C8 (as stated) fails: a label with a single closing bracket does not
    contain the two-bracket sequence, and its marker does not parse. *)
Lemma marker_round_trip_fails :
  let v := verified (js "say [sic] it") (verse_result 2 255 (9 # 10)) (9 # 10) in
  indexOf (original_text (detected v)) (js "]]") = None
  /\ createAnnotationMarkdown v = js "[[quran:2:255|say [sic] it]]"
  /\ parseAnnotation (createAnnotationMarkdown v) = None.
Proof. repeat split. Qed.

(** ** Matcher/Verifier *)

Section MatcherProperties.

Variable svc : Services.

Lemma searchAll_run (q : str) (th : Q) (lim : Z) (t : Trace) :
  searchAll svc q th lim t = (stored svc q th lim t, after_search q th lim t).
Proof.
  unfold searchAll, stored, after_search, bind, promise_all2, call, ret.
  destruct (searchQuranVerses svc t q th lim);
    destruct (searchHadith svc (EvSearchQuran q th lim :: t) q th lim); reflexivity.
Qed.

(** [verifyMatch] makes exactly one call and never throws. *)
Lemma verifyMatch_run (d : DetectedReference) (ms : list MatchResult) (t : Trace) :
  verifyMatch svc d ms t = (Ok (verdict_of svc d ms t), EvVerify d ms :: t).
Proof.
  unfold verifyMatch, verdict_of, tryCatch, bind, call, ret, lift.
  destruct (verification_model svc t d ms) as [[c|]|]; try reflexivity.
  destruct (truthy c); [|reflexivity].
  destruct (parse_verification svc c); reflexivity.
Qed.

Lemma size_zero {A} (l : list A) : (size l =? 0)%Z = true <-> l = [].
Proof.
  unfold size. destruct l; simpl; split; try reflexivity; discriminate.
Qed.

(** Every run of [matchAndVerify], by what the Reference Store returned. *)
Lemma matchAndVerify_run (d : DetectedReference) (t : Trace) :
  let t1 := after_search (searchText d) (3 # 10) 5 t in
  matchAndVerify svc d t =
  match stored svc (searchText d) (3 # 10) 5 t with
  | Throw => (Ok (no_match d), t1)
  | Ok [] => (Ok (no_match d), t1)
  | Ok ms => (Ok (verified_from d ms (verdict_of svc d ms t1)), EvVerify d ms :: t1)
  end.
Proof.
  intros t1. unfold matchAndVerify, tryCatch.
  unfold bind at 1. fold (searchText d). rewrite searchAll_run. fold t1.
  destruct (stored svc (searchText d) (3 # 10) 5 t) as [ms|]; [|reflexivity].
  destruct ms as [|m ms]; [reflexivity|].
  change (size (m :: ms) =? 0)%Z with false. cbv iota.
  unfold bind. rewrite verifyMatch_run. unfold verified_from.
  destruct (match_index (verdict_of svc d (m :: ms) t1)) as [i|]; [|reflexivity].
  destruct (index (m :: ms) i); reflexivity.
Qed.

Lemma matchAndVerify_total (d : DetectedReference) (t : Trace) :
  exists v t', matchAndVerify svc d t = (Ok v, t').
Proof.
  rewrite matchAndVerify_run.
  destruct (stored svc (searchText d) (3 # 10) 5 t) as [[|m ms]|]; eauto.
Qed.

Lemma verified_from_detected d ms vr : detected (verified_from d ms vr) = d.
Proof.
  unfold verified_from.
  destruct (match_index vr); [destruct (index ms z)|]; reflexivity.
Qed.

Lemma verified_from_well_formed d ms vr : well_formed (verified_from d ms vr).
Proof.
  unfold verified_from, well_formed.
  destruct (match_index vr); [destruct (index ms z)|]; reflexivity.
Qed.

Lemma matchAndVerify_shape (d : DetectedReference) (t : Trace) v t' :
  matchAndVerify svc d t = (Ok v, t') -> detected v = d /\ well_formed v.
Proof.
  rewrite matchAndVerify_run.
  destruct (stored svc (searchText d) (3 # 10) 5 t) as [[|m ms]|];
    intros E; inversion E; subst; clear E;
    try (split; reflexivity).
  split; [apply verified_from_detected|apply verified_from_well_formed].
Qed.

(** The verification loop of the Orchestrator never throws and keeps one
    result per candidate, in order. *)
Lemma verify_loop_total (ds : list DetectedReference) : forall t,
  exists vs t',
    mapM (matchAndVerify svc) ds t = (Ok vs, t')
    /\ Forall2 (fun d v => detected v = d /\ well_formed v) ds vs.
Proof.
  induction ds as [|d ds IH]; intros t.
  - exists [], t. split; [reflexivity|constructor].
  - destruct (matchAndVerify_total d t) as (v & t1 & E).
    destruct (IH t1) as (vs & t2 & Evs & Hall).
    exists (v :: vs), t2. split.
    + cbn [mapM]. unfold bind at 1. rewrite E. unfold bind at 1. rewrite Evs.
      reflexivity.
    + constructor; [|assumption]. eapply matchAndVerify_shape; eassumption.
Qed.

Lemma verify_loop_app (ds1 ds2 : list DetectedReference) : forall t vs1 t1 vs2 t2,
  mapM (matchAndVerify svc) ds1 t = (Ok vs1, t1) ->
  mapM (matchAndVerify svc) ds2 t1 = (Ok vs2, t2) ->
  mapM (matchAndVerify svc) (ds1 ++ ds2) t = (Ok (vs1 ++ vs2), t2).
Proof.
  induction ds1 as [|d ds1 IH]; intros t vs1 t1 vs2 t2 E1 E2.
  - inversion E1; subst. exact E2.
  - cbn [mapM app] in *. unfold bind at 1 in E1. unfold bind at 1.
    destruct (matchAndVerify svc d t) as [[v|] t0]; [|discriminate].
    unfold bind at 1 in E1. unfold bind at 1.
    destruct (mapM (matchAndVerify svc) ds1 t0) as [[vs|] t0'] eqn:E0;
      [|discriminate].
    inversion E1; subst.
    now rewrite (IH _ _ _ _ _ E0 E2).
Qed.

Lemma matchAndVerify_failure (d : DetectedReference) (t : Trace) :
  verification_fails svc d t -> fst (matchAndVerify svc d t) = Ok (no_match d).
Proof.
  intros H. rewrite matchAndVerify_run.
  destruct H as [H|(ms & t1 & Hs & Hne & H)]; rewrite searchAll_run in *.
  - cbn [fst] in H. now rewrite H.
  - inversion Hs as [[Hst Ht1]]. rewrite Hst, Ht1.
    destruct ms as [|m ms]; [congruence|].
    cbn [fst]. f_equal. unfold verified_from, verdict_of.
    destruct H as [H|(c & Hc & Ht & Hp)].
    + now rewrite H.
    + now rewrite Hc, Ht, Hp.
Qed.

(** An index outside the results makes [createReferenceId] fail on
    [undefined]; the failure is caught like any other. *)
Lemma verified_from_out_of_range (d : DetectedReference)
      (ms : list MatchResult) (vr : Verification) (i : Z) :
  match_index vr = Some i -> index ms i = None ->
  verified_from d ms vr = no_match d.
Proof.
  intros Hi Hn. unfold verified_from. now rewrite Hi, Hn.
Qed.

(** C7: [matchAndVerify] always returns a Verified Match and never throws;
    when the embedding service or the vector index fails, when the
    adjudication call fails, or when its output cannot be parsed, that match
    has no entry and confidence 0; and in the Orchestrator's loop a
    candidate in any position gets its own result while the candidates
    before and after it are processed as the loop processes them alone. *)
Theorem matchAndVerify_never_aborts :
  (forall d t, exists v t', matchAndVerify svc d t = (Ok v, t'))
  /\ (forall d t, verification_fails svc d t ->
                  fst (matchAndVerify svc d t) = Ok (no_match d))
  /\ (forall ds1 d ds2 t,
        exists vs1 t1 v t2 vs2 t3,
          mapM (matchAndVerify svc) ds1 t = (Ok vs1, t1)
          /\ matchAndVerify svc d t1 = (Ok v, t2)
          /\ mapM (matchAndVerify svc) ds2 t2 = (Ok vs2, t3)
          /\ mapM (matchAndVerify svc) (ds1 ++ d :: ds2) t = (Ok (vs1 ++ v :: vs2), t3)
          /\ (verification_fails svc d t1 -> v = no_match d)).
Proof.
  split; [exact matchAndVerify_total|]. split; [exact matchAndVerify_failure|].
  intros ds1 d ds2 t.
  destruct (verify_loop_total ds1 t) as (vs1 & t1 & E1 & _).
  destruct (matchAndVerify_total d t1) as (v & t2 & Ev).
  destruct (verify_loop_total ds2 t2) as (vs2 & t3 & E2 & _).
  exists vs1, t1, v, t2, vs2, t3. repeat split; try assumption.
  - apply (verify_loop_app ds1 (d :: ds2) t E1).
    cbn [mapM]. unfold bind at 1. rewrite Ev. unfold bind at 1. now rewrite E2.
  - intros Hf. apply matchAndVerify_failure in Hf. rewrite Ev in Hf.
    now inversion Hf.
Qed.

(** C3 (as amended): for every candidate with at least one Reference Store
    result, [matchAndVerify] makes the adjudication call, exactly once and
    on all the results returned, whatever the top score and the gap to the
    second score are; the call is skipped only when the Reference Store
    returns nothing. *)
Theorem adjudication_always_invoked (d : DetectedReference) (t t1 : Trace)
        (ms : list MatchResult) :
  searchAll svc (searchText d) (3 # 10) 5 t = (Ok ms, t1) ->
  (ms <> [] ->
   exists vr,
     verifyMatch svc d ms t1 = (Ok vr, EvVerify d ms :: t1)
     /\ matchAndVerify svc d t = (Ok (verified_from d ms vr), EvVerify d ms :: t1))
  /\ (ms = [] -> matchAndVerify svc d t = (Ok (no_match d), t1)).
Proof.
  rewrite searchAll_run. intros Hs. inversion Hs as [[Hst Ht1]]. clear Hs.
  rewrite matchAndVerify_run, Hst, Ht1.
  split; intros H.
  - exists (verdict_of svc d ms t1). rewrite verifyMatch_run.
    destruct ms; [congruence|split; reflexivity].
  - now subst ms.
Qed.

(** C4 (as amended): the confidence of a Verified Match with an entry is
    the confidence value that the adjudication reported in its answer, and
    the entry is the one at the index the adjudication chose among the
    results of the Reference Store. *)
Theorem confidence_is_adjudicated (d : DetectedReference) (t t' : Trace)
        (v : VerifiedMatch) (m : MatchResult) :
  matchAndVerify svc d t = (Ok v, t') ->
  match_ v = Some m ->
  exists ms t1 c vr i,
    searchAll svc (searchText d) (3 # 10) 5 t = (Ok ms, t1)
    /\ verification_model svc t1 d ms = Ok (Some c)
    /\ parse_verification svc c = Ok vr
    /\ match_index vr = Some i
    /\ index ms i = Some m
    /\ confidence v = v_confidence vr
    /\ reference_id v = Some (createReferenceId m).
Proof.
  rewrite matchAndVerify_run.
  destruct (stored svc (searchText d) (3 # 10) 5 t) as [[|m0 ms]|] eqn:Es;
    intros E Hm; inversion E; subst; clear E; try discriminate Hm.
  set (t1 := after_search (searchText d) (3 # 10) 5 t) in *.
  unfold verified_from, verdict_of in Hm |- *.
  destruct (verification_model svc t1 d (m0 :: ms)) as [[c|]|] eqn:Ec;
    try discriminate Hm.
  destruct (truthy c); [|discriminate Hm].
  destruct (parse_verification svc c) as [vr|] eqn:Ep; [|discriminate Hm].
  destruct (match_index vr) as [i|] eqn:Ei; [|discriminate Hm].
  destruct (index (m0 :: ms) i) as [b|] eqn:Eb; [|discriminate Hm].
  simpl in Hm. inversion Hm; subst b.
  exists (m0 :: ms), t1, c, vr, i. rewrite searchAll_run, Es.
  repeat split; assumption || reflexivity.
Qed.

End MatcherProperties.

Lemma matchAndVerify_never_aborts_witness :
  let d := candidate (js "x marks the spot") 0 16 in
  verification_fails flaky_services d []
  /\ fst (matchAndVerify flaky_services d []) = Ok (no_match d)
  /\ fst (mapM (matchAndVerify flaky_services)
               [candidate (js "a") 0 1; d; candidate (js "b") 2 3] [])
     = Ok [verified_from (candidate (js "a") 0 1) [verse_result 2 255 (8 # 10)]
                         (verdict (Some 0%Z) (8 # 10));
           no_match d;
           verified_from (candidate (js "b") 2 3) [verse_result 2 255 (8 # 10)]
                         (verdict (Some 0%Z) (8 # 10))].
Proof.
  intros d.
  assert (Hf : verification_fails flaky_services d []) by (left; reflexivity).
  split; [exact Hf|]. split; [|reflexivity].
  exact (proj1 (proj2 (matchAndVerify_never_aborts flaky_services)) d [] Hf).
Defined.

Lemma adjudication_always_invoked_witness :
  let d := candidate scenarioA_literal 9 34 in
  let ms := [verse_result 2 255 (9 # 10)] in
  let t1 := [EvSearchHadith (searchText d) (3 # 10) 5;
             EvSearchQuran (searchText d) (3 # 10) 5] in
  searchAll clear_winner_services (searchText d) (3 # 10) 5 [] = (Ok ms, t1)
  /\ ms <> []
  /\ snd (matchAndVerify clear_winner_services d []) = EvVerify d ms :: t1.
Proof.
  intros d ms t1.
  assert (Hs : searchAll clear_winner_services (searchText d) (3 # 10) 5 []
               = (Ok ms, t1)) by reflexivity.
  assert (Hne : ms <> []) by discriminate.
  split; [exact Hs|]. split; [exact Hne|].
  destruct (proj1 (@adjudication_always_invoked clear_winner_services d [] t1 ms Hs) Hne)
    as (vr & _ & E).
  now rewrite E.
Defined.

(** C3 (as stated) fails: with a single result of score 0.9, well above
    0.55, the adjudication call is still made, and since it answers "no
    match" the top candidate is not accepted. *)
Lemma adjudication_not_skipped :
  let d := candidate scenarioA_literal 9 34 in
  let ms := [verse_result 2 255 (9 # 10)] in
  fst (searchAll clear_winner_services (searchText d) (3 # 10) 5 []) = Ok ms
  /\ (55 # 100 <= 9 # 10)%Q
  /\ In (EvVerify d ms) (snd (matchAndVerify clear_winner_services d []))
  /\ fst (matchAndVerify clear_winner_services d [])
     = Ok {| detected := d; match_ := None; confidence := 9 # 10;
             reference_id := None |}.
Proof.
  intros d ms. split; [reflexivity|]. split; [discriminate|].
  split; [left; reflexivity|reflexivity].
Qed.

Lemma confidence_is_adjudicated_witness :
  let d := candidate scenarioA_literal 9 34 in
  exists v t',
    matchAndVerify scenarioD_services d [] = (Ok v, t')
    /\ match_ v = Some (verse_result 3 2 (50 # 100))
    /\ confidence v = 9 # 10.
Proof.
  intros d.
  destruct (matchAndVerify scenarioD_services d []) as [r t'] eqn:E.
  assert (Er : r = Ok (verified_from d [verse_result 2 255 (52 # 100);
                                        verse_result 3 2 (50 # 100)]
                                     (verdict (Some 1%Z) (9 # 10))))
    by (now inversion E).
  subst r. eexists; exists t'. split; [reflexivity|]. split; [reflexivity|].
  destruct (@confidence_is_adjudicated scenarioD_services d [] t' _ _ E eq_refl)
    as (ms & t1 & c & vr & i & _ & _ & Hp & _ & _ & Hc & _).
  rewrite Hc. now inversion Hp.
Defined.

(** C4 (as stated) fails: in Scenario D the adjudication picks the second
    candidate and reports 0.9; the Verified Match carries 0.9, which is
    neither that entry's similarity 0.50 nor the top similarity 0.52. *)
Lemma confidence_not_similarity :
  let d := candidate scenarioA_literal 9 34 in
  let v := verified_from d [verse_result 2 255 (52 # 100); verse_result 3 2 (50 # 100)]
                         (verdict (Some 1%Z) (9 # 10)) in
  fst (matchAndVerify scenarioD_services d []) = Ok v
  /\ match_ v = Some (verse_result 3 2 (50 # 100))
  /\ ~ (confidence v == 50 # 100)%Q
  /\ ~ (confidence v == 52 # 100)%Q.
Proof.
  intros d v. split; [reflexivity|]. split; [reflexivity|].
  split; intros H; discriminate H.
Qed.

(** ** Pipeline Orchestrator *)

Section SortFacts.

Context {A : Type} (le : A -> A -> bool).

Lemma insert_sorted_in (x y : A) (l : list A) :
  In y (insert_sorted le x l) <-> y = x \/ In y l.
Proof.
  induction l as [|z l IH]; simpl.
  - intuition congruence.
  - destruct (le x z); simpl; [intuition congruence|].
    rewrite IH. intuition congruence.
Qed.

Lemma sort_in (y : A) (l : list A) : In y (JsArray.sort le l) <-> In y l.
Proof.
  induction l as [|x l IH]; simpl; [reflexivity|].
  rewrite insert_sorted_in, IH. intuition congruence.
Qed.

Lemma insert_sorted_length (x : A) (l : list A) :
  List.length (insert_sorted le x l) = S (List.length l).
Proof.
  induction l as [|z l IH]; simpl; [reflexivity|].
  destruct (le x z); simpl; [reflexivity|now rewrite IH].
Qed.

Lemma sort_length (l : list A) : List.length (JsArray.sort le l) = List.length l.
Proof.
  induction l as [|x l IH]; simpl; [reflexivity|].
  now rewrite insert_sorted_length, IH.
Qed.

Lemma sort_Forall (P : A -> Prop) (l : list A) :
  Forall P l -> Forall P (JsArray.sort le l).
Proof.
  rewrite !Forall_forall. intros H x Hx. apply H. now apply sort_in.
Qed.

End SortFacts.

Lemma filter_all {A} (f : A -> bool) (l : list A) :
  Forall (fun x => f x = true) l -> List.filter f l = l.
Proof.
  induction 1 as [|x l Hx _ IH]; simpl; [reflexivity|]. now rewrite Hx, IH.
Qed.

Lemma truthy_app_r (a b : str) : truthy b = true -> truthy (a ++ b) = true.
Proof. destruct a; simpl; [trivial|reflexivity]. Qed.

(** A reference key is never empty: it always has a colon. *)
Lemma createReferenceId_truthy (m : MatchResult) : truthy (createReferenceId m) = true.
Proof.
  unfold createReferenceId.
  destruct (m_type m), (reference m); try reflexivity; now apply truthy_app_r.
Qed.

Lemma accepted_annotatable (v : VerifiedMatch) :
  well_formed v -> accepted v = true -> annotatable v = true.
Proof.
  unfold well_formed, accepted, annotatable. intros Hw Ha.
  apply andb_true_iff in Ha as [_ Ha].
  destruct (match_ v) as [m|]; [|discriminate].
  rewrite Hw. apply createReferenceId_truthy.
Qed.

Lemma sortedMatches_in (v : VerifiedMatch) (vs : list VerifiedMatch) :
  In v (sortedMatches vs) <-> In v vs /\ accepted v = true.
Proof. unfold sortedMatches. now rewrite sort_in, filter_In. Qed.

Section OrchestratorProperties.

Variable svc : Services.

Lemma detectReferences_total (chunk : str) (t : Trace) :
  exists raws, detectReferences svc chunk t = (Ok raws, EvDetect chunk :: t).
Proof.
  unfold detectReferences, tryCatch, bind, call, ret, lift.
  destruct (detection_model svc t chunk) as [[c|]|]; eauto.
  destruct (truthy c); eauto.
  destruct (parse_detections svc c) as [[ds|]|]; eauto.
Qed.

(** The detection loop never throws, and every candidate it collects is a
    report of the Detector rebased by the running offset of its chunk. *)
Lemma detect_chunks_run (chunks : list str) : forall off t,
  exists ds t',
    detect_chunks svc chunks off t = (Ok ds, t')
    /\ Forall (fun d => exists chunk off' t0 raws t0' raw,
                   In (chunk, off') (combine chunks (chunk_offsets chunks off))
                   /\ detectReferences svc chunk t0 = (Ok raws, t0')
                   /\ In raw raws
                   /\ d = rebase off' raw) ds.
Proof.
  induction chunks as [|chunk chunks IH]; intros off t.
  - exists [], t. split; [reflexivity|constructor].
  - destruct (detectReferences_total chunk t) as (raws & E).
    destruct (IH (off + len chunk + 2)%Z (EvDetect chunk :: t)) as (more & t' & Em & Hm).
    exists (List.map (rebase off) raws ++ more), t'. split.
    + cbn [detect_chunks]. unfold bind at 1. rewrite E.
      unfold bind at 1. rewrite Em. reflexivity.
    + apply Forall_app. split.
      * apply Forall_forall. intros d Hd.
        apply in_map_iff in Hd as (raw & <- & Hraw).
        exists chunk, off, t, raws, (EvDetect chunk :: t), raw.
        repeat split; try assumption. now left.
      * eapply Forall_impl; [|exact Hm].
        intros d (c & o & t0 & rs & t0' & raw & Hin & Hd & Hr & ->).
        exists c, o, t0, rs, t0', raw. repeat split; try assumption. now right.
Qed.

(** Steps 1 to 3 seen from their result. *)
Lemma detect_and_verify_ok (transcriptId text : str) (t t1 : Trace) ds vs :
  detect_and_verify svc transcriptId text t = (Ok (ds, vs), t1) ->
  Forall (from_detector svc (splitIntoChunks text 2000)) ds
  /\ Forall2 (fun d v => detected v = d /\ well_formed v) ds vs.
Proof.
  unfold detect_and_verify, db, bind at 1, call.
  destruct (db_write svc t (EvUpdateStatus transcriptId processing)); [|discriminate].
  destruct (detect_chunks_run (splitIntoChunks text 2000) 0
                              (EvUpdateStatus transcriptId processing :: t))
    as (ds0 & t0 & Ed & Hd).
  unfold bind at 1. rewrite Ed.
  destruct (verify_loop_total svc ds0 t0) as (vs0 & t0' & Ev & Hv).
  unfold bind at 1. rewrite Ev. unfold ret. intros E. inversion E; subst.
  split; assumption.
Qed.

Lemma annotate_step_skip (transcriptId : str) st v t :
  annotatable v = false -> annotate_step svc transcriptId st v t = (Ok st, t).
Proof.
  unfold annotatable, annotate_step. intros H.
  destruct (match_ v); [|reflexivity].
  destruct (reference_id v); [|reflexivity].
  now rewrite H.
Qed.

Lemma annotate_step_record (transcriptId : str) st v m rid t :
  match_ v = Some m -> reference_id v = Some rid -> truthy rid = true ->
  annotate_step svc transcriptId st v t
  = (Ok {| st_annotations :=
             st_annotations st ++ [annotation_of transcriptId (uuidv4 svc t) v m rid];
           st_quran_matches :=
             match m_type m with
             | quran => st_quran_matches st + 1
             | hadith => st_quran_matches st
             end;
           st_hadith_matches :=
             match m_type m with
             | quran => st_hadith_matches st
             | hadith => st_hadith_matches st + 1
             end;
           st_annotatedText :=
             place svc (st_annotatedText st) (original_text (detected v))
                   (createAnnotationMarkdown v) |},
     EvUuid :: t).
Proof.
  intros Hm Hr Ht. unfold annotate_step. rewrite Hm, Hr, Ht. reflexivity.
Qed.

Lemma annotation_of_records (transcriptId id : str) v m rid :
  match_ v = Some m -> reference_id v = Some rid ->
  records transcriptId (annotation_of transcriptId id v m rid) v.
Proof. intros Hm Hr. exists m. repeat split; assumption. Qed.

(** The annotation loop never throws; it appends one annotation per
    recordable match, in order, and counts each of them once. *)
Lemma annotate_loop (transcriptId : str) (vs : list VerifiedMatch) : forall st t,
  exists st' t' anns,
    foldM (annotate_step svc transcriptId) vs st t = (Ok st', t')
    /\ st_annotations st' = st_annotations st ++ anns
    /\ Forall2 (records transcriptId) anns (List.filter annotatable vs)
    /\ (st_quran_matches st' + st_hadith_matches st'
        = st_quran_matches st + st_hadith_matches st + size anns)%Z.
Proof.
  induction vs as [|v vs IH]; intros st t.
  - exists st, t, []. cbn. rewrite app_nil_r. repeat split; [constructor|lia].
  - cbn [foldM List.filter]. unfold bind.
    destruct (annotatable v) eqn:Ea.
    + unfold annotatable in Ea.
      destruct (match_ v) as [m|] eqn:Hm; [|discriminate].
      destruct (reference_id v) as [rid|] eqn:Hr; [|discriminate].
      rewrite (annotate_step_record transcriptId st v t Hm Hr Ea).
      match goal with |- context [foldM _ vs ?s ?u] =>
        destruct (IH s u) as (st' & t' & anns & E & Ha & Hf & Hc) end.
      exists st', t', (annotation_of transcriptId (uuidv4 svc t) v m rid :: anns).
      cbn [st_annotations st_quran_matches st_hadith_matches] in Ha, Hc.
      repeat split.
      * exact E.
      * now rewrite Ha, <- app_assoc.
      * constructor; [now apply annotation_of_records|exact Hf].
      * unfold size in *. cbn [List.length]. destruct (m_type m); lia.
    + rewrite (annotate_step_skip transcriptId st v t Ea). apply IH.
Qed.

(** A run that returns went through every stage, and its last calls are
    the two writes of step 5. *)
Lemma processTranscript_ok (transcriptId text : str) (t t' : Trace) res :
  processTranscript svc transcriptId text t = (Ok res, t') ->
  exists ds vs t1 st t2,
    detect_and_verify svc transcriptId text t = (Ok (ds, vs), t1)
    /\ foldM (annotate_step svc transcriptId) (sortedMatches vs)
             (initial_state text) t1 = (Ok st, t2)
    /\ res = {| annotated_text := st_annotatedText st;
                annotations := st_annotations st;
                stats := {| total_detected := size ds;
                            quran_matches := st_quran_matches st;
                            hadith_matches := st_hadith_matches st;
                            low_confidence_skipped :=
                              size (List.filter low_confidence vs) |} |}
    /\ t' = final_writes transcriptId (st_annotations st) (st_annotatedText st) ++ t2.
Proof.
  unfold processTranscript, tryCatch. unfold bind at 1.
  destruct (detect_and_verify svc transcriptId text t) as [[[ds vs]|] t1] eqn:Edv.
  2:{ unfold bind, db, call, throw.
      destruct (db_write svc t1 (EvUpdateStatus transcriptId error)); discriminate. }
  cbn [fst snd]. unfold annotate_and_save. unfold bind at 1.
  fold (initial_state text).
  destruct (annotate_loop transcriptId (sortedMatches vs) (initial_state text) t1)
    as (st & t2 & anns & Ef & _).
  rewrite Ef. unfold final_writes.
  unfold bind, db, call, ret, throw.
  destruct (db_write svc t2 (EvSaveAnnotated transcriptId (st_annotatedText st) complete)).
  2:{ destruct (db_write svc _ (EvUpdateStatus transcriptId error)); discriminate. }
  destruct (size (st_annotations st) >? 0)%Z eqn:Esz.
  - destruct (db_write svc _ (EvInsertAnnotations (st_annotations st))).
    + intros E. inversion E; subst. exists ds, vs, t1, st, t2.
      repeat split; try assumption. now rewrite Esz.
    + destruct (db_write svc _ (EvUpdateStatus transcriptId error)); discriminate.
  - intros E. inversion E; subst. exists ds, vs, t1, st, t2.
    repeat split; try assumption. now rewrite Esz.
Qed.

(** The annotations of a run are recorded, in order, from the accepted
    matches sorted for placement. *)
Lemma run_annotations (transcriptId text : str) (t t1 t2 : Trace) ds vs st :
  detect_and_verify svc transcriptId text t = (Ok (ds, vs), t1) ->
  foldM (annotate_step svc transcriptId) (sortedMatches vs)
        (initial_state text) t1 = (Ok st, t2) ->
  Forall2 (records transcriptId) (st_annotations st) (sortedMatches vs).
Proof.
  intros Edv Ef.
  destruct (detect_and_verify_ok _ _ _ Edv) as [_ Hv].
  destruct (annotate_loop transcriptId (sortedMatches vs) (initial_state text) t1)
    as (st' & t' & anns & E & Ha & Hf & _).
  rewrite Ef in E. inversion E; subst st' t'. clear E.
  cbn in Ha. rewrite Ha.
  rewrite filter_all in Hf; [exact Hf|].
  apply Forall_forall. intros v Hv'.
  apply sortedMatches_in in Hv' as [Hin Hacc].
  apply accepted_annotatable; [|exact Hacc].
  clear - Hv Hin. induction Hv as [|d v' ds vs [_ Hw] _ IH]; [contradiction|].
  destruct Hin as [<-|Hin]; auto.
Qed.

Lemma run_counts (transcriptId text : str) (t1 t2 : Trace) vs st :
  foldM (annotate_step svc transcriptId) (sortedMatches vs)
        (initial_state text) t1 = (Ok st, t2) ->
  (st_quran_matches st + st_hadith_matches st = size (st_annotations st))%Z.
Proof.
  intros Ef.
  destruct (annotate_loop transcriptId (sortedMatches vs) (initial_state text) t1)
    as (st' & t' & anns & E & Ha & _ & Hc).
  rewrite Ef in E. inversion E; subst st' t'. cbn in Ha, Hc. rewrite Ha. lia.
Qed.

(** A run returns as soon as the persistence collaborator accepts its
    writes. *)
Lemma run_completes (transcriptId text : str) (t : Trace) :
  (forall u ev, db_write svc u ev = Ok tt) ->
  exists res t', processTranscript svc transcriptId text t = (Ok res, t').
Proof.
  intros Hdb.
  unfold processTranscript, tryCatch, detect_and_verify, db, call.
  unfold bind at 1. unfold bind at 1. rewrite Hdb.
  destruct (detect_chunks_run (splitIntoChunks text 2000) 0
                              (EvUpdateStatus transcriptId processing :: t))
    as (ds & t0 & Ed & _).
  unfold bind at 1. rewrite Ed.
  destruct (verify_loop_total svc ds t0) as (vs & t1 & Ev & _).
  unfold bind at 1. rewrite Ev. unfold ret at 1. cbn [fst snd].
  unfold annotate_and_save. fold (initial_state text).
  destruct (annotate_loop transcriptId (sortedMatches vs) (initial_state text) t1)
    as (st & t2 & anns & Ef & _).
  unfold bind at 1. rewrite Ef. unfold bind, db, call, ret. rewrite Hdb.
  destruct (size (st_annotations st) >? 0)%Z; [rewrite Hdb|]; eauto.
Qed.

Lemma Forall2_in_r {A B} (R : A -> B -> Prop) (l : list A) (l' : list B) (y : B) :
  Forall2 R l l' -> In y l' -> exists x, In x l /\ R x y.
Proof.
  induction 1 as [|a b l l' Hab _ IH]; [contradiction|].
  intros [<-|Hin].
  - exists a. split; [now left|assumption].
  - destruct (IH Hin) as (x & Hx & Hr). exists x. split; [now right|assumption].
Qed.

Lemma Forall2_strengthen {A B} (R : A -> B -> Prop) (P : B -> Prop)
      (l : list A) (l' : list B) :
  Forall2 R l l' -> Forall P l' -> Forall2 (fun a b => R a b /\ P b) l l'.
Proof.
  induction 1 as [|a b l l' Hab _ IH]; intros HP; [constructor|].
  inversion HP; subst. constructor; auto.
Qed.

Lemma Forall2_size {A B} (R : A -> B -> Prop) (l : list A) (l' : list B) :
  Forall2 R l l' -> size l = size l'.
Proof. intros H. unfold size. now rewrite (Forall2_length H). Qed.

(** C5: every annotation a run returns has a confidence of at least 0.5
    and was recorded from a Verified Match of that run that has a matched
    entry, and the rows the run inserts are exactly those annotations. *)
Theorem confidence_gate (transcriptId text : str) (t t' : Trace) res :
  processTranscript svc transcriptId text t = (Ok res, t') ->
  Forall (fun a => (CONFIDENCE_AUTO_ANNOTATE <= a_confidence a)%Q) (annotations res)
  /\ (exists ds vs t1,
        detect_and_verify svc transcriptId text t = (Ok (ds, vs), t1)
        /\ Forall (fun a => exists v m,
                       In v vs /\ match_ v = Some m /\ records transcriptId a v)
                  (annotations res))
  /\ exists t2,
       t' = final_writes transcriptId (annotations res) (annotated_text res) ++ t2.
Proof.
  intros Hrun.
  destruct (processTranscript_ok _ _ _ Hrun)
    as (ds & vs & t1 & st & t2 & Edv & Ef & -> & ->).
  pose proof (run_annotations _ _ _ Edv Ef) as Hrec. cbn [annotations annotated_text].
  assert (Hsrc : Forall (fun a => exists v, In v (sortedMatches vs)
                                            /\ records transcriptId a v)
                        (st_annotations st)).
  { clear - Hrec. induction Hrec as [|a v l l' Hav _ IH]; constructor.
    - exists v. split; [now left|assumption].
    - eapply Forall_impl; [|exact IH]. intros a' (v' & Hin & Hr).
      exists v'. split; [now right|assumption]. }
  split; [|split].
  - eapply Forall_impl; [|exact Hsrc]. intros a (v & Hin & Hr).
    apply sortedMatches_in in Hin as [_ Hacc].
    unfold accepted in Hacc. apply andb_true_iff in Hacc as [Hc _].
    apply Qle_bool_iff in Hc.
    destruct Hr as (m & _ & _ & _ & _ & _ & _ & -> & _). exact Hc.
  - exists ds, vs, t1. split; [exact Edv|].
    eapply Forall_impl; [|exact Hsrc]. intros a (v & Hin & Hr).
    apply sortedMatches_in in Hin as [Hin _].
    pose proof Hr as (m & Hm & _). exists v, m. repeat split; assumption.
  - exists t2. reflexivity.
Qed.

(** C1 (as amended): the start and end offsets of every annotation a run
    returns are the advisory offsets of its candidate, that is the offsets
    the Detector reported for it rebased by the running offset of its
    chunk; the position at which the marker is placed is not recorded. *)
Theorem annotation_offsets_advisory (transcriptId text : str) (t t' : Trace) res :
  processTranscript svc transcriptId text t = (Ok res, t') ->
  exists ds vs t1,
    detect_and_verify svc transcriptId text t = (Ok (ds, vs), t1)
    /\ Forall2 (fun a v =>
                  a_start_index a = start_index (detected v)
                  /\ a_end_index a = end_index (detected v)
                  /\ from_detector svc (splitIntoChunks text 2000) (detected v))
               (annotations res) (sortedMatches vs).
Proof.
  intros Hrun.
  destruct (processTranscript_ok _ _ _ Hrun)
    as (ds & vs & t1 & st & t2 & Edv & Ef & -> & ->).
  exists ds, vs, t1. split; [exact Edv|]. cbn [annotations].
  pose proof (run_annotations _ _ _ Edv Ef) as Hrec.
  destruct (detect_and_verify_ok _ _ _ Edv) as [Hds Hvs].
  assert (Hfrom : Forall (fun v => from_detector svc (splitIntoChunks text 2000)
                                                 (detected v))
                         (sortedMatches vs)).
  { apply Forall_forall. intros v Hin. apply sortedMatches_in in Hin as [Hin _].
    destruct (@Forall2_in_r _ _ _ _ _ v Hvs Hin) as (d & Hd & <- & _).
    rewrite Forall_forall in Hds. now apply Hds. }
  eapply Forall2_impl; [|exact (@Forall2_strengthen _ _ _ _ _ _ Hrec Hfrom)].
  intros a v [(m & _ & _ & _ & _ & _ & _ & _ & Hs & He) Hf]. auto.
Qed.

(** The annotation loop counts every annotation it appends in the counter
    of its kind, and in no other. *)
Lemma annotate_loop_kinds (transcriptId : str) (vs : list VerifiedMatch) :
  forall st t st' t',
    foldM (annotate_step svc transcriptId) vs st t = (Ok st', t') ->
    exists anns,
      st_annotations st' = st_annotations st ++ anns
      /\ (st_quran_matches st'
          = st_quran_matches st
            + size (List.filter (fun a => is_quran (a_type a)) anns))%Z
      /\ (st_hadith_matches st'
          = st_hadith_matches st
            + size (List.filter (fun a => negb (is_quran (a_type a))) anns))%Z.
Proof.
  induction vs as [|v vs IH]; intros st t st' t' E.
  - cbn in E. inversion E; subst. exists []. cbn. rewrite app_nil_r.
    repeat split; lia.
  - cbn [foldM] in E. unfold bind in E.
    destruct (annotatable v) eqn:Ea.
    + unfold annotatable in Ea.
      destruct (match_ v) as [m|] eqn:Hm; [|discriminate].
      destruct (reference_id v) as [rid|] eqn:Hr; [|discriminate].
      rewrite (@annotate_step_record transcriptId st v m rid t Hm Hr Ea) in E.
      destruct (IH _ _ _ _ E) as (anns & Ha & Hq & Hh).
      cbn [st_annotations st_quran_matches st_hadith_matches] in Ha, Hq, Hh.
      exists (annotation_of transcriptId (uuidv4 svc t) v m rid :: anns).
      split; [now rewrite Ha, <- app_assoc|].
      cbn [List.filter annotation_of a_type]. unfold size in *.
      destruct (m_type m); cbn [is_quran negb List.length]; split; lia.
    + rewrite (@annotate_step_skip transcriptId st v t Ea) in E. exact (IH _ _ _ _ E).
Qed.

(** C2 (as amended): when the literal text of an accepted match is not
    found, the working document is left as it is, but the match is still
    counted, in the counter of its kind and in no other, and its annotation
    is still appended; and a run inserts all the annotations it appended, one
    per accepted match, placed or not, and reports for each kind the number
    of the annotations of that kind. *)
Theorem unplaced_match_recorded (transcriptId : str) :
  (forall st v m rid t,
      match_ v = Some m -> reference_id v = Some rid -> truthy rid = true ->
      indexOf (toLowerCase svc (st_annotatedText st))
              (toLowerCase svc (original_text (detected v))) = None ->
      exists st' a,
        annotate_step svc transcriptId st v t = (Ok st', EvUuid :: t)
        /\ st_annotatedText st' = st_annotatedText st
        /\ st_annotations st' = st_annotations st ++ [a]
        /\ records transcriptId a v
        /\ (st_quran_matches st' = st_quran_matches st + fst (counted_as (m_type m)))%Z
        /\ (st_hadith_matches st' = st_hadith_matches st + snd (counted_as (m_type m)))%Z)
  /\ (forall text t t' res,
        processTranscript svc transcriptId text t = (Ok res, t') ->
        exists ds vs t1 t2,
          detect_and_verify svc transcriptId text t = (Ok (ds, vs), t1)
          /\ Forall2 (records transcriptId) (annotations res) (sortedMatches vs)
          /\ quran_matches (stats res)
             = size (List.filter (fun a => is_quran (a_type a)) (annotations res))
          /\ hadith_matches (stats res)
             = size (List.filter (fun a => negb (is_quran (a_type a))) (annotations res))
          /\ t' = final_writes transcriptId (annotations res) (annotated_text res) ++ t2).
Proof.
  split.
  - intros st v m rid t Hm Hr Ht Hnone.
    rewrite (annotate_step_record transcriptId st v t Hm Hr Ht).
    eexists; eexists. split; [reflexivity|].
    cbn [st_annotatedText st_annotations st_quran_matches st_hadith_matches].
    repeat split.
    + unfold place. now rewrite Hnone.
    + now apply annotation_of_records.
    + destruct (m_type m); cbn [counted_as fst]; lia.
    + destruct (m_type m); cbn [counted_as snd]; lia.
  - intros text t t' res Hrun.
    destruct (processTranscript_ok _ _ _ Hrun)
      as (ds & vs & t1 & st & t2 & Edv & Ef & -> & ->).
    destruct (@annotate_loop_kinds _ _ _ _ _ _ Ef) as (anns & Ha & Hq & Hh).
    cbn [initial_state st_annotations st_quran_matches st_hadith_matches app] in Ha, Hq, Hh.
    exists ds, vs, t1, t2. split; [exact Edv|].
    cbn [annotations stats quran_matches hadith_matches].
    split; [exact (run_annotations _ _ _ Edv Ef)|].
    rewrite Ha. split; [lia|]. split; [lia|reflexivity].
Qed.

Lemma verified_partition (vs : list VerifiedMatch) :
  (size vs = size (List.filter accepted vs) + size (List.filter low_confidence vs)
             + size (List.filter confident_without_entry vs))%Z.
Proof.
  unfold size. induction vs as [|v vs IH]; [reflexivity|].
  cbn [List.filter List.length].
  unfold accepted, low_confidence, confident_without_entry in *.
  destruct (Qle_bool CONFIDENCE_AUTO_ANNOTATE (confidence v)), (match_ v);
    cbn [andb negb is_some List.length]; lia.
Qed.

Lemma sortedMatches_drop (vs1 vs2 : list VerifiedMatch) (v : VerifiedMatch) :
  accepted v = false -> sortedMatches (vs1 ++ v :: vs2) = sortedMatches (vs1 ++ vs2).
Proof.
  intros H. unfold sortedMatches. rewrite !filter_app. cbn [List.filter].
  now rewrite H.
Qed.

(** C10: the count of skipped low-confidence matches of a run is the
    number of Verified Matches whose confidence is below 0.5.  A Verified
    Match with confidence at least 0.5 and no entry is in none of the three
    counters: the detected total exceeds their sum by exactly the number of
    such matches; it never reaches the annotation loop, and steps 4 and 5
    run the same with or without it. *)
Theorem statistics_accounting (transcriptId text : str) (t t' : Trace) res :
  processTranscript svc transcriptId text t = (Ok res, t') ->
  exists ds vs t1,
    detect_and_verify svc transcriptId text t = (Ok (ds, vs), t1)
    /\ low_confidence_skipped (stats res) = size (List.filter low_confidence vs)
    /\ total_detected (stats res) = size vs
    /\ (quran_matches (stats res) + hadith_matches (stats res)
        = size (annotations res))%Z
    /\ size (annotations res) = size (List.filter accepted vs)
    /\ (total_detected (stats res)
        = quran_matches (stats res) + hadith_matches (stats res)
          + low_confidence_skipped (stats res)
          + size (List.filter confident_without_entry vs))%Z
    /\ (forall v, In v vs -> confident_without_entry v = true ->
                  ~ In v (sortedMatches vs) /\ low_confidence v = false)
    /\ (forall vs1 v vs2 u,
          confident_without_entry v = true ->
          annotate_and_save svc transcriptId text ds (vs1 ++ v :: vs2) u
          = annotate_and_save svc transcriptId text ds (vs1 ++ vs2) u).
Proof.
  intros Hrun.
  destruct (processTranscript_ok _ _ _ Hrun)
    as (ds & vs & t1 & st & t2 & Edv & Ef & -> & ->).
  exists ds, vs, t1. split; [exact Edv|].
  cbn [stats annotations low_confidence_skipped total_detected quran_matches
       hadith_matches].
  destruct (detect_and_verify_ok _ _ _ Edv) as [_ Hvs].
  pose proof (@Forall2_size _ _ _ _ _ Hvs) as Hsize.
  pose proof (@run_counts _ _ _ _ _ _ Ef) as Hcount.
  pose proof (@Forall2_size _ _ _ _ _ (run_annotations _ _ _ Edv Ef)) as Hanns.
  assert (Hacc : size (sortedMatches vs) = size (List.filter accepted vs))
    by (unfold size, sortedMatches; now rewrite sort_length).
  pose proof (verified_partition vs) as Hpart.
  assert (Hcwe : forall v, confident_without_entry v = true ->
                           accepted v = false /\ low_confidence v = false).
  { intros v Hv. unfold confident_without_entry, accepted, low_confidence in *.
    apply andb_true_iff in Hv as [Hc Hn]. rewrite Hc.
    destruct (match_ v); [discriminate|]. split; reflexivity. }
  split; [reflexivity|]. split; [exact Hsize|]. split; [exact Hcount|].
  split; [lia|]. split; [lia|]. split.
  - intros v _ Hv. destruct (Hcwe v Hv) as [Ha Hl]. split; [|exact Hl].
    intros Hin. apply sortedMatches_in in Hin as [_ Hin]. congruence.
  - intros vs1 v vs2 u Hv. destruct (Hcwe v Hv) as [Ha Hl].
    unfold annotate_and_save.
    rewrite (sortedMatches_drop vs1 vs2 v Ha), !filter_app. cbn [List.filter].
    now rewrite Hl.
Qed.

End OrchestratorProperties.

(** ** The scenarios, run *)

Lemma run_pair {A} (x : Exc A * Trace) (a : Exc A) : fst x = a -> x = (a, snd x).
Proof. destruct x. simpl. now intros ->. Qed.

Example scenarioA_run :
  fst (processTranscript scenarioA_services (js "t1") scenarioA_text [])
  = Ok scenarioA_result.
Proof. vm_compute. reflexivity. Qed.

Example missing_literal_run :
  fst (processTranscript missing_literal_services (js "t1") scenarioA_text [])
  = Ok missing_literal_result.
Proof. vm_compute. reflexivity. Qed.

Example clear_winner_run :
  fst (processTranscript clear_winner_services (js "t1") scenarioA_text [])
  = Ok clear_winner_result.
Proof. vm_compute. reflexivity. Qed.

Lemma confidence_gate_witness :
  fst (processTranscript scenarioA_services (js "t1") scenarioA_text [])
  = Ok scenarioA_result
  /\ Forall (fun a => (CONFIDENCE_AUTO_ANNOTATE <= a_confidence a)%Q)
            (annotations scenarioA_result).
Proof.
  split; [exact scenarioA_run|].
  exact (proj1 (@confidence_gate scenarioA_services (js "t1") scenarioA_text [] _ _
                                 (run_pair _ scenarioA_run))).
Defined.

Lemma annotation_offsets_advisory_witness :
  fst (processTranscript scenarioA_services (js "t1") scenarioA_text [])
  = Ok scenarioA_result
  /\ exists ds vs t1,
       detect_and_verify scenarioA_services (js "t1") scenarioA_text []
       = (Ok (ds, vs), t1)
       /\ Forall2 (fun a v =>
                     a_start_index a = start_index (detected v)
                     /\ a_end_index a = end_index (detected v)
                     /\ from_detector scenarioA_services
                                      (splitIntoChunks scenarioA_text 2000) (detected v))
                  (annotations scenarioA_result) (sortedMatches vs).
Proof.
  split; [exact scenarioA_run|].
  exact (@annotation_offsets_advisory scenarioA_services (js "t1") scenarioA_text [] _ _
                                      (run_pair _ scenarioA_run)).
Defined.

(** C1 (as stated) fails: in Scenario A the Detector reports the span
    [0, 25) for a quotation whose marker ends up at offset 9; the annotation
    carries 0 and 25. *)
Lemma annotation_offsets_not_placement :
  fst (processTranscript scenarioA_services (js "t1") scenarioA_text [])
  = Ok scenarioA_result
  /\ indexOf (annotated_text scenarioA_result) scenarioA_marker = Some 9%nat
  /\ List.map (fun a => (a_start_index a, a_end_index a)) (annotations scenarioA_result)
     = [(0, 25)%Z]
  /\ List.map (fun a => (a_start_index a, a_end_index a)) (annotations scenarioA_result)
     <> [(9, 9 + len scenarioA_marker)%Z].
Proof.
  split; [exact scenarioA_run|]. split; [reflexivity|]. split; [reflexivity|].
  vm_compute. discriminate.
Qed.

Lemma unplaced_match_recorded_witness :
  let v := verified (js "Allahu akbar") (verse_result 2 255 (8 # 10)) (8 # 10) in
  let st := initial_state scenarioA_text in
  indexOf (toLowerCase missing_literal_services (st_annotatedText st))
          (toLowerCase missing_literal_services (original_text (detected v))) = None
  /\ exists st' a,
       annotate_step missing_literal_services (js "t1") st v [] = (Ok st', [EvUuid])
       /\ st_annotatedText st' = scenarioA_text
       /\ st_annotations st' = [a]
       /\ records (js "t1") a v
       /\ st_quran_matches st' = 1%Z
       /\ st_hadith_matches st' = 0%Z.
Proof.
  intros v st. split; [reflexivity|].
  destruct (proj1 (unplaced_match_recorded missing_literal_services (js "t1"))
                  st v (verse_result 2 255 (8 # 10)) (js "2:255") []
                  eq_refl eq_refl eq_refl eq_refl)
    as (st' & a & E & Ht & Ha & Hr & Hq & Hh).
  exists st', a. repeat split; assumption.
Defined.

(** C2 (as stated) fails: the literal text "Allahu akbar" is not in the
    document, the document is left as it was, and yet the run returns an
    annotation for it and inserts it. *)
Lemma unplaced_match_persisted :
  indexOf (toLowerCase missing_literal_services scenarioA_text)
          (toLowerCase missing_literal_services (js "Allahu akbar")) = None
  /\ fst (processTranscript missing_literal_services (js "t1") scenarioA_text [])
     = Ok missing_literal_result
  /\ annotated_text missing_literal_result = scenarioA_text
  /\ List.map a_original_text (annotations missing_literal_result) = [js "Allahu akbar"]
  /\ In (EvInsertAnnotations (annotations missing_literal_result))
        (snd (processTranscript missing_literal_services (js "t1") scenarioA_text [])).
Proof.
  split; [reflexivity|]. split; [exact missing_literal_run|].
  split; [reflexivity|]. split; [reflexivity|].
  left. vm_compute. reflexivity.
Qed.

Lemma statistics_accounting_witness :
  fst (processTranscript clear_winner_services (js "t1") scenarioA_text [])
  = Ok clear_winner_result
  /\ stats clear_winner_result = counts 1 0 0 0
  /\ exists ds vs t1,
       detect_and_verify clear_winner_services (js "t1") scenarioA_text []
       = (Ok (ds, vs), t1)
       /\ low_confidence_skipped (stats clear_winner_result)
          = size (List.filter low_confidence vs)
       /\ size (List.filter confident_without_entry vs) = 1%Z.
Proof.
  split; [exact clear_winner_run|]. split; [reflexivity|].
  destruct (@statistics_accounting clear_winner_services (js "t1") scenarioA_text [] _ _
                                   (run_pair _ clear_winner_run))
    as (ds & vs & t1 & Edv & Hlow & _ & _ & _ & Htotal & _).
  exists ds, vs, t1. split; [exact Edv|]. split; [exact Hlow|].
  rewrite Hlow in Htotal. cbn in Htotal, Hlow. rewrite <- Hlow in Htotal. lia.
Defined.

(* ################################################################## *)
(** * Further properties of the Text Normalizer *)
(* ################################################################## *)

Example levenshteinDistance_ex :
  levenshteinDistance (js "kitten") (js "sitting") = 3%Z
  /\ levenshteinDistance (js "") (js "abc") = 3%Z
  /\ levenshteinDistance (js "flaw") (js "lawn") = 2%Z.
Proof. repeat split. Qed.

Example normalizeTransliteration_ex :
  normalizeTransliteration Scenario.ascii_lower (js " Al-Hamdu  lillaahi  Rabbil-'Aalameen ")
  = js "alhamdu lillahi rabbilalamin".
Proof. reflexivity. Qed.

(** ** White space *)

Lemma replace_ws_runs_true_head (s : str) :
  match replace_ws_runs true s with [] => true | d :: _ => negb (isSpace d) end = true.
Proof.
  induction s as [|c s IH]; simpl; [reflexivity|].
  destruct (isSpace c) eqn:E; [exact IH|]. simpl. now rewrite E.
Qed.

Lemma replace_ws_runs_single (s : str) : forall b,
  single_spaced (replace_ws_runs b s) = true.
Proof.
  induction s as [|c s IH]; intros b; simpl; [reflexivity|].
  destruct (isSpace c) eqn:E.
  - destruct b; [apply IH|].
    cbn [single_spaced]. change (isSpace SP) with true. cbv iota.
    rewrite N.eqb_refl, replace_ws_runs_true_head, IH. reflexivity.
  - cbn [single_spaced]. now rewrite E, IH.
Qed.

Lemma single_spaced_app (a b : str) :
  single_spaced (a ++ b) = true -> single_spaced a = true /\ single_spaced b = true.
Proof.
  induction a as [|c a IH]; simpl; intros H; [now split|].
  apply andb_true_iff in H as [Hc H]. destruct (IH H) as [Ha Hb].
  split; [|exact Hb]. rewrite Ha, andb_true_r.
  destruct (isSpace c); [|reflexivity].
  apply andb_true_iff in Hc as [Hsp Hn]. rewrite Hsp. cbn [andb].
  destruct a; [reflexivity|exact Hn].
Qed.

Lemma dropWhile_suffix (p : char -> bool) (s : str) :
  exists w, s = w ++ dropWhile p s.
Proof.
  induction s as [|c s [w IH]]; [now exists []|].
  simpl. destruct (p c); [|now exists []].
  exists (c :: w). simpl. now rewrite <- IH.
Qed.

Lemma dropWhile_head (s : str) :
  dropWhile isSpace s = [] \/ head_ok (dropWhile isSpace s) = true.
Proof.
  induction s as [|c s IH]; [now left|].
  simpl. destruct (isSpace c) eqn:E; [exact IH|]. right. simpl. now rewrite E.
Qed.

(** What [trim] returns is a piece of the text: a prefix and a suffix of
    white space are cut off. *)
Lemma trim_piece (s : str) : exists a b, s = a ++ trim s ++ b.
Proof.
  unfold trim.
  destruct (dropWhile_suffix isSpace s) as [a Ha].
  destruct (dropWhile_suffix isSpace (rev (dropWhile isSpace s))) as [w Hw].
  exists a, (rev w).
  apply (f_equal (@rev char)) in Hw. rewrite rev_involutive, rev_app_distr in Hw.
  now rewrite <- Hw.
Qed.

Lemma trim_trimmed (s : str) : trimmed (trim s) = true.
Proof.
  unfold trimmed.
  destruct (trim s) as [|c r] eqn:E; [reflexivity|].
  unfold edge_clean. unfold trim in E.
  set (u := dropWhile isSpace s) in *.
  destruct (dropWhile_head (rev u)) as [Hd|Hd].
  - rewrite Hd in E. discriminate.
  - apply andb_true_iff. split.
    + destruct (dropWhile_suffix isSpace (rev u)) as [w Hw].
      apply (f_equal (@rev char)) in Hw.
      rewrite rev_involutive, rev_app_distr, E in Hw.
      destruct (dropWhile_head s) as [Hu|Hu]; fold u in Hu.
      * rewrite Hu in Hw. discriminate.
      * rewrite Hw in Hu. exact Hu.
    + rewrite <- E, rev_involutive. exact Hd.
Qed.

Lemma trim_fixed (s : str) : trimmed s = true -> trim s = s.
Proof.
  destruct s as [|c s]; [reflexivity|]. apply trim_edge_clean.
Qed.

Lemma trim_single_spaced (s : str) :
  single_spaced s = true -> ws_canonical (trim s) = true.
Proof.
  intros H. pose proof (trim_trimmed s) as Ht.
  destruct (trim_piece s) as (a & b & E).
  rewrite E in H. apply single_spaced_app in H as [_ H].
  apply single_spaced_app in H as [H _].
  unfold ws_canonical, trimmed in *.
  destruct (trim s); [reflexivity|]. now rewrite Ht, H.
Qed.

Lemma ws_canonical_fixed (s : str) :
  ws_canonical s = true -> trim (replace_ws_runs false s) = s.
Proof.
  destruct s as [|c s]; [reflexivity|].
  unfold ws_canonical. intros H. apply andb_true_iff in H as [He Hs].
  rewrite (replace_ws_runs_single_spaced _ Hs). now apply trim_edge_clean.
Qed.

(** ** The normal form of [normalizeArabic] *)


Lemma replace_class_app (cls : char -> bool) (rep a b : str) :
  replace_class cls rep (a ++ b) = replace_class cls rep a ++ replace_class cls rep b.
Proof. unfold replace_class. apply flat_map_app. Qed.

Lemma fold_replace_app (rules : list ((char -> bool) * str)) : forall a b,
  fold_left (fun acc pr => replace_class (fst pr) (snd pr) acc) rules (a ++ b)
  = fold_left (fun acc pr => replace_class (fst pr) (snd pr) acc) rules a
    ++ fold_left (fun acc pr => replace_class (fst pr) (snd pr) acc) rules b.
Proof.
  induction rules as [|pr rules IH]; intros a b; [reflexivity|].
  simpl. now rewrite replace_class_app, IH.
Qed.

Lemma canonical_letters_cons (c : char) (s : str) :
  canonical_letters (c :: s) = canonical_letters [c] ++ canonical_letters s.
Proof.
  unfold canonical_letters, removeDiacritics.
  change (c :: s) with ([c] ++ s).
  now rewrite replace_class_app, fold_replace_app.
Qed.

(** Whatever the character, what the first two steps leave of it is
    neither a mark nor a variant. *)
Lemma canonical_letters_char (c : char) :
  forallb canonical_char (canonical_letters [c]) = true.
Proof.
  unfold canonical_letters, removeDiacritics, canonical_char, ARABIC_NORMALIZATIONS.
  cbn [replace_class flat_map app fold_left fst snd forallb].
  destruct (ARABIC_DIACRITICS c) eqn:E0; [reflexivity|].
  cbn [replace_class flat_map app fst snd].
  destruct (one_of [1570; 1571; 1573]%N c) eqn:E1; [reflexivity|].
  cbn [replace_class flat_map app fst snd].
  destruct (one_of [1577%N] c) eqn:E2; [reflexivity|].
  cbn [replace_class flat_map app fst snd].
  destruct (one_of [1609%N] c) eqn:E3; [reflexivity|].
  cbn [replace_class flat_map app fst snd].
  destruct (one_of [1572%N] c) eqn:E4; [reflexivity|].
  cbn [replace_class flat_map app fst snd].
  destruct (one_of [1574%N] c) eqn:E5; [reflexivity|].
  cbn [app forallb]. now rewrite E0, E1, E2, E3, E4, E5.
Qed.

Lemma canonical_letters_canonical (s : str) :
  forallb canonical_char (canonical_letters s) = true.
Proof.
  induction s as [|c s IH]; [reflexivity|].
  now rewrite canonical_letters_cons, forallb_app, canonical_letters_char, IH.
Qed.

Lemma canonical_letters_fixed (s : str) :
  forallb canonical_char s = true -> canonical_letters s = s.
Proof.
  induction s as [|c s IH]; [reflexivity|].
  simpl. intros H. apply andb_true_iff in H as [Hc Hs].
  rewrite canonical_letters_cons, (IH Hs).
  unfold canonical_char in Hc. apply andb_true_iff in Hc as [H0 Hr].
  apply negb_true_iff in H0.
  unfold canonical_letters, removeDiacritics.
  cbn [replace_class flat_map app]. rewrite H0. cbn [app].
  rewrite fold_replace_none; [reflexivity|].
  rewrite forallb_forall in Hr. apply Forall_forall. intros pr Hpr.
  constructor; [|constructor]. apply negb_true_iff. now apply Hr.
Qed.

Lemma replace_ws_runs_canonical (s : str) : forall b,
  forallb canonical_char s = true ->
  forallb canonical_char (replace_ws_runs b s) = true.
Proof.
  induction s as [|c s IH]; intros b H; [reflexivity|].
  simpl in H. apply andb_true_iff in H as [Hc Hs]. simpl.
  destruct (isSpace c); [destruct b|]; simpl; rewrite ?Hc, IH; auto.
Qed.

Lemma trim_canonical (s : str) :
  forallb canonical_char s = true -> forallb canonical_char (trim s) = true.
Proof.
  intros H. destruct (trim_piece s) as (a & b & E).
  rewrite E, !forallb_app in H.
  apply andb_true_iff in H as [_ H]. now apply andb_true_iff in H as [H _].
Qed.

Lemma normalizeArabic_letters (x : str) :
  normalizeArabic x = trim (replace_ws_runs false (canonical_letters x)).
Proof. reflexivity. Qed.

Lemma normalizeArabic_normal (x : str) : normal_form (normalizeArabic x) = true.
Proof.
  rewrite normalizeArabic_letters. unfold normal_form. apply andb_true_iff. split.
  - apply trim_canonical, replace_ws_runs_canonical, canonical_letters_canonical.
  - apply trim_single_spaced, replace_ws_runs_single.
Qed.

Lemma normalizeArabic_fixed (x : str) : normal_form x = true -> normalizeArabic x = x.
Proof.
  unfold normal_form. intros H. apply andb_true_iff in H as [Hc Hw].
  rewrite normalizeArabic_letters, (canonical_letters_fixed _ Hc).
  now apply ws_canonical_fixed.
Qed.

(** X1: normalizing twice is the same as normalizing once. *)
Theorem normalizeArabic_idempotent (x : str) :
  normalizeArabic (normalizeArabic x) = normalizeArabic x.
Proof. apply normalizeArabic_fixed, normalizeArabic_normal. Qed.

(** X2: what [normalizeArabic] returns is in normal form, for every input:
    it has no diacritical mark and no letter variant, no white space at
    its ends, and only single spaces inside; and a text in normal form is
    returned as it is. *)
Theorem normalizeArabic_normal_form (x : str) :
  normal_form (normalizeArabic x) = true
  /\ (normal_form x = true -> normalizeArabic x = x).
Proof. split; [apply normalizeArabic_normal|apply normalizeArabic_fixed]. Qed.

Lemma normalizeArabic_normal_form_witness :
  normal_form [1575; 1604; 1581; 1605; 1583]%N = true
  /\ normalizeArabic [1575; 1604; 1581; 1605; 1583]%N = [1575; 1604; 1581; 1605; 1583]%N
  /\ normal_form (normalizeArabic [1571; 1614; 1604; 32; 32; 1581; 1577]%N) = true.
Proof.
  split; [reflexivity|]. split.
  - exact (proj2 (normalizeArabic_normal_form [1575; 1604; 1581; 1605; 1583]%N) eq_refl).
  - exact (proj1 (normalizeArabic_normal_form [1571; 1614; 1604; 32; 32; 1581; 1577]%N)).
Defined.

(** ** What the chunker keeps *)

Lemma strip_app (a b : str) : strip (a ++ b) = strip a ++ strip b.
Proof. apply filter_app. Qed.

Lemma strip_rev (s : str) : strip (rev s) = rev (strip s).
Proof. unfold strip. now rewrite filter_rev. Qed.

Lemma strip_dropWhile (s : str) : strip (dropWhile isSpace s) = strip s.
Proof.
  induction s as [|c s IH]; [reflexivity|].
  simpl. destruct (isSpace c) eqn:E; simpl; [exact IH|now rewrite E].
Qed.

Lemma strip_trim (s : str) : strip (trim s) = strip s.
Proof.
  unfold trim.
  now rewrite strip_rev, strip_dropWhile, strip_rev, rev_involutive, strip_dropWhile.
Qed.

Lemma strip_space (c : char) (s : str) : isSpace c = true -> strip (c :: s) = strip s.
Proof. intros H. simpl. now rewrite H. Qed.

Lemma strip_cons (c : char) (s : str) : strip (c :: s) = strip [c] ++ strip s.
Proof. change (c :: s) with ([c] ++ s). apply strip_app. Qed.

Lemma strip_split_nl (s : str) : forall skipping cur,
  strip (List.concat (split_nl skipping cur s)) = strip (rev cur) ++ strip s.
Proof.
  induction s as [|c s IH]; intros skipping cur.
  - simpl. now rewrite !app_nil_r.
  - cbn [split_nl].
    destruct (skipping && (c =? LF)%N) eqn:E1.
    + apply andb_true_iff in E1 as [_ E1]. apply N.eqb_eq in E1. subst c.
      rewrite IH. now rewrite strip_space.
    + destruct ((c =? LF)%N && match s with d :: _ => (d =? LF)%N | [] => false end)
        eqn:E2.
      * apply andb_true_iff in E2 as [E2 _]. apply N.eqb_eq in E2. subst c.
        cbn [List.concat]. rewrite strip_app, IH. now rewrite strip_space.
      * rewrite IH. cbn [rev].
        now rewrite strip_app, <- app_assoc, <- strip_cons.
Qed.

Lemma strip_split_sent (s : str) : forall prev_term skipping cur,
  strip (List.concat (split_sent prev_term skipping cur s)) = strip (rev cur) ++ strip s.
Proof.
  induction s as [|c s IH]; intros prev_term skipping cur.
  - simpl. now rewrite !app_nil_r.
  - cbn [split_sent]. destruct (isSpace c) eqn:E.
    + rewrite (strip_space c s E).
      destruct skipping; [apply IH|].
      destruct prev_term.
      * cbn [List.concat]. now rewrite strip_app, IH.
      * rewrite IH. cbn [rev].
        now rewrite strip_app, (strip_space c [] E), app_nil_r.
    + rewrite IH. cbn [rev].
      now rewrite strip_app, <- app_assoc, <- strip_cons.
Qed.

Lemma strip_push_trimmed (chunks : list str) (cur : str) :
  strip (List.concat (push_trimmed chunks cur)) = strip (List.concat chunks) ++ strip cur.
Proof.
  unfold push_trimmed. destruct cur as [|c cur]; [now rewrite app_nil_r|].
  cbn [truthy]. now rewrite concat_app, strip_app, concat_cons, app_nil_r, strip_trim.
Qed.

Lemma content_sentence_step (maxChunkSize : Z) (st : list str * str) (sentence : str) :
  chunker_content (sentence_step maxChunkSize st sentence)
  = chunker_content st ++ strip sentence.
Proof.
  destruct st as [chunks sc]. unfold sentence_step, chunker_content.
  destruct (len sc + len sentence >? maxChunkSize)%Z; cbn [fst snd].
  - now rewrite strip_push_trimmed.
  - rewrite !strip_app. destruct (truthy sc); now rewrite <- ?app_assoc.
Qed.

Lemma content_sentence_loop (maxChunkSize : Z) (sentences : list str) : forall st,
  chunker_content (fold_left (sentence_step maxChunkSize) sentences st)
  = chunker_content st ++ strip (List.concat sentences).
Proof.
  induction sentences as [|x l IH]; intros st; simpl.
  - now rewrite app_nil_r.
  - now rewrite IH, content_sentence_step, strip_app, <- ?app_assoc.
Qed.

Lemma content_paragraph_step (maxChunkSize : Z) (st : list str * str) (paragraph : str) :
  chunker_content (paragraph_step maxChunkSize st paragraph)
  = chunker_content st ++ strip paragraph.
Proof.
  destruct st as [chunks cur]. unfold paragraph_step.
  destruct (len cur + len paragraph >? maxChunkSize)%Z.
  - destruct (len paragraph >? maxChunkSize)%Z.
    + rewrite content_sentence_loop. unfold split_sentences.
      rewrite strip_split_sent. unfold chunker_content. cbn [fst snd rev].
      rewrite strip_push_trimmed. cbn [strip List.filter app].
      now rewrite !app_nil_r.
    + unfold chunker_content. cbn [fst snd]. now rewrite strip_push_trimmed.
  - unfold chunker_content. cbn [fst snd]. rewrite !strip_app.
    destruct (truthy cur); now rewrite <- ?app_assoc.
Qed.

Lemma content_paragraph_loop (maxChunkSize : Z) (paragraphs : list str) : forall st,
  chunker_content (fold_left (paragraph_step maxChunkSize) paragraphs st)
  = chunker_content st ++ strip (List.concat paragraphs).
Proof.
  induction paragraphs as [|x l IH]; intros st; simpl.
  - now rewrite app_nil_r.
  - now rewrite IH, content_paragraph_step, strip_app, <- ?app_assoc.
Qed.

(** X3: chunking loses nothing but white space.  For every text and every
    size limit, the chunks put end to end have the same characters other
    than white space as the text, in the same order. *)
Theorem splitIntoChunks_keeps_content (text : str) (maxChunkSize : Z) :
  strip (List.concat (splitIntoChunks text maxChunkSize)) = strip text.
Proof.
  unfold splitIntoChunks.
  pose proof (content_paragraph_loop maxChunkSize (split_paragraphs text) ([], []))
    as H.
  destruct (fold_left (paragraph_step maxChunkSize) (split_paragraphs text) ([], []))
    as [chunks cur].
  rewrite strip_push_trimmed. unfold chunker_content in H. cbn [fst snd] in H.
  rewrite H. unfold split_paragraphs. now rewrite strip_split_nl.
Qed.

(** ** The chunks are trimmed *)

Lemma push_trimmed_all (chunks : list str) (cur : str) :
  Forall (fun c => trimmed c = true) chunks ->
  Forall (fun c => trimmed c = true) (push_trimmed chunks cur).
Proof.
  intros H. unfold push_trimmed. destruct (truthy cur); [|exact H].
  apply Forall_app. split; [exact H|]. constructor; [apply trim_trimmed|constructor].
Qed.

Lemma sentence_loop_trimmed (maxChunkSize : Z) (sentences : list str) : forall st,
  Forall (fun c => trimmed c = true) (fst st) ->
  Forall (fun c => trimmed c = true)
         (fst (fold_left (sentence_step maxChunkSize) sentences st)).
Proof.
  induction sentences as [|x l IH]; intros [chunks sc] H; [exact H|].
  cbn [fold_left]. apply IH. unfold sentence_step.
  destruct (len sc + len x >? maxChunkSize)%Z; cbn [fst] in *;
    [now apply push_trimmed_all|exact H].
Qed.

Lemma paragraph_loop_trimmed (maxChunkSize : Z) (paragraphs : list str) : forall st,
  Forall (fun c => trimmed c = true) (fst st) ->
  Forall (fun c => trimmed c = true)
         (fst (fold_left (paragraph_step maxChunkSize) paragraphs st)).
Proof.
  induction paragraphs as [|x l IH]; intros [chunks cur] H; [exact H|].
  cbn [fold_left]. apply IH. unfold paragraph_step. cbn [fst] in H.
  destruct (len cur + len x >? maxChunkSize)%Z; [|exact H].
  destruct (len x >? maxChunkSize)%Z.
  - apply sentence_loop_trimmed. cbn [fst]. now apply push_trimmed_all.
  - cbn [fst]. now apply push_trimmed_all.
Qed.

(** X4: no chunk has white space at either end: every chunk the chunker
    returns is trimmed (and may be empty, when the text it was cut from
    was all white space). *)
Theorem splitIntoChunks_trimmed (text : str) (maxChunkSize : Z) :
  Forall (fun c => trim c = c) (splitIntoChunks text maxChunkSize).
Proof.
  assert (H : Forall (fun c => trimmed c = true) (splitIntoChunks text maxChunkSize)).
  { unfold splitIntoChunks.
    pose proof (@paragraph_loop_trimmed maxChunkSize (split_paragraphs text) ([], [])
                                        (Forall_nil _)) as H.
    destruct (fold_left (paragraph_step maxChunkSize) (split_paragraphs text) ([], []))
      as [chunks cur].
    now apply push_trimmed_all. }
  eapply Forall_impl; [|exact H]. intros c. apply trim_fixed.
Qed.

(** ** A text within the limit is not split *)

(** ** A text within the limit is not split *)

Lemma paragraphs_weight_nonneg (ps : list str) : (0 <= paragraphs_weight ps)%Z.
Proof.
  induction ps as [|p ps IH]; simpl; [lia|]. unfold len. lia.
Qed.

(** The pieces of a split, each counted with a separator, are not longer
    than the text with one more separator: every separator found has two
    characters at least. *)
Lemma split_nl_weight (s : str) : forall skipping cur,
  (paragraphs_weight (split_nl skipping cur s)
   + (if skipping && match s with d :: _ => (d =? LF)%N | [] => false end
      then 1 else 0)
   <= len cur + len s + 2)%Z.
Proof.
  induction s as [|c s IH]; intros skipping cur.
  - simpl. rewrite andb_false_r. unfold len. rewrite length_rev. simpl. lia.
  - cbn [split_nl].
    destruct (skipping && (c =? LF)%N) eqn:E1.
    + specialize (IH true cur).
      destruct (true && match s with d :: _ => (d =? LF)%N | [] => false end);
        unfold len in *; cbn [List.length]; lia.
    + destruct ((c =? LF)%N && match s with d :: _ => (d =? LF)%N | [] => false end)
        eqn:E2.
      * apply andb_true_iff in E2 as [_ E2].
        specialize (IH true []). cbn [andb] in IH. rewrite E2 in IH.
        cbn [paragraphs_weight fold_right]. fold (paragraphs_weight (split_nl true [] s)).
        unfold len in *. rewrite length_rev. cbn [List.length] in *. lia.
      * specialize (IH false (c :: cur)). cbn [andb] in IH.
        unfold len in *. cbn [List.length] in *. lia.
Qed.

Lemma within_limit_loop (maxChunkSize : Z) (ps : list str) : forall chunks cur,
  (len cur + paragraphs_weight ps <= maxChunkSize + 2)%Z ->
  exists cur', fold_left (paragraph_step maxChunkSize) ps (chunks, cur) = (chunks, cur').
Proof.
  induction ps as [|p ps IH]; intros chunks cur H; [now exists cur|].
  cbn [paragraphs_weight fold_right] in H. fold (paragraphs_weight ps) in H.
  pose proof (paragraphs_weight_nonneg ps) as Hw.
  cbn [fold_left]. unfold paragraph_step at 2.
  assert (E : (len cur + len p >? maxChunkSize)%Z = false)
    by (rewrite Z.gtb_ltb; apply Z.ltb_ge; lia).
  rewrite E. apply IH.
  unfold len in *. rewrite !length_app.
  destruct (truthy cur); cbn [List.length]; lia.
Qed.

(** X5: a text that is not longer than the size limit is never split: the
    chunker returns at most one chunk for it. *)
Theorem splitIntoChunks_within_limit (text : str) (maxChunkSize : Z) :
  (len text <= maxChunkSize)%Z ->
  (List.length (splitIntoChunks text maxChunkSize) <= 1)%nat.
Proof.
  intros H. unfold splitIntoChunks, split_paragraphs.
  pose proof (split_nl_weight text false []) as Hw. cbn [andb] in Hw.
  destruct (@within_limit_loop maxChunkSize (split_nl false [] text) [] [])
    as [cur E].
  - unfold len in *. cbn [List.length] in *. lia.
  - unfold str in *. rewrite E. unfold push_trimmed.
    destruct (truthy cur); simpl; lia.
Qed.

Lemma splitIntoChunks_within_limit_witness :
  (len scenarioA_text <= 2000)%Z
  /\ (List.length (splitIntoChunks scenarioA_text 2000) <= 1)%nat.
Proof.
  assert (H : (len scenarioA_text <= 2000)%Z) by (vm_compute; discriminate).
  split; [exact H|]. exact (@splitIntoChunks_within_limit scenarioA_text 2000%Z H).
Defined.

(** ** Levenshtein distance *)

Lemma lev_nil_l (t : str) : lev [] t = len t.
Proof. reflexivity. Qed.

Lemma lev_nil_r (s : str) : lev s [] = len s.
Proof. destruct s; reflexivity. Qed.

Lemma lev_cons (a b : char) (s t : str) :
  lev (a :: s) (b :: t)
  = min3 (lev s (b :: t) + 1) (lev (a :: s) t + 1)
         (lev s t + (if (a =? b)%N then 0 else 1)).
Proof. reflexivity. Qed.

Lemma len_cons (c : char) (s : str) : len (c :: s) = (len s + 1)%Z.
Proof. unfold len. cbn [List.length]. lia. Qed.

Lemma len_nonneg (s : str) : (0 <= len s)%Z.
Proof. unfold len. lia. Qed.

Lemma lev_bounds (s : str) : forall t,
  (Z.abs (len s - len t) <= lev s t <= Z.max (len s) (len t))%Z.
Proof.
  induction s as [|a s IHs]; intros t.
  - cbn [lev]. pose proof (len_nonneg t). cbn [len List.length Z.of_nat]. lia.
  - induction t as [|b t IHt].
    + rewrite lev_nil_r. pose proof (len_nonneg (a :: s)).
      cbn [len List.length Z.of_nat] in *. lia.
    + rewrite lev_cons. unfold min3.
      pose proof (IHs (b :: t)) as H1. pose proof (IHs t) as H2.
      rewrite !len_cons in *.
      destruct (a =? b)%N; lia.
Qed.

Lemma lev_sym (s : str) : forall t, lev s t = lev t s.
Proof.
  induction s as [|a s IHs]; intros t.
  - cbn [lev]. now rewrite lev_nil_r.
  - induction t as [|b t IHt].
    + cbn [lev]. reflexivity.
    + rewrite !lev_cons, IHt, (IHs (b :: t)), (IHs t), (N.eqb_sym b a).
      unfold min3. lia.
Qed.

Lemma lev_refl (s : str) : lev s s = 0%Z.
Proof.
  induction s as [|a s IH]; [reflexivity|].
  rewrite lev_cons, IH, N.eqb_refl. unfold min3.
  pose proof (lev_bounds s (a :: s)). pose proof (lev_bounds (a :: s) s). lia.
Qed.

Lemma lev_zero (s : str) : forall t, lev s t = 0%Z -> s = t.
Proof.
  induction s as [|a s IHs]; intros t H.
  - cbn [lev] in H. destruct t; [reflexivity|]. rewrite len_cons in H.
    pose proof (len_nonneg t). lia.
  - destruct t as [|b t].
    + rewrite lev_nil_r, len_cons in H. pose proof (len_nonneg s). lia.
    + rewrite lev_cons in H. unfold min3 in H.
      pose proof (lev_bounds s (b :: t)). pose proof (lev_bounds (a :: s) t).
      pose proof (lev_bounds s t).
      destruct (a =? b)%N eqn:E; [|lia].
      apply N.eqb_eq in E. subst b. f_equal. apply IHs. lia.
Qed.

(** *** The matrix *)

Lemma set_nth_length {A} (l : list A) : forall i v,
  List.length (set_nth l i v) = List.length l.
Proof.
  induction l as [|x l IH]; intros [|i] v; simpl; auto.
Qed.

Lemma nth_set_nth_eq {A} (l : list A) : forall i v d,
  (i < List.length l)%nat -> nth i (set_nth l i v) d = v.
Proof.
  induction l as [|x l IH]; intros [|i] v d H; simpl in *; try lia; auto.
  apply IH. lia.
Qed.

Lemma nth_set_nth_neq {A} (l : list A) : forall i j v d,
  i <> j -> nth j (set_nth l i v) d = nth j l d.
Proof.
  induction l as [|x l IH]; intros [|i] [|j] v d H; simpl; auto; try congruence.
Qed.

Lemma set_nth_out {A} (l : list A) : forall i v,
  (List.length l <= i)%nat -> set_nth l i v = l.
Proof.
  induction l as [|x l IH]; intros [|i] v H; simpl in *; auto; try lia.
  f_equal. apply IH. lia.
Qed.

Lemma fold_seq_inv {S} (f : S -> nat -> S) (Q : nat -> S -> Prop) (k : nat) :
  forall a st,
    (forall i st', (a <= i < a + k)%nat -> Q i st' -> Q (Datatypes.S i) (f st' i)) ->
    Q a st -> Q (a + k)%nat (fold_left f (seq a k) st).
Proof.
  induction k as [|k IH]; intros a st Hstep H0.
  - now rewrite Nat.add_0_r.
  - cbn [seq fold_left]. rewrite <- Nat.add_succ_comm. apply IH.
    + intros i st' Hi. apply Hstep. lia.
    + apply Hstep; [lia|exact H0].
Qed.

Section LevenshteinMatrix.

Variables m n : nat.

Lemma zeros_shape : matrix_shape m n (zeros m n).
Proof.
  unfold matrix_shape, zeros. split; [apply repeat_length|].
  intros i Hi. rewrite nth_repeat_lt by lia. apply repeat_length.
Qed.

Lemma mset_shape (M : matrix) (i j : nat) (v : Z) :
  matrix_shape m n M -> matrix_shape m n (mset M i j v).
Proof.
  intros [Hl Hr]. unfold mset. split; [now rewrite set_nth_length|].
  intros i' Hi'. destruct (Nat.eq_dec i i') as [->|Hne].
  - rewrite nth_set_nth_eq by lia. rewrite set_nth_length. now apply Hr.
  - rewrite nth_set_nth_neq by assumption. now apply Hr.
Qed.

Lemma mget_mset_eq (M : matrix) (i j : nat) (v : Z) :
  matrix_shape m n M -> (i <= m)%nat -> (j <= n)%nat ->
  mget (mset M i j v) i j = v.
Proof.
  intros [Hl Hr] Hi Hj. unfold mget, mset.
  rewrite nth_set_nth_eq by lia. apply nth_set_nth_eq. rewrite Hr by assumption. lia.
Qed.

Lemma mget_mset_neq (M : matrix) (i j i' j' : nat) (v : Z) :
  (i, j) <> (i', j') -> mget (mset M i j v) i' j' = mget M i' j'.
Proof.
  intros Hne. unfold mget, mset.
  destruct (Nat.eq_dec i i') as [<-|Hi].
  - destruct (Nat.lt_ge_cases i (List.length M)) as [Hlt|Hge].
    + rewrite nth_set_nth_eq by assumption.
      apply nth_set_nth_neq. congruence.
    + now rewrite set_nth_out.
  - now rewrite nth_set_nth_neq.
Qed.

End LevenshteinMatrix.

Lemma firstn_succ_snoc (s : str) : forall i,
  (i < List.length s)%nat -> firstn (S i) s = firstn i s ++ [nth i s 0%N].
Proof.
  induction s as [|c s IH]; intros i H; simpl in H; [lia|].
  destruct i as [|i]; [reflexivity|].
  cbn [firstn nth app]. f_equal. apply IH. lia.
Qed.

Lemma rev_firstn_succ (s : str) (i : nat) :
  (i < List.length s)%nat ->
  rev (firstn (S i) s) = nth i s 0%N :: rev (firstn i s).
Proof.
  intros H. now rewrite firstn_succ_snoc, rev_app_distr.
Qed.

Section LevenshteinCorrect.

Variables str1 str2 : str.

Let m := List.length str1.
Let n := List.length str2.

Lemma prefix_distance_row0 (j : nat) :
  (j <= n)%nat -> prefix_distance str1 str2 0 j = Z.of_nat j.
Proof.
  intros H. unfold prefix_distance. cbn [firstn rev lev].
  unfold len. rewrite length_rev, firstn_length_le; [reflexivity|exact H].
Qed.

Lemma prefix_distance_col0 (i : nat) :
  (i <= m)%nat -> prefix_distance str1 str2 i 0 = Z.of_nat i.
Proof.
  intros H. unfold prefix_distance. cbn [firstn rev]. rewrite lev_nil_r.
  unfold len. rewrite length_rev, firstn_length_le; [reflexivity|exact H].
Qed.

(** The recurrence the inner loop computes. *)
Lemma prefix_distance_step (i j : nat) :
  (1 <= i <= m)%nat -> (1 <= j <= n)%nat ->
  prefix_distance str1 str2 i j
  = min3 (prefix_distance str1 str2 (i - 1) j + 1)
         (prefix_distance str1 str2 i (j - 1) + 1)
         (prefix_distance str1 str2 (i - 1) (j - 1)
          + (if (nth (i - 1) str1 0 =? nth (j - 1) str2 0)%N then 0 else 1)).
Proof.
  intros Hi Hj. unfold prefix_distance.
  destruct i as [|i]; [lia|]. destruct j as [|j]; [lia|].
  replace (S i - 1)%nat with i by lia. replace (S j - 1)%nat with j by lia.
  rewrite (@rev_firstn_succ str1 i), (@rev_firstn_succ str2 j) by (fold m n; lia).
  apply lev_cons.
Qed.

(** After the two initialisation loops the first row and the first column
    hold the distances to the empty prefix. *)
Lemma init_borders :
  let M := fold_left (fun M i => mset M i 0 (Z.of_nat i)) (seq 0 (S m)) (zeros m n) in
  let M := fold_left (fun M j => mset M 0 j (Z.of_nat j)) (seq 0 (S n)) M in
  matrix_shape m n M
  /\ (forall i, (i <= m)%nat -> mget M i 0 = prefix_distance str1 str2 i 0)
  /\ (forall j, (j <= n)%nat -> mget M 0 j = prefix_distance str1 str2 0 j).
Proof.
  intros M0 M1.
  assert (H0 : matrix_shape m n M0
               /\ forall i, (i < 0 + S m)%nat -> mget M0 i 0 = Z.of_nat i).
  { subst M0.
    apply (fold_seq_inv (fun M i => mset M i 0 (Z.of_nat i))
             (fun k M => matrix_shape m n M
                         /\ forall i, (i < k)%nat -> mget M i 0 = Z.of_nat i)).
    - intros i M [Hs Hc] Hi. destruct Hi as [Hs' Hc']. split; [now apply mset_shape|].
      intros i' Hi'. destruct (Nat.eq_dec i i') as [<-|Hne].
      + apply (@mget_mset_eq m n); [assumption|lia|lia].
      + rewrite mget_mset_neq by congruence. apply Hc'. lia.
    - split; [apply zeros_shape|]. intros i Hi. lia. }
  destruct H0 as [Hs0 Hc0].
  assert (H1 : matrix_shape m n M1
               /\ (forall i, (i <= m)%nat -> mget M1 i 0 = Z.of_nat i)
               /\ forall j, (j < 0 + S n)%nat -> mget M1 0 j = Z.of_nat j).
  { subst M1.
    apply (fold_seq_inv (fun M j => mset M 0 j (Z.of_nat j))
             (fun k M => matrix_shape m n M
                         /\ (forall i, (i <= m)%nat -> mget M i 0 = Z.of_nat i)
                         /\ forall j, (j < k)%nat -> mget M 0 j = Z.of_nat j)).
    - intros j M Hj (Hs & Hc & Hr). split; [now apply mset_shape|]. split.
      + intros i Hi. destruct (Nat.eq_dec j 0) as [->|Hj0].
        * destruct (Nat.eq_dec i 0) as [->|Hi0].
          -- apply (@mget_mset_eq m n); [assumption|lia|lia].
          -- rewrite mget_mset_neq by congruence. now apply Hc.
        * rewrite mget_mset_neq by congruence. now apply Hc.
      + intros j' Hj'. destruct (Nat.eq_dec j j') as [<-|Hne].
        * apply (@mget_mset_eq m n); [assumption|lia|lia].
        * rewrite mget_mset_neq by congruence. apply Hr. lia.
    - split; [exact Hs0|]. split; [intros i Hi; apply Hc0; lia|]. intros j Hj. lia. }
  destruct H1 as (Hs1 & Hc1 & Hr1).
  split; [exact Hs1|]. split.
  - intros i Hi. rewrite prefix_distance_col0 by exact Hi. now apply Hc1.
  - intros j Hj. rewrite prefix_distance_row0 by exact Hj. apply Hr1. lia.
Qed.

Lemma fill_row (i : nat) (M : matrix) :
  (1 <= i <= m)%nat -> rows_filled str1 str2 i M ->
  rows_filled str1 str2 (S i) (fold_left (fun M j => fill_cell str1 str2 M i j) (seq 1 n) M).
Proof.
  intros Hi Hdone.
  assert (H : rows_filled str1 str2 i (fold_left (fun M j => fill_cell str1 str2 M i j) (seq 1 n) M)
              /\ forall j', (j' < 1 + n)%nat ->
                   mget (fold_left (fun M j => fill_cell str1 str2 M i j) (seq 1 n) M)
                        i j'
                   = prefix_distance str1 str2 i j').
  { apply (fold_seq_inv (fun M j => fill_cell str1 str2 M i j)
             (fun k M => rows_filled str1 str2 i M
                         /\ forall j', (j' < k)%nat ->
                                       mget M i j' = prefix_distance str1 str2 i j')).
    - intros j M' Hj [(Hs & Hc & Hr) Hrow].
      assert (Ev : mget (fill_cell str1 str2 M' i j) i j
                   = prefix_distance str1 str2 i j).
      { unfold fill_cell. rewrite (@mget_mset_eq m n) by (assumption || lia).
        rewrite prefix_distance_step by lia.
        rewrite (Hr (i - 1)%nat j), (Hrow (j - 1)%nat), (Hr (i - 1)%nat (j - 1)%nat)
          by lia.
        reflexivity. }
      assert (En : forall i' j', (i, j) <> (i', j') ->
                     mget (fill_cell str1 str2 M' i j) i' j' = mget M' i' j').
      { intros i' j' Hne. unfold fill_cell. now apply mget_mset_neq. }
      split; [split; [|split]|].
      + unfold fill_cell. now apply mset_shape.
      + intros i' Hi'. rewrite En by (intros E; inversion E; lia). now apply Hc.
      + intros i' j' H1 H2 H3. rewrite En by (intros E; inversion E; lia).
        now apply Hr.
      + intros j' Hj'. destruct (Nat.eq_dec j j') as [<-|Hne]; [exact Ev|].
        rewrite En by (intros E; inversion E; lia). apply Hrow. lia.
    - split; [exact Hdone|]. intros j' Hj'. destruct Hdone as (_ & Hc & _).
      replace j' with 0%nat by lia. apply Hc. lia. }
  destruct H as [(Hs & Hc & Hr) Hrow].
  split; [exact Hs|]. split; [exact Hc|].
  intros i' j' H1 H2 H3. destruct (Nat.eq_dec i' i) as [->|Hne].
  - apply Hrow. lia.
  - apply Hr; lia.
Qed.

Lemma levenshteinDistance_prefix :
  levenshteinDistance str1 str2 = prefix_distance str1 str2 m n.
Proof.
  unfold levenshteinDistance. fold m n.
  destruct (m =? 0)%nat eqn:Em.
  - apply Nat.eqb_eq in Em. rewrite Em. now rewrite prefix_distance_row0.
  - destruct (n =? 0)%nat eqn:En.
    + apply Nat.eqb_eq in En. rewrite En. now rewrite prefix_distance_col0.
    + apply Nat.eqb_neq in Em, En. cbv zeta.
      destruct init_borders as (Hs & Hc & Hr).
      match goal with |- mget (fold_left ?f (seq 1 m) ?M0) m n = _ =>
        assert (H : rows_filled str1 str2 (1 + m) (fold_left f (seq 1 m) M0)) end.
      { apply (fold_seq_inv _ (rows_filled str1 str2)).
        - intros i M Hi Hd. apply fill_row; [lia|exact Hd].
        - split; [exact Hs|]. split; [exact Hc|].
          intros i' j' H1 H2 H3. replace i' with 0%nat by lia. now apply Hr. }
      destruct H as (_ & _ & H). apply H; lia.
Qed.

End LevenshteinCorrect.

Lemma levenshteinDistance_lev (str1 str2 : str) :
  levenshteinDistance str1 str2 = lev (rev str1) (rev str2).
Proof.
  rewrite levenshteinDistance_prefix. unfold prefix_distance.
  now rewrite !firstn_all.
Qed.

(** *** The distance may be read from either end *)

Lemma len_app (a b : str) : len (a ++ b) = (len a + len b)%Z.
Proof. unfold len. rewrite length_app. lia. Qed.

Ltac lev_nil :=
  repeat match goal with
         | |- context [lev [] ?x] => change (lev [] x) with (len x)
         end;
  rewrite ?lev_nil_r, ?len_cons, ?len_app, ?len_cons;
  change (len []) with 0%Z.

Lemma lev_snoc_nil (a b : char) (t : str) :
  lev [a] (t ++ [b])
  = min3 (len t + 2) (lev [a] t + 1) (len t + (if (a =? b)%N then 0 else 1)).
Proof.
  induction t as [|c t IH].
  - cbn. unfold min3. destruct (a =? b)%N; reflexivity.
  - cbn [app]. rewrite !lev_cons, IH. lev_nil.
    unfold min3. destruct (a =? b)%N, (a =? c)%N; lia.
Qed.

Lemma eq_by_lower_bounds (x y : Z) : (forall z, z <= x <-> z <= y)%Z -> x = y.
Proof.
  intros H. apply Z.le_antisymm.
  - apply H. lia.
  - apply H. lia.
Qed.

(** The nine candidates of two steps, grouped by the first step or by the
    second. *)
Lemma min3_shuffle (a1 a2 a3 b1 b2 b3 c1 c2 c3 cab cxy : Z) :
  min3 (min3 (a1 + 1) (a2 + 1) (a3 + cab) + 1)
       (min3 (b1 + 1) (b2 + 1) (b3 + cab) + 1)
       (min3 (c1 + 1) (c2 + 1) (c3 + cab) + cxy)
  = min3 (min3 (a1 + 1) (b1 + 1) (c1 + cxy) + 1)
         (min3 (a2 + 1) (b2 + 1) (c2 + cxy) + 1)
         (min3 (a3 + 1) (b3 + 1) (c3 + cxy) + cab).
Proof.
  unfold min3. rewrite <- !Z.add_min_distr_r.
  apply eq_by_lower_bounds. intros z. rewrite !Z.min_glb_iff.
  split; intros H; repeat split; lia.
Qed.

Lemma lev_snoc (s : str) : forall t a b,
  lev (s ++ [a]) (t ++ [b])
  = min3 (lev s (t ++ [b]) + 1) (lev (s ++ [a]) t + 1)
         (lev s t + (if (a =? b)%N then 0 else 1)).
Proof.
  induction s as [|x s IHs]; intros t a b.
  - cbn [app]. rewrite lev_snoc_nil. lev_nil. unfold min3. lia.
  - induction t as [|y t IHt].
    + change ([] ++ [b]) with [b].
      rewrite (lev_sym ((x :: s) ++ [a]) [b]), (lev_snoc_nil b a (x :: s)).
      rewrite (lev_sym [b] (x :: s)), (N.eqb_sym b a). lev_nil.
      unfold min3. lia.
    + change (lev ((x :: s) ++ [a]) ((y :: t) ++ [b]))
        with (lev (x :: (s ++ [a])) (y :: (t ++ [b]))).
      rewrite (lev_cons x y (s ++ [a]) (t ++ [b])).
      change (lev (s ++ [a]) (y :: t ++ [b])) with (lev (s ++ [a]) ((y :: t) ++ [b])).
      change (lev (x :: s ++ [a]) (t ++ [b])) with (lev ((x :: s) ++ [a]) (t ++ [b])).
      rewrite (IHs (y :: t) a b), IHt, (IHs t a b).
      change (lev (x :: s) ((y :: t) ++ [b])) with (lev (x :: s) (y :: (t ++ [b]))).
      change (lev ((x :: s) ++ [a]) (y :: t)) with (lev (x :: (s ++ [a])) (y :: t)).
      rewrite (lev_cons x y s (t ++ [b])), (lev_cons x y (s ++ [a]) t),
        (lev_cons x y s t).
      cbn [app]. apply min3_shuffle.
Qed.

Lemma lev_rev (s : str) : forall t, lev (rev s) (rev t) = lev s t.
Proof.
  induction s as [|a s IHs]; intros t.
  - cbn [rev lev]. unfold len. now rewrite length_rev.
  - induction t as [|b t IHt].
    + rewrite !lev_nil_r. unfold len. now rewrite length_rev.
    + rewrite lev_cons. cbn [rev]. rewrite lev_snoc.
      change (rev t ++ [b]) with (rev (b :: t)).
      change (rev s ++ [a]) with (rev (a :: s)).
      now rewrite (IHs (b :: t)), IHt, (IHs t).
Qed.

Lemma levenshteinDistance_is_lev (str1 str2 : str) :
  levenshteinDistance str1 str2 = lev str1 str2.
Proof. now rewrite levenshteinDistance_lev, lev_rev. Qed.

(** X6: the matrix loop of [levenshteinDistance] computes the edit distance:
    the least number of deletions, insertions and substitutions of one
    character, as the recursion on the two texts defines it. *)
Theorem levenshteinDistance_correct (str1 str2 : str) :
  levenshteinDistance str1 str2 = lev str1 str2
  /\ levenshteinDistance [] str2 = len str2
  /\ levenshteinDistance str1 [] = len str1
  /\ forall a b,
       levenshteinDistance (a :: str1) (b :: str2)
       = min3 (levenshteinDistance str1 (b :: str2) + 1)
              (levenshteinDistance (a :: str1) str2 + 1)
              (levenshteinDistance str1 str2 + (if (a =? b)%N then 0 else 1)).
Proof.
  split; [apply levenshteinDistance_is_lev|]. split; [reflexivity|].
  split.
  - now rewrite levenshteinDistance_is_lev, lev_nil_r.
  - intros a b. rewrite !levenshteinDistance_is_lev. apply lev_cons.
Qed.

(** X7: the distance is zero exactly between equal texts. *)
Theorem levenshteinDistance_zero (str1 str2 : str) :
  levenshteinDistance str1 str2 = 0%Z <-> str1 = str2.
Proof.
  rewrite levenshteinDistance_is_lev. split.
  - apply lev_zero.
  - intros ->. apply lev_refl.
Qed.

(** X8: the distance does not depend on the order of the two texts. *)
Theorem levenshteinDistance_symmetric (str1 str2 : str) :
  levenshteinDistance str1 str2 = levenshteinDistance str2 str1.
Proof. rewrite !levenshteinDistance_is_lev. apply lev_sym. Qed.

(** X9: the distance is at least the difference of the two lengths and at
    most the greater length. *)
Theorem levenshteinDistance_bounds (str1 str2 : str) :
  (Z.abs (len str1 - len str2) <= levenshteinDistance str1 str2
   <= Z.max (len str1) (len str2))%Z.
Proof. rewrite levenshteinDistance_is_lev. apply lev_bounds. Qed.

(** ** Fuzzy similarity *)

Lemma str_eqb_eq (a : str) : forall b, str_eqb a b = true <-> a = b.
Proof.
  induction a as [|x a IH]; intros [|y b]; simpl; split; try easy.
  - intros H. apply andb_true_iff in H as [H1 H2].
    apply N.eqb_eq in H1. apply IH in H2. now subst.
  - intros E. inversion E; subst. rewrite N.eqb_refl. now apply IH.
Qed.

Lemma str_eqb_sym (a b : str) : str_eqb a b = str_eqb b a.
Proof.
  destruct (str_eqb a b) eqn:E1, (str_eqb b a) eqn:E2; try reflexivity.
  - apply str_eqb_eq in E1. subst. rewrite (proj2 (str_eqb_eq b b) eq_refl) in E2.
    discriminate.
  - apply str_eqb_eq in E2. subst. rewrite (proj2 (str_eqb_eq a a) eq_refl) in E1.
    discriminate.
Qed.

Section FuzzyProperties.

Variable number : Type.
Variable one : number.
Variable of_int : Z -> number.
Variable nsub ndiv : number -> number -> number.

(** X10: [fuzzyMatchArabic] does not depend on the order of its two
    arguments; it returns exactly 1 when the two texts have the same
    normal form, in particular for a text and itself; and otherwise what
    it returns is 1 minus the quotient of an edit distance [d] by a length
    [M] with [1 <= d <= M]. *)
Theorem fuzzyMatchArabic_properties (text1 text2 : str) :
  fuzzyMatchArabic one of_int nsub ndiv text1 text2
  = fuzzyMatchArabic one of_int nsub ndiv text2 text1
  /\ (normalizeArabic text1 = normalizeArabic text2 ->
      fuzzyMatchArabic one of_int nsub ndiv text1 text2 = one)
  /\ fuzzyMatchArabic one of_int nsub ndiv text1 text1 = one
  /\ (normalizeArabic text1 <> normalizeArabic text2 ->
      exists d M,
        (1 <= d <= M)%Z
        /\ d = levenshteinDistance (normalizeArabic text1) (normalizeArabic text2)
        /\ M = Z.max (len (normalizeArabic text1)) (len (normalizeArabic text2))
        /\ fuzzyMatchArabic one of_int nsub ndiv text1 text2
           = nsub one (ndiv (of_int d) (of_int M))).
Proof.
  unfold fuzzyMatchArabic.
  set (n1 := normalizeArabic text1). set (n2 := normalizeArabic text2).
  split; [|split; [|split]].
  - rewrite (str_eqb_sym n2 n1), (Z.max_comm (len n2) (len n1)).
    now rewrite (levenshteinDistance_is_lev n2 n1), (lev_sym n2 n1),
      <- (levenshteinDistance_is_lev n1 n2).
  - intros E. now rewrite (proj2 (str_eqb_eq n1 n2) E).
  - now rewrite (proj2 (str_eqb_eq n1 n1) eq_refl).
  - intros Hne.
    destruct (str_eqb n1 n2) eqn:E; [apply str_eqb_eq in E; contradiction|].
    pose proof (lev_bounds n1 n2) as Hb.
    assert (Hpos : (1 <= lev n1 n2)%Z).
    { destruct (Z.eq_dec (lev n1 n2) 0) as [Hz|Hz];
        [apply lev_zero in Hz; contradiction|lia]. }
    rewrite levenshteinDistance_is_lev.
    exists (lev n1 n2), (Z.max (len n1) (len n2)).
    split; [lia|]. split; [reflexivity|]. split; [reflexivity|].
    destruct (Z.max (len n1) (len n2) =? 0)%Z eqn:Ez; [|reflexivity].
    apply Z.eqb_eq in Ez. lia.
Qed.

End FuzzyProperties.

Lemma fuzzyMatchArabic_properties_witness :
  normalizeArabic (js "Bismillah") <> normalizeArabic (js "Bismilah")
  /\ fuzzyMatchArabic 1%Q inject_Z Qminus Qdiv (js " Bismillah ") (js "Bismillah") = 1%Q
  /\ exists d M,
       (1 <= d <= M)%Z
       /\ fuzzyMatchArabic 1%Q inject_Z Qminus Qdiv (js "Bismillah") (js "Bismilah")
          = (1 - inject_Z d / inject_Z M)%Q.
Proof.
  assert (Hne : normalizeArabic (js "Bismillah") <> normalizeArabic (js "Bismilah"))
    by (vm_compute; discriminate).
  split; [exact Hne|]. split.
  - exact (proj1 (proj2 (@fuzzyMatchArabic_properties Q 1%Q inject_Z Qminus Qdiv
                           (js " Bismillah ") (js "Bismillah"))) eq_refl).
  - destruct (proj2 (proj2 (proj2 (@fuzzyMatchArabic_properties Q 1%Q inject_Z Qminus Qdiv
                                     (js "Bismillah") (js "Bismilah")))) Hne)
      as (d & M & Hd & _ & _ & E).
    exists d, M. split; [exact Hd|exact E].
Defined.

(** ** Transliteration *)

Lemma replace_class_removed (cls : char -> bool) (s : str) :
  forallb (fun c => negb (cls c)) (replace_class cls [] s) = true.
Proof.
  unfold replace_class. induction s as [|c s IH]; [reflexivity|].
  simpl. destruct (cls c) eqn:E; simpl; [exact IH|]. now rewrite E, IH.
Qed.

Lemma replace_ws_runs_forallb (P : char -> bool) (s : str) : forall b,
  P SP = true -> forallb P s = true -> forallb P (replace_ws_runs b s) = true.
Proof.
  induction s as [|c s IH]; intros b Hsp H; [reflexivity|].
  simpl in H. apply andb_true_iff in H as [Hc Hs]. simpl.
  destruct (isSpace c); [destruct b|]; simpl; rewrite ?Hsp, ?Hc, IH; auto.
Qed.

Lemma trim_forallb (P : char -> bool) (s : str) :
  forallb P s = true -> forallb P (trim s) = true.
Proof.
  intros H. destruct (trim_piece s) as (a & b & E).
  rewrite E, !forallb_app in H.
  apply andb_true_iff in H as [_ H]. now apply andb_true_iff in H as [H _].
Qed.

(** X11: whatever the text and whatever [toLowerCase] does, the normalized
    transliteration has no apostrophe and no hyphen, no white space at its
    ends, and only single spaces inside. *)
Theorem normalizeTransliteration_shape (lower : str -> str) (text : str) :
  free_of 39%N (normalizeTransliteration lower text) = true
  /\ free_of 45%N (normalizeTransliteration lower text) = true
  /\ ws_canonical (normalizeTransliteration lower text) = true.
Proof.
  unfold normalizeTransliteration.
  match goal with |- context [replace_class ?cls [] ?u] =>
    set (t := u); pose proof (replace_class_removed cls t) as Hrm end.
  assert (Hboth : forallb (fun c => negb (one_of [39; 45]%N c))
                          (trim (replace_ws_runs false
                                   (replace_class (one_of [39; 45]%N) [] t))) = true)
    by (apply trim_forallb, replace_ws_runs_forallb; [reflexivity|exact Hrm]).
  split; [|split].
  - unfold free_of. rewrite forallb_forall in *. intros c Hc.
    specialize (Hboth c Hc). unfold not_char, one_of in *. simpl in Hboth.
    destruct (c =? 39)%N; [discriminate|reflexivity].
  - unfold free_of. rewrite forallb_forall in *. intros c Hc.
    specialize (Hboth c Hc). unfold not_char, one_of in *. simpl in Hboth.
    destruct (c =? 45)%N; [now rewrite orb_true_r in Hboth|reflexivity].
  - apply trim_single_spaced, replace_ws_runs_single.
Qed.

(* ################################################################## *)
(** * The readers of the markers *)
(* ################################################################## *)

Example parseAnnotationMarkdown_ex :
  parseAnnotationMarkdown (js "He said, [[quran:2:255|Allahu]]. [[hadith:bukhari:1:1|x]]")
  = [Text (js "He said, "); Ref (js "quran") (js "2:255") (js "Allahu");
     Text (js ". "); Ref (js "hadith") (js "bukhari:1:1") (js "x")].
Proof. reflexivity. Qed.

Example exportAsText_ex :
  exportAsText (js "He said, [[quran:2:255|Allahu]]. [[quran:|x]]")
  = js "He said, [Allahu]. [[quran:|x]]".
Proof. reflexivity. Qed.

Lemma prefixb_split (p : str) : forall s,
  prefixb p s = true -> s = p ++ skipn (List.length p) s.
Proof.
  induction p as [|a p IH]; intros s H; [reflexivity|].
  destruct s as [|b s]; [discriminate|].
  simpl in H. apply andb_true_iff in H as [Hab H]. apply N.eqb_eq in Hab. subst b.
  simpl. f_equal. now apply IH.
Qed.

(** What the greedy group matched is a non-empty run of its class, and
    the rest of the pattern matched after it. *)
Lemma plus_bt_sound {R} (cls : char -> bool) (k : str -> str -> option R) (r : R)
      (s : str) : forall acc,
  plus_bt cls s acc k = Some r ->
  exists cap rest,
    s = cap ++ rest /\ cap <> [] /\ forallb cls cap = true
    /\ k (rev acc ++ cap) rest = Some r.
Proof.
  induction s as [|c s IH]; intros acc H; [discriminate|].
  cbn [plus_bt] in H. destruct (cls c) eqn:Ec; [|discriminate].
  destruct (plus_bt cls s (c :: acc) k) as [r'|] eqn:E.
  - inversion H; subst r'. destruct (IH _ E) as (cap & rest & -> & _ & Hc & Hk).
    exists (c :: cap), rest. repeat split; [discriminate| |].
    + simpl. now rewrite Ec, Hc.
    + cbn [rev] in Hk. now rewrite <- app_assoc in Hk.
  - exists [c], s. repeat split; [discriminate| |exact H].
    simpl. now rewrite Ec.
Qed.

Lemma alt_bt_sound {R} (k : str -> str -> option R) (r : R) (s : str)
      (alternatives : list str) :
  alt_bt alternatives s k = Some r ->
  exists p, In p alternatives /\ prefixb p s = true
            /\ k p (skipn (List.length p) s) = Some r.
Proof.
  induction alternatives as [|p l IH]; intros H; [discriminate|].
  cbn [alt_bt] in H. destruct (prefixb p s) eqn:Ep.
  - destruct (k p (skipn (List.length p) s)) as [r'|] eqn:Ek.
    + inversion H; subst r'. exists p. repeat split; [now left|assumption..].
    + destruct (IH H) as (q & Hq & Hp & Hk). exists q. repeat split; [now right|assumption..].
  - destruct (IH H) as (q & Hq & Hp & Hk). exists q. repeat split; [now right|assumption..].
Qed.

(** Whatever the pattern of the readers matches is a marker: its text is
    the two brackets, one of the two kinds, a key without vertical bar and a
    label without closing bracket, both non-empty. *)
Lemma vmatch_marker_sound (s : str) (caps : list str) (rest : str) :
  vmatch marker_re s = Some (caps, rest) ->
  exists type reference display,
    caps = [type; reference; display]
    /\ In type [js "quran"; js "hadith"]
    /\ reference <> [] /\ free_of PIPE reference = true
    /\ display <> [] /\ free_of RBRACKET display = true
    /\ s = unparse (Ref type reference display) ++ rest.
Proof.
  unfold marker_re. cbn [vmatch]. intros H.
  destruct (prefixb (js "[[") s) eqn:E1; [|discriminate].
  apply prefixb_split in E1. set (s1 := skipn (List.length (js "[[")) s) in *.
  apply alt_bt_sound in H as (type & Htype & E2 & H).
  apply prefixb_split in E2. set (s2 := skipn (List.length type) s1) in *.
  destruct (prefixb (js ":") s2) eqn:E3; [|discriminate].
  apply prefixb_split in E3. set (s3 := skipn (List.length (js ":")) s2) in *.
  destruct (plus_bt (not_char PIPE) s3 [] _) as [[caps1 rest1]|] eqn:E4;
    [|discriminate].
  apply plus_bt_sound in E4 as (reference & s4 & E4 & Hr & Hrc & H4).
  destruct (prefixb (js "|") s4) eqn:E5; [|discriminate].
  apply prefixb_split in E5. set (s5 := skipn (List.length (js "|")) s4) in *.
  destruct (plus_bt (not_char RBRACKET) s5 [] _) as [[caps2 rest2]|] eqn:E6;
    [|discriminate].
  apply plus_bt_sound in E6 as (display & s6 & E6 & Hd & Hdc & H6).
  destruct (prefixb (js "]]") s6) eqn:E7; [|discriminate].
  apply prefixb_split in E7.
  cbn in H6. inversion H6; subst caps2 rest2. clear H6.
  cbn in H4. inversion H4; subst caps1 rest1. clear H4.
  cbn in H. inversion H; subst caps rest. clear H.
  exists type, reference, display. repeat split; try assumption.
  cbn [unparse]. rewrite E1, E2, E3, E4, E5, E6, E7 at 1.
  now rewrite <- !app_assoc.
Qed.

Lemma unparse_ref_length (type reference display : str) :
  exists n, List.length (unparse (Ref type reference display)) = S n.
Proof. cbn. eexists. reflexivity. Qed.

Lemma skipn_marker_tail (marker rest : str) (c : char) (s' : str) :
  c :: s' = marker ++ rest -> marker <> [] ->
  skipn (List.length (c :: s') - List.length rest - 1) s' = rest
  /\ (List.length (c :: s') - List.length rest - 1 <= List.length s')%nat.
Proof.
  intros E Hne. destruct marker as [|a marker]; [congruence|].
  cbn [app] in E. inversion E; subst.
  rewrite !length_app. cbn [List.length]. rewrite length_app.
  replace (S (List.length marker + List.length rest) - List.length rest - 1)%nat
    with (List.length marker) by lia.
  split; [|lia]. now rewrite skipn_app, skipn_all, Nat.sub_diag.
Qed.

Lemma concat_flush (plain : str) :
  List.concat (List.map unparse (flush plain)) = rev plain.
Proof.
  destruct plain; [reflexivity|]. cbn [flush List.map List.concat unparse].
  apply app_nil_r.
Qed.

Lemma scan_parts_unparse (s : str) : forall skip plain,
  (skip <= List.length s)%nat ->
  List.concat (List.map unparse (scan_parts s skip plain)) = rev plain ++ skipn skip s.
Proof.
  induction s as [|c s IH]; intros skip plain Hskip.
  - cbn [scan_parts]. rewrite concat_flush. simpl in Hskip.
    replace skip with 0%nat by lia. cbn [skipn]. now rewrite app_nil_r.
  - cbn [scan_parts]. destruct skip as [|k].
    + assert (Hno : List.concat (List.map unparse (scan_parts s 0 (c :: plain)))
                    = rev plain ++ skipn 0 (c :: s)).
      { rewrite IH by lia. cbn [rev skipn]. now rewrite <- app_assoc. }
      destruct (vmatch marker_re (c :: s)) as [[caps rest]|] eqn:E; [|exact Hno].
      destruct (vmatch_marker_sound _ E)
        as (type & reference & display & -> & _ & _ & _ & _ & _ & Es).
      rewrite map_app, concat_app, concat_flush.
      cbn [List.map List.concat].
      assert (Hm : unparse (Ref type reference display) <> [])
        by (destruct (unparse_ref_length type reference display) as [n Hn];
            intros E0; rewrite E0 in Hn; discriminate).
      destruct (@skipn_marker_tail _ _ _ _ Es Hm) as [Hrest Hle].
      rewrite IH by exact Hle. rewrite Hrest. cbn [rev app skipn].
      now rewrite Es.
    + rewrite IH by (simpl in Hskip; lia). reflexivity.
Qed.

(** X12: the viewer's parser loses nothing: for every text, putting the
    parts back together, each annotation as the marker of its three
    captures, gives the text again. *)
Theorem parseAnnotationMarkdown_lossless (text : str) :
  List.concat (List.map unparse (parseAnnotationMarkdown text)) = text.
Proof.
  unfold parseAnnotationMarkdown. now rewrite scan_parts_unparse by lia.
Qed.

Lemma createAnnotationMarkdown_unparse (v : VerifiedMatch) (m : MatchResult) (key : str) :
  match_ v = Some m -> reference_id v = Some key -> truthy key = true ->
  createAnnotationMarkdown v
  = unparse (Ref (kind_name (m_type m)) key (original_text (detected v))).
Proof.
  intros Hm Hr Hk. unfold createAnnotationMarkdown. rewrite Hm, Hr, Hk.
  destruct (m_type m); reflexivity.
Qed.

Lemma vmatch_lit (p : str) (re : list VAtom) (s : str) :
  vmatch (VLit p :: re) (p ++ s) = vmatch re s.
Proof.
  cbn [vmatch]. now rewrite prefixb_app, skipn_app, skipn_all, Nat.sub_diag.
Qed.

Lemma vmatch_alt (alternatives : list str) (re : list VAtom) (s : str) :
  vmatch (VAlt alternatives :: re) s
  = alt_bt alternatives s
           (fun cap rest => option_map (fun r => (cap :: fst r, snd r)) (vmatch re rest)).
Proof. reflexivity. Qed.

(** The pattern of the readers matches a marker with a clean key and a
    clean label, and captures its three components. *)
Lemma vmatch_marker_complete (k : RefKind) (key label rest : str) :
  truthy key = true -> free_of PIPE key = true ->
  truthy label = true -> free_of RBRACKET label = true ->
  vmatch marker_re (unparse (Ref (kind_name k) key label) ++ rest)
  = Some ([kind_name k; key; label], rest).
Proof.
  intros Hk Hkp Hl Hlb.
  assert (Hbody : forall kind,
             option_map (fun r => (kind :: fst r, snd r))
               (vmatch [VLit (js ":"); VPlus (not_char PIPE); VLit (js "|");
                        VPlus (not_char RBRACKET); VLit (js "]]")]
                       (js ":" ++ key ++ js "|" ++ label ++ js "]]" ++ rest))
             = Some ([kind; key; label], rest)).
  { intros kind. cbn [vmatch]. change (js ":") with [58%N].
    cbn [app prefixb List.length skipn]. rewrite N.eqb_refl. cbn [andb].
    rewrite (@plus_bt_greedy _ (not_char PIPE) _ ([key; label], rest) key []
                             (js "|" ++ label ++ js "]]" ++ rest));
      [reflexivity|now apply truthy_nonempty|exact Hkp|reflexivity|].
    cbn [rev app]. change (js "|") with [PIPE].
    cbn [app prefixb List.length skipn]. rewrite N.eqb_refl. cbn [andb].
    rewrite (@plus_bt_greedy _ (not_char RBRACKET) _ ([label], rest) label []
                             (js "]]" ++ rest));
      [reflexivity|now apply truthy_nonempty|exact Hlb|reflexivity|].
    cbn [rev app]. change (js "]]") with [RBRACKET; RBRACKET].
    cbn [app prefixb List.length skipn]. rewrite !N.eqb_refl. reflexivity. }
  unfold marker_re. cbn [unparse].
  rewrite <- !app_assoc, vmatch_lit, vmatch_alt.
  destruct k.
  - specialize (Hbody (js "quran")). cbn [kind_name alt_bt].
    rewrite prefixb_app, skipn_app, skipn_all, Nat.sub_diag. cbn [skipn app].
    now rewrite Hbody.
  - specialize (Hbody (js "hadith")). cbn [kind_name alt_bt].
    change (prefixb (js "quran") (js "hadith" ++ ?x)) with false. cbv iota.
    rewrite prefixb_app, skipn_app, skipn_all, Nat.sub_diag. cbn [skipn app].
    now rewrite Hbody.
Qed.

Unset Implicit Arguments.

Lemma vmatch_no_open (c : char) (s : str) :
  not_char LBRACKET c = true -> vmatch marker_re (c :: s) = None.
Proof.
  unfold not_char. intros H. apply negb_true_iff in H.
  unfold marker_re. cbn [vmatch]. change (js "[[") with [LBRACKET; LBRACKET].
  cbn [prefixb]. now rewrite N.eqb_sym, H.
Qed.

Lemma scan_parts_plain (pre : str) : forall s plain,
  free_of LBRACKET pre = true ->
  scan_parts (pre ++ s) 0 plain = scan_parts s 0 (rev pre ++ plain).
Proof.
  induction pre as [|c pre IH]; intros s plain H; [reflexivity|].
  simpl in H. apply andb_true_iff in H as [Hc Hpre].
  cbn [app scan_parts]. rewrite (vmatch_no_open c _ Hc), IH by exact Hpre.
  cbn [rev]. now rewrite <- app_assoc.
Qed.

Lemma scan_parts_skip (a : str) : forall b plain,
  scan_parts (a ++ b) (List.length a) plain = scan_parts b 0 plain.
Proof. induction a as [|c a IH]; intros b plain; [reflexivity|apply IH]. Qed.

Lemma export_scan_plain (pre : str) : forall s,
  free_of LBRACKET pre = true ->
  export_scan (pre ++ s) 0 = pre ++ export_scan s 0.
Proof.
  induction pre as [|c pre IH]; intros s H; [reflexivity|].
  simpl in H. apply andb_true_iff in H as [Hc Hpre].
  cbn [app export_scan]. now rewrite (vmatch_no_open c _ Hc), IH.
Qed.

Lemma export_scan_skip (a : str) : forall b,
  export_scan (a ++ b) (List.length a) = export_scan b 0.
Proof. induction a as [|c a IH]; intros b; [reflexivity|apply IH]. Qed.

Section MarkerReaders.

Variables (v : VerifiedMatch) (m : MatchResult) (key : str).

Hypothesis Hmatch : match_ v = Some m.
Hypothesis Hkey : reference_id v = Some key.
Hypothesis Hkey_truthy : truthy key = true.
Hypothesis Hkey_clean : free_of PIPE key = true.
Hypothesis Hlabel_truthy : truthy (original_text (detected v)) = true.
Hypothesis Hlabel_clean : free_of RBRACKET (original_text (detected v)) = true.

Lemma marker_first (post : str) :
  exists c tail,
    createAnnotationMarkdown v ++ post = c :: tail ++ post
    /\ vmatch marker_re (c :: tail ++ post)
       = Some ([kind_name (m_type m); key; original_text (detected v)], post)
    /\ (List.length (c :: tail ++ post) - List.length post - 1)%nat = List.length tail.
Proof.
  pose proof (@vmatch_marker_complete (m_type m) key (original_text (detected v)) post
                 Hkey_truthy Hkey_clean Hlabel_truthy Hlabel_clean) as Hv.
  rewrite (@createAnnotationMarkdown_unparse v m key Hmatch Hkey Hkey_truthy).
  destruct (@unparse_ref_length (kind_name (m_type m)) key (original_text (detected v)))
    as [n Hn].
  destruct (unparse (Ref (kind_name (m_type m)) key (original_text (detected v))))
    as [|c tail]; [discriminate Hn|].
  exists c, tail. split; [reflexivity|]. split; [exact Hv|].
  cbn [List.length]. rewrite length_app. lia.
Qed.

(** X13: the viewer reads a marker the Annotator wrote.  When the key is
    not empty and has no vertical bar, the label is not empty and has no
    closing bracket, and the text before the marker has no opening bracket,
    the viewer's parser returns the text before (if any), then one
    annotation with the kind, the key and the label of the match, then the
    parts of the text after it. *)
Theorem viewer_reads_marker (pre post : str) :
  free_of LBRACKET pre = true ->
  parseAnnotationMarkdown (pre ++ createAnnotationMarkdown v ++ post)
  = flush (rev pre)
    ++ Ref (kind_name (m_type m)) key (original_text (detected v))
       :: parseAnnotationMarkdown post.
Proof.
  intros Hpre. unfold parseAnnotationMarkdown.
  rewrite scan_parts_plain by exact Hpre. rewrite app_nil_r.
  destruct (marker_first post) as (c & tail & -> & Hv & Hlen).
  cbn [scan_parts]. rewrite Hv, Hlen. now rewrite scan_parts_skip.
Qed.

(** X14: the plain-text export renders a marker the Annotator wrote as its
    label between brackets and leaves the text before it as it is, when the
    key is not empty and has no vertical bar, the label is not empty and has
    no closing bracket, and the text before the marker has no opening
    bracket. *)
Theorem export_renders_marker (pre post : str) :
  free_of LBRACKET pre = true ->
  exportAsText (pre ++ createAnnotationMarkdown v ++ post)
  = pre ++ js "[" ++ original_text (detected v) ++ js "]" ++ exportAsText post.
Proof.
  intros Hpre. unfold exportAsText.
  rewrite export_scan_plain by exact Hpre. f_equal.
  destruct (marker_first post) as (c & tail & -> & Hv & Hlen).
  cbn [export_scan]. rewrite Hv, Hlen. now rewrite export_scan_skip.
Qed.

End MarkerReaders.

Lemma viewer_reads_marker_witness :
  let v := verified scenarioA_literal (verse_result 2 255 (8 # 10)) (8 # 10) in
  free_of LBRACKET (js "He said, ") = true
  /\ parseAnnotationMarkdown (annotated_text scenarioA_result)
     = [Text (js "He said, "); Ref (js "quran") (js "2:255") scenarioA_literal;
        Text (js ".")].
Proof.
  intros v. split; [reflexivity|].
  exact (viewer_reads_marker v (verse_result 2 255 (8 # 10)) (js "2:255")
           eq_refl eq_refl eq_refl eq_refl eq_refl eq_refl
           (js "He said, ") (js ".") eq_refl).
Defined.

Lemma export_renders_marker_witness :
  let v := verified scenarioA_literal (verse_result 2 255 (8 # 10)) (8 # 10) in
  free_of LBRACKET (js "He said, ") = true
  /\ exportAsText (annotated_text scenarioA_result)
     = js "He said, [Allahu la ilaha illa huwa].".
Proof.
  intros v. split; [reflexivity|].
  exact (export_renders_marker v (verse_result 2 255 (8 # 10)) (js "2:255")
           eq_refl eq_refl eq_refl eq_refl eq_refl eq_refl
           (js "He said, ") (js ".") eq_refl).
Defined.

(* ################################################################## *)
(** * Further properties of the pipeline *)
(* ################################################################## *)

(** ** Detector *)

Section DetectorProperties.

Variable svc : Services.


End DetectorProperties.


(** ** Sorting *)

Section SortOrder.

Context {A : Type} (le : A -> A -> bool).

Hypothesis le_total : forall a b, le a b = true \/ le b a = true.
Hypothesis le_trans : forall a b c, le a b = true -> le b c = true -> le a c = true.

Lemma insert_sorted_perm (x : A) (l : list A) :
  Permutation (insert_sorted le x l) (x :: l).
Proof.
  induction l as [|z l IH]; cbn [insert_sorted]; [reflexivity|].
  destruct (le x z); [reflexivity|].
  rewrite IH. apply perm_swap.
Qed.

Lemma sort_perm (l : list A) : Permutation (JsArray.sort le l) l.
Proof.
  induction l as [|x l IH]; cbn [JsArray.sort]; [reflexivity|].
  rewrite insert_sorted_perm. now constructor.
Qed.

Lemma insert_sorted_sorted (x : A) (l : list A) :
  Sorted (fun a b => le a b = true) l ->
  Sorted (fun a b => le a b = true) (insert_sorted le x l).
Proof.
  induction 1 as [|z l Hs IH Hhd]; cbn [insert_sorted].
  - repeat constructor.
  - destruct (le x z) eqn:E.
    + constructor; [now constructor|now constructor].
    + constructor; [exact IH|].
      destruct l as [|y l]; cbn [insert_sorted].
      * constructor. destruct (le_total x z); congruence.
      * inversion Hhd; subst. destruct (le x y); constructor; try assumption.
        destruct (le_total x z); congruence.
Qed.

Lemma sort_sorted (l : list A) :
  StronglySorted (fun a b => le a b = true) (JsArray.sort le l).
Proof.
  apply Sorted_StronglySorted.
  - intros a b c. apply le_trans.
  - induction l as [|x l IH]; cbn [JsArray.sort]; [constructor|].
    now apply insert_sorted_sorted.
Qed.

(** The sort is stable: elements that compare equal keep their order. *)
Lemma sort_stable (p : A -> bool) (l : list A) :
  (forall a b, p a = true -> p b = true -> le a b = true) ->
  List.filter p (JsArray.sort le l) = List.filter p l.
Proof.
  intros Hp.
  assert (Hins : forall x l0, List.filter p (insert_sorted le x l0) = List.filter p (x :: l0)).
  { intros x l0. induction l0 as [|z l0 IH]; cbn [insert_sorted]; [reflexivity|].
    destruct (le x z) eqn:E; [reflexivity|].
    cbn [List.filter] in *. rewrite IH.
    destruct (p x) eqn:Ex, (p z) eqn:Ez; try reflexivity.
    rewrite (Hp x z Ex Ez) in E. discriminate. }
  induction l as [|x l IH]; cbn [JsArray.sort]; [reflexivity|].
  rewrite Hins. cbn [List.filter]. now rewrite IH.
Qed.

End SortOrder.


Lemma by_start_desc_total (a b : VerifiedMatch) :
  by_start_desc a b = true \/ by_start_desc b a = true.
Proof. unfold by_start_desc. rewrite !Z.leb_le. lia. Qed.

Lemma by_start_desc_trans (a b c : VerifiedMatch) :
  by_start_desc a b = true -> by_start_desc b c = true -> by_start_desc a c = true.
Proof. unfold by_start_desc. rewrite !Z.leb_le. lia. Qed.



(** ** Placement order *)

(** X16: the order of placement.  [sortedMatches] holds exactly the matches
    that pass the confidence gate, each as often as it was produced; no later
    one has a larger start offset than an earlier one; and matches with the
    same start offset stay in the order in which they were verified. *)
Theorem sortedMatches_order (verifiedMatches : list VerifiedMatch) :
  Permutation (sortedMatches verifiedMatches) (List.filter accepted verifiedMatches)
  /\ StronglySorted start_desc (sortedMatches verifiedMatches)
  /\ forall k : Z,
       List.filter (fun v => (start_index (detected v) =? k)%Z)
                   (sortedMatches verifiedMatches)
       = List.filter (fun v => (start_index (detected v) =? k)%Z)
                     (List.filter accepted verifiedMatches).
Proof.
  unfold sortedMatches. split; [apply sort_perm|]. split.
  - eapply StronglySorted_ind with
      (P := fun l => StronglySorted start_desc l);
      [constructor| |exact (sort_sorted by_start_desc by_start_desc_total
                              by_start_desc_trans (List.filter accepted verifiedMatches))].
    intros a l _ IH Hall. constructor; [exact IH|].
    eapply Forall_impl; [|exact Hall].
    intros b Hb. unfold start_desc. unfold by_start_desc in Hb. now apply Z.leb_le.
  - intros k. apply sort_stable. intros a b Ha Hb.
    apply Z.eqb_eq in Ha, Hb. unfold by_start_desc. apply Z.leb_le. lia.
Qed.

(** ** Reference Store *)

Section ReferenceStoreProperties.

Variable svc : Services.


End ReferenceStoreProperties.


(** ** The calls of a run *)

Section RunProtocol.

Variable svc : Services.

Lemma detect_chunks_quiet (chunks : list str) : forall off t,
  exists ds work,
    detect_chunks svc chunks off t = (Ok ds, work ++ t) /\ quiet work = true.
Proof.
  induction chunks as [|chunk chunks IH]; intros off t.
  - exists [], []. split; reflexivity.
  - destruct (detectReferences_total svc chunk t) as (raws & E).
    destruct (IH (off + len chunk + 2)%Z (EvDetect chunk :: t)) as (ds & work & Ed & Hq).
    exists (List.map (rebase off) raws ++ ds), (work ++ [EvDetect chunk]). split.
    + cbn [detect_chunks]. unfold bind at 1. rewrite E. unfold bind at 1. rewrite Ed.
      unfold ret. now rewrite <- app_assoc.
    + unfold quiet in *. rewrite forallb_app, Hq. reflexivity.
Qed.

Lemma verify_loop_quiet (ds : list DetectedReference) : forall t,
  exists vs work,
    mapM (matchAndVerify svc) ds t = (Ok vs, work ++ t) /\ quiet work = true.
Proof.
  induction ds as [|d ds IH]; intros t.
  - exists [], []. split; reflexivity.
  - assert (H1 : exists v w, matchAndVerify svc d t = (Ok v, w ++ t) /\ quiet w = true).
    { rewrite matchAndVerify_run. unfold after_search.
      destruct (stored svc (searchText d) (3 # 10) 5 t) as [[|m ms]|].
      - eexists _, [_; _]. split; reflexivity.
      - eexists _, [_; _; _]. split; reflexivity.
      - eexists _, [_; _]. split; reflexivity. }
    destruct H1 as (v & w & E & Hw).
    destruct (IH (w ++ t)) as (vs & work & Ev & Hq).
    exists (v :: vs), (work ++ w). split.
    + cbn [mapM]. unfold bind at 1. rewrite E. unfold bind at 1. rewrite Ev.
      unfold ret. now rewrite <- app_assoc.
    + unfold quiet in *. now rewrite forallb_app, Hq, Hw.
Qed.

Lemma annotate_loop_quiet (transcriptId : str) (vs : list VerifiedMatch) : forall st t,
  exists st' work,
    foldM (annotate_step svc transcriptId) vs st t = (Ok st', work ++ t)
    /\ quiet work = true.
Proof.
  induction vs as [|v vs IH]; intros st t.
  - exists st, []. split; reflexivity.
  - cbn [foldM]. unfold bind.
    destruct (annotatable v) eqn:Ea.
    + unfold annotatable in Ea.
      destruct (match_ v) as [m|] eqn:Hm; [|discriminate].
      destruct (reference_id v) as [rid|] eqn:Hr; [|discriminate].
      rewrite (annotate_step_record svc transcriptId st v t Hm Hr Ea).
      match goal with |- context [foldM _ vs ?s ?u] =>
        destruct (IH s u) as (st' & work & E & Hq) end.
      exists st', (work ++ [EvUuid]). split.
      * rewrite E. now rewrite <- app_assoc.
      * unfold quiet in *. now rewrite forallb_app, Hq.
    + rewrite (annotate_step_skip svc transcriptId st v t Ea). apply IH.
Qed.

(** Every run of [processTranscript], by its outcome. *)
Lemma processTranscript_cases (transcriptId text : str) (t : Trace)
      (P : Exc ProcessingResult * Trace -> Prop) :
  (forall res work,
      quiet work = true ->
      P (Ok res, final_writes transcriptId (annotations res) (annotated_text res)
                 ++ work ++ EvUpdateStatus transcriptId processing :: t)) ->
  (forall failed u calls,
      db_write svc u failed = Throw ->
      is_db_write failed = true ->
      failed :: u = calls ++ EvUpdateStatus transcriptId processing :: t ->
      P (Throw, EvUpdateStatus transcriptId error :: failed :: u)) ->
  P (processTranscript svc transcriptId text t).
Proof.
  intros Hok Hfail.
  unfold processTranscript, tryCatch, detect_and_verify, db, call.
  unfold bind at 1. unfold bind at 1. cbv beta.
  destruct (db_write svc t (EvUpdateStatus transcriptId processing)) eqn:E0.
  2:{ unfold bind, throw. cbv beta iota.
      match goal with |- context [db_write svc ?h (EvUpdateStatus transcriptId error)] =>
        destruct (db_write svc h (EvUpdateStatus transcriptId error)) end;
        now apply (Hfail _ _ []). }
  destruct (detect_chunks_quiet (splitIntoChunks text 2000) 0
                                (EvUpdateStatus transcriptId processing :: t))
    as (ds & w1 & Ed & Hq1).
  unfold bind at 1. rewrite Ed.
  destruct (verify_loop_quiet ds (w1 ++ EvUpdateStatus transcriptId processing :: t))
    as (vs & w2 & Ev & Hq2).
  unfold bind at 1. rewrite Ev. unfold ret at 1. cbn [fst snd].
  unfold annotate_and_save.
  destruct (annotate_loop_quiet transcriptId (sortedMatches vs)
              {| st_annotations := []; st_quran_matches := 0;
                 st_hadith_matches := 0; st_annotatedText := text |}
              (w2 ++ w1 ++ EvUpdateStatus transcriptId processing :: t))
    as (st & w3 & Ef & Hq3).
  unfold bind at 1. rewrite Ef.
  assert (Hq : quiet (w3 ++ w2 ++ w1) = true)
    by (unfold quiet in *; now rewrite !forallb_app, Hq1, Hq2, Hq3).
  replace (w3 ++ w2 ++ w1 ++ EvUpdateStatus transcriptId processing :: t)
    with ((w3 ++ w2 ++ w1) ++ EvUpdateStatus transcriptId processing :: t)
    by (now rewrite <- !app_assoc).
  set (work := w3 ++ w2 ++ w1) in *.
  set (t2 := work ++ EvUpdateStatus transcriptId processing :: t).
  unfold bind, db, call, ret, throw. cbv beta iota.
  destruct (db_write svc t2 (EvSaveAnnotated transcriptId (st_annotatedText st) complete))
    eqn:E1.
  2:{ match goal with |- context [db_write svc ?h (EvUpdateStatus transcriptId error)] =>
        destruct (db_write svc h (EvUpdateStatus transcriptId error)) end;
        now apply (Hfail _ _ (EvSaveAnnotated transcriptId (st_annotatedText st) complete
                                :: work)). }
  match goal with |- context [Ok ?r] =>
    match type of r with ProcessingResult => set (res := r) end end.
  specialize (Hok res work Hq). unfold final_writes in Hok.
  cbn [res annotations annotated_text] in Hok.
  destruct (size (st_annotations st) >? 0)%Z eqn:Esz.
  - destruct (db_write svc (EvSaveAnnotated transcriptId (st_annotatedText st) complete :: t2)
                       (EvInsertAnnotations (st_annotations st))) eqn:E2.
    + exact Hok.
    + match goal with |- context [db_write svc ?h (EvUpdateStatus transcriptId error)] =>
        destruct (db_write svc h (EvUpdateStatus transcriptId error)) end;
        now apply (Hfail _ _ (EvInsertAnnotations (st_annotations st)
                                :: EvSaveAnnotated transcriptId (st_annotatedText st) complete
                                :: work)).
  - exact Hok.
Qed.

(** X18: the calls of a run to the persistence collaborator.  The first
    call of every run is the write of the [processing] status.  A run that
    returns made no other write until the two that end it: the annotated
    text it returns with the [complete] status, then the annotations it
    returns if there are any.  A run that throws ends with the write of the
    [error] status. *)
Theorem processTranscript_protocol (transcriptId text : str) (t : Trace) :
  exists calls,
    snd (processTranscript svc transcriptId text t)
    = calls ++ EvUpdateStatus transcriptId processing :: t
    /\ (forall res,
           fst (processTranscript svc transcriptId text t) = Ok res ->
           exists work,
             calls = final_writes transcriptId (annotations res) (annotated_text res)
                     ++ work
             /\ quiet work = true)
    /\ (fst (processTranscript svc transcriptId text t) = Throw ->
        exists earlier, calls = EvUpdateStatus transcriptId error :: earlier).
Proof.
  pattern (processTranscript svc transcriptId text t).
  apply processTranscript_cases.
  - intros res work Hq.
    exists (final_writes transcriptId (annotations res) (annotated_text res) ++ work).
    cbn [fst snd]. split; [now rewrite <- app_assoc|]. split; [|discriminate].
    intros res' E. inversion E; subst res'. now exists work.
  - intros failed u calls Hw Hdb Hcalls.
    exists (EvUpdateStatus transcriptId error :: calls).
    cbn [fst snd]. split; [cbn [app]; now rewrite Hcalls|]. split; [discriminate|].
    intros _. now exists calls.
Qed.

End RunProtocol.

(** ** The parser of the markers *)

Lemma match_here_marker_sound (tag s : str) (caps : list str) :
  match_here [Lit tag; CapturePlus (not_char PIPE); Lit (js "|");
              CapturePlus (not_char RBRACKET); Lit (js "]]")] s = Some caps ->
  exists reference display rest,
    caps = [reference; display]
    /\ reference <> [] /\ free_of PIPE reference = true
    /\ display <> [] /\ free_of RBRACKET display = true
    /\ s = tag ++ reference ++ js "|" ++ display ++ js "]]" ++ rest.
Proof.
  cbn [match_here]. intros H.
  destruct (prefixb tag s) eqn:E1; [|discriminate].
  apply prefixb_split in E1. set (s1 := skipn (List.length tag) s) in *.
  apply plus_bt_sound in H as (reference & s2 & E2 & Hr & Hrc & H).
  destruct (prefixb (js "|") s2) eqn:E3; [|discriminate].
  apply prefixb_split in E3. set (s3 := skipn (List.length (js "|")) s2) in *.
  destruct (plus_bt (not_char RBRACKET) s3 [] _) as [caps2|] eqn:E4; [|discriminate].
  apply plus_bt_sound in E4 as (display & s4 & E4 & Hd & Hdc & H4).
  destruct (prefixb (js "]]") s4) eqn:E5; [|discriminate].
  apply prefixb_split in E5.
  cbn in H4. inversion H4; subst caps2. clear H4.
  cbn in H. inversion H; subst caps. clear H.
  exists reference, display, (skipn (List.length (js "]]")) s4).
  repeat split; try assumption.
  rewrite E1, E2, E3, E4, E5 at 1. reflexivity.
Qed.

Lemma match_here_marker_complete (tag reference display rest : str) :
  reference <> [] -> free_of PIPE reference = true ->
  display <> [] -> free_of RBRACKET display = true ->
  match_here [Lit tag; CapturePlus (not_char PIPE); Lit (js "|");
              CapturePlus (not_char RBRACKET); Lit (js "]]")]
             (tag ++ reference ++ js "|" ++ display ++ js "]]" ++ rest)
  = Some [reference; display].
Proof.
  intros Hr Hrc Hd Hdc. rewrite match_here_lit. cbn [match_here].
  apply plus_bt_greedy; try assumption; [reflexivity|].
  cbn [rev app]. change (js "|") with [PIPE]. cbn [app prefixb List.length skipn].
  rewrite N.eqb_refl. cbn [andb].
  rewrite (@plus_bt_greedy _ (not_char RBRACKET) _ [display] display []
                           (js "]]" ++ rest)); try assumption; reflexivity.
Qed.

Lemma regex_search_sound (re : list Atom) (s : str) (caps : list str) :
  regex_search re s = Some caps ->
  exists pre suffix, s = pre ++ suffix /\ match_here re suffix = Some caps.
Proof.
  induction s as [|c s IH]; cbn [regex_search]; intros H.
  - destruct (match_here re []) eqn:E; [|discriminate].
    inversion H; subst. now exists [], [].
  - destruct (match_here re (c :: s)) eqn:E.
    + inversion H; subst. now exists [], (c :: s).
    + destruct (IH H) as (pre & suffix & -> & Hm). now exists (c :: pre), suffix.
Qed.

Lemma regex_search_complete (re : list Atom) (pre suffix : str) (caps : list str) :
  match_here re suffix = Some caps ->
  exists found, regex_search re (pre ++ suffix) = Some found.
Proof.
  intros Hm. induction pre as [|c pre IH]; cbn [app].
  - exists caps. now apply regex_search_here.
  - cbn [regex_search]. destruct (match_here re (c :: pre ++ suffix)) as [found|].
    + now exists found.
    + exact IH.
Qed.

(** The two patterns of [parseAnnotation], by kind. *)
Lemma marker_pattern (k : RefKind) :
  match k with quran => quran_re | hadith => hadith_re end
  = [Lit (js "[[" ++ kind_name k ++ js ":"); CapturePlus (not_char PIPE); Lit (js "|");
     CapturePlus (not_char RBRACKET); Lit (js "]]")].
Proof. now destruct k. Qed.

Lemma regex_search_marker (k : RefKind) (markdown : str) (caps : list str) :
  regex_search (match k with quran => quran_re | hadith => hadith_re end) markdown
  = Some caps ->
  exists reference display pre post,
    caps = [reference; display]
    /\ markdown = pre ++ unparse (Ref (kind_name k) reference display) ++ post
    /\ reference <> [] /\ free_of PIPE reference = true
    /\ display <> [] /\ free_of RBRACKET display = true.
Proof.
  rewrite marker_pattern. intros H.
  apply regex_search_sound in H as (pre & suffix & -> & H).
  apply match_here_marker_sound in H
    as (reference & display & rest & -> & Hr & Hrc & Hd & Hdc & ->).
  exists reference, display, pre, rest. repeat split; try assumption.
  cbn [unparse]. now rewrite <- !app_assoc.
Qed.

(** X19: what [parseAnnotation] finds.  When it returns a result, the text
    contains the marker of that result: two opening brackets, the kind, a
    colon, the reference, a vertical bar, the display text and two closing
    brackets, where the reference is not empty and has no vertical bar and
    the display text is not empty and has no closing bracket.  It returns
    [null] only for a text that contains no such marker of either kind. *)
Theorem parseAnnotation_finds_marker (markdown : str) :
  (forall p,
      parseAnnotation markdown = Some p ->
      exists pre post,
        markdown
        = pre ++ unparse (Ref (kind_name (p_type p)) (p_reference p) (p_display p)) ++ post
        /\ p_reference p <> [] /\ free_of PIPE (p_reference p) = true
        /\ p_display p <> [] /\ free_of RBRACKET (p_display p) = true)
  /\ (parseAnnotation markdown = None ->
      forall k reference display pre post,
        reference <> [] -> free_of PIPE reference = true ->
        display <> [] -> free_of RBRACKET display = true ->
        markdown <> pre ++ unparse (Ref (kind_name k) reference display) ++ post).
Proof.
  unfold parseAnnotation. split.
  - intros p H.
    destruct (regex_search quran_re markdown) as [caps|] eqn:Eq.
    + destruct (regex_search_marker quran markdown caps Eq)
        as (r & d & pre & post & -> & E & Hr & Hrc & Hd & Hdc).
      inversion H; subst p. cbn [p_type p_reference p_display].
      exists pre, post. repeat split; assumption.
    + destruct (regex_search hadith_re markdown) as [caps|] eqn:Eh; [|discriminate].
      destruct (regex_search_marker hadith markdown caps Eh)
        as (r & d & pre & post & -> & E & Hr & Hrc & Hd & Hdc).
      inversion H; subst p. cbn [p_type p_reference p_display].
      exists pre, post. repeat split; assumption.
  - intros H k reference display pre post Hr Hrc Hd Hdc E.
    assert (Hfound : exists found,
               regex_search (match k with quran => quran_re | hadith => hadith_re end)
                            markdown = Some found).
    { rewrite marker_pattern, E. cbn [unparse].
      apply regex_search_complete with (caps := [reference; display]).
      rewrite <- !app_assoc.
      replace (js "[[" ++ kind_name k ++ js ":" ++ reference ++ js "|" ++ display
                  ++ js "]]" ++ post)
        with ((js "[[" ++ kind_name k ++ js ":") ++ reference ++ js "|" ++ display
                  ++ js "]]" ++ post)
        by (now rewrite <- !app_assoc).
      now apply match_here_marker_complete. }
    destruct Hfound as (found & Hfound).
    destruct (regex_search quran_re markdown) as [caps|] eqn:Eq.
    + destruct (regex_search_marker quran markdown caps Eq) as (r & d & _ & _ & -> & _).
      discriminate H.
    + destruct k; cbv iota in Hfound; [congruence|].
      rewrite Hfound in H.
      destruct (regex_search_marker hadith markdown found Hfound)
        as (r & d & _ & _ & -> & _).
      discriminate H.
Qed.

Lemma parseAnnotation_finds_marker_witness :
  parseAnnotation (annotated_text scenarioA_result)
  = Some {| p_type := quran; p_reference := js "2:255"; p_display := scenarioA_literal |}
  /\ exists pre post,
       annotated_text scenarioA_result
       = pre ++ unparse (Ref (js "quran") (js "2:255") scenarioA_literal) ++ post
       /\ free_of RBRACKET scenarioA_literal = true.
Proof.
  split; [reflexivity|].
  destruct (proj1 (parseAnnotation_finds_marker (annotated_text scenarioA_result))
                  {| p_type := quran; p_reference := js "2:255";
                     p_display := scenarioA_literal |} eq_refl)
    as (pre & post & E & _ & _ & _ & Hd).
  exists pre, post. split; [exact E|exact Hd].
Defined.

(** ** Placement *)

Lemma prefixb_iff (p s : str) : prefixb p s = true <-> exists post, s = p ++ post.
Proof.
  split.
  - intros H. exists (skipn (List.length p) s). now apply prefixb_split.
  - intros (post & ->). apply prefixb_app.
Qed.

(** [indexOf] returns the least position of an occurrence. *)
Lemma indexOf_from_some (needle : str) : forall s i j,
  indexOf_from needle s i = Some j ->
  exists pre post,
    s = pre ++ needle ++ post /\ j = (i + List.length pre)%nat
    /\ forall pre' post', s = pre' ++ needle ++ post' ->
                          (List.length pre <= List.length pre')%nat.
Proof.
  induction s as [|c s IH]; intros i j H; cbn [indexOf_from] in H.
  - destruct (prefixb needle []) eqn:E; [|discriminate].
    inversion H; subst j. apply prefixb_iff in E as (post & E).
    exists [], post. repeat split; [exact E|cbn; lia|intros; cbn; lia].
  - destruct (prefixb needle (c :: s)) eqn:E.
    + inversion H; subst j. apply prefixb_iff in E as (post & E).
      exists [], post. repeat split; [exact E|cbn; lia|intros; cbn; lia].
    + destruct (IH _ _ H) as (pre & post & -> & -> & Hleast).
      exists (c :: pre), post. repeat split; [cbn [List.length]; lia|].
      intros pre' post' E'. destruct pre' as [|c' pre'].
      * cbn [app] in E'. rewrite E', prefixb_app in E. discriminate.
      * cbn [app] in E'. inversion E'; subst c'.
        cbn [List.length]. apply le_n_S. eapply Hleast. eassumption.
Qed.

Lemma indexOf_from_none (needle : str) : forall s i,
  indexOf_from needle s i = None ->
  forall pre post, s <> pre ++ needle ++ post.
Proof.
  induction s as [|c s IH]; intros i H pre post E; cbn [indexOf_from] in H.
  - destruct (prefixb needle []) eqn:Ep; [discriminate|].
    destruct pre; [|discriminate E]. cbn [app] in E.
    rewrite E, prefixb_app in Ep. discriminate.
  - destruct (prefixb needle (c :: s)) eqn:Ep; [discriminate|].
    destruct pre as [|c' pre].
    + cbn [app] in E. rewrite E, prefixb_app in Ep. discriminate.
    + cbn [app] in E. inversion E; subst c'. eapply IH; eassumption.
Qed.

Lemma map_occurrence {A B} (f : A -> B) (s : list A) (pre' occ' post' : list B) :
  List.map f s = pre' ++ occ' ++ post' ->
  exists pre occ post,
    s = pre ++ occ ++ post /\ List.map f pre = pre' /\ List.map f occ = occ'
    /\ List.map f post = post'.
Proof.
  intros E. apply map_eq_app in E as (pre & rest & -> & Hpre & E).
  apply map_eq_app in E as (occ & post & -> & Hocc & Hpost).
  now exists pre, occ, post.
Qed.

Section Placement.

Variable svc : Services.

(** The lower-casing of one character, where lower-casing works character
    by character. *)
Variable lower : char -> char.

(** X20: where a marker is placed.  For a text and a literal that
    [toLowerCase] converts character by character, [place] replaces the
    first part of the text that equals the literal up to case, and nothing
    else; when no part of the text equals the literal up to case, the text
    is returned as it is. *)
Theorem place_first_occurrence (annotatedText originalText annotationFormat : str) :
  lowered_by (toLowerCase svc) lower annotatedText ->
  lowered_by (toLowerCase svc) lower originalText ->
  (exists pre occurrence post,
      annotatedText = pre ++ occurrence ++ post
      /\ List.map lower occurrence = List.map lower originalText
      /\ place svc annotatedText originalText annotationFormat
         = pre ++ annotationFormat ++ post
      /\ forall pre' occurrence' post',
           annotatedText = pre' ++ occurrence' ++ post' ->
           List.map lower occurrence' = List.map lower originalText ->
           (List.length pre <= List.length pre')%nat)
  \/ (place svc annotatedText originalText annotationFormat = annotatedText
      /\ forall pre occurrence post,
           List.map lower occurrence = List.map lower originalText ->
           annotatedText <> pre ++ occurrence ++ post).
Proof.
  unfold lowered_by, place, indexOf. intros -> ->.
  destruct (indexOf_from (List.map lower originalText) (List.map lower annotatedText) 0)
    as [j|] eqn:E.
  - left. apply indexOf_from_some in E as (pre' & post' & E & -> & Hleast).
    apply map_occurrence in E as (pre & occ & post & -> & <- & Hocc & <-).
    exists pre, occ, post. split; [reflexivity|]. split; [exact Hocc|]. split.
    + unfold substring_to, substring_from. cbn [Nat.add]. rewrite length_map.
      assert (Hlen : List.length occ = List.length originalText)
        by (rewrite <- (length_map lower occ), Hocc; apply length_map).
      rewrite firstn_app, firstn_all, Nat.sub_diag. cbn [firstn]. rewrite app_nil_r.
      f_equal. f_equal.
      rewrite skipn_app, skipn_all2 by lia.
      replace (List.length pre + List.length originalText - List.length pre)%nat
        with (List.length occ) by lia.
      cbn [app]. now rewrite skipn_app, skipn_all, Nat.sub_diag.
    + intros p o q Eq Ho. rewrite <- (length_map lower pre), <- (length_map lower p).
      apply (Hleast (List.map lower p) (List.map lower q)).
      now rewrite Eq, !map_app, Ho.
  - right. split; [reflexivity|].
    intros pre occ post Hocc Eq.
    apply (indexOf_from_none _ _ _ E (List.map lower pre) (List.map lower post)).
    now rewrite Eq, !map_app, Hocc.
Qed.

End Placement.

Lemma place_first_occurrence_witness :
  let lower := fun c : char => if in_range 65 90 c then (c + 32)%N else c in
  lowered_by (toLowerCase scenarioA_services) lower (js "He said: ALLAHU akbar, Allahu akbar.")
  /\ lowered_by (toLowerCase scenarioA_services) lower (js "Allahu Akbar")
  /\ place scenarioA_services (js "He said: ALLAHU akbar, Allahu akbar.")
           (js "Allahu Akbar") (js "[[quran:1:1|Allahu Akbar]]")
     = js "He said: [[quran:1:1|Allahu Akbar]], Allahu akbar."
  /\ ((exists pre occurrence post,
          js "He said: ALLAHU akbar, Allahu akbar." = pre ++ occurrence ++ post
          /\ place scenarioA_services (js "He said: ALLAHU akbar, Allahu akbar.")
                   (js "Allahu Akbar") (js "[[quran:1:1|Allahu Akbar]]")
             = pre ++ js "[[quran:1:1|Allahu Akbar]]" ++ post)
      \/ place scenarioA_services (js "He said: ALLAHU akbar, Allahu akbar.")
               (js "Allahu Akbar") (js "[[quran:1:1|Allahu Akbar]]")
         = js "He said: ALLAHU akbar, Allahu akbar.").
Proof.
  intros lower. split; [reflexivity|]. split; [reflexivity|]. split; [reflexivity|].
  destruct (place_first_occurrence scenarioA_services lower
              (js "He said: ALLAHU akbar, Allahu akbar.") (js "Allahu Akbar")
              (js "[[quran:1:1|Allahu Akbar]]") eq_refl eq_refl)
    as [(pre & occ & post & E & _ & Hp & _)|[Hp _]].
  - left. exists pre, occ, post. split; [exact E|exact Hp].
  - right. exact Hp.
Defined.

(** ** Reference keys *)

Lemma js_cons (c : ascii) (s : string) : js (String c s) = N_of_ascii c :: js s.
Proof. reflexivity. Qed.

Lemma js_inj (a b : string) : js a = js b -> a = b.
Proof.
  revert b. induction a as [|c a IH]; intros [|d b] H; try discriminate; [reflexivity|].
  rewrite !js_cons in H. inversion H as [[Hc Hs]].
  f_equal; [|now apply IH].
  rewrite <- (ascii_N_embedding c), <- (ascii_N_embedding d). now rewrite Hc.
Qed.

Lemma num_inj (a b : Z) : num a = num b -> a = b.
Proof.
  unfold num. intros H. apply js_inj in H. apply DecimalZ.to_int_inj.
  assert (Hnz : forall z, Z.to_int z <> Decimal.Pos Decimal.Nil
                          /\ Z.to_int z <> Decimal.Neg Decimal.Nil).
  { intros [|p|p]; cbn; split; try discriminate;
      intros E; inversion E as [E']; now apply DecimalPos.Unsigned.to_uint_nonnil in E'. }
  assert (E : NilZero.int_of_string (NilZero.string_of_int (Z.to_int a))
              = NilZero.int_of_string (NilZero.string_of_int (Z.to_int b)))
    by now rewrite H.
  rewrite !NilZero.isi in E by apply Hnz. now inversion E.
Qed.

Lemma digits_no_colon (d : Decimal.uint) :
  free_of COLON (js (NilEmpty.string_of_uint d)) = true.
Proof. induction d; cbn [NilEmpty.string_of_uint]; [reflexivity|rewrite js_cons; exact IHd..]. Qed.

(** The decimal form of an integer has no colon. *)
Lemma num_no_colon (n : Z) : free_of COLON (num n) = true.
Proof.
  unfold num. destruct (Z.to_int n) as [d|d]; cbn [NilZero.string_of_int].
  - destruct d; try apply digits_no_colon. reflexivity.
  - rewrite js_cons. cbn [free_of forallb]. fold (free_of COLON).
    destruct d; try apply digits_no_colon. reflexivity.
Qed.

Lemma split_at_first (c : char) (x x' y y' : str) :
  free_of c x = true -> free_of c x' = true ->
  x ++ c :: y = x' ++ c :: y' -> x = x' /\ y = y'.
Proof.
  revert x'. induction x as [|a x IH]; intros [|a' x'] Hx Hx' E; cbn [app] in E.
  - inversion E. now split.
  - inversion E; subst a'. cbn in Hx'. unfold not_char in Hx'.
    now rewrite N.eqb_refl in Hx'.
  - inversion E; subst a. cbn in Hx. unfold not_char in Hx.
    now rewrite N.eqb_refl in Hx.
  - inversion E; subst a'. cbn in Hx, Hx'.
    apply andb_true_iff in Hx as [_ Hx]. apply andb_true_iff in Hx' as [_ Hx'].
    destruct (IH x' Hx Hx' H1) as [-> ->]. now split.
Qed.

Lemma free_of_rev (c : char) (s : str) : free_of c (rev s) = free_of c s.
Proof.
  unfold free_of. induction s as [|a s IH]; [reflexivity|].
  cbn [rev forallb]. rewrite forallb_app, IH. cbn [forallb].
  now rewrite andb_true_r, andb_comm.
Qed.

Lemma split_at_last (c : char) (x x' y y' : str) :
  free_of c y = true -> free_of c y' = true ->
  x ++ c :: y = x' ++ c :: y' -> x = x' /\ y = y'.
Proof.
  intros Hy Hy' E. apply (f_equal (@rev char)) in E.
  rewrite !rev_app_distr in E. cbn [rev] in E. rewrite <- !app_assoc in E.
  cbn [app] in E. apply split_at_first in E as [E1 E2];
    [|now rewrite free_of_rev..].
  split; apply rev_inj; assumption.
Qed.

Lemma app_cons_assoc {A} (a b y : list A) (c d : A) :
  a ++ c :: b ++ d :: y = (a ++ c :: b) ++ d :: y.
Proof. now rewrite <- app_assoc. Qed.

Lemma has_colon (a b : str) : free_of COLON (a ++ COLON :: b) = false.
Proof.
  rewrite free_of_app. change (free_of COLON (COLON :: b)) with false.
  apply andb_false_r.
Qed.

(** X21: reference keys identify entries.  Two matches whose type tag
    agrees with their entry, as [searchAll] builds them, get the same
    reference key only if they are of the same kind and point to the same
    place: the same surah and ayah, or the same collection, book and hadith
    number, whatever characters the name of the collection has.  A key has
    always a colon. *)
Theorem createReferenceId_injective (m1 m2 : MatchResult) :
  tag_agrees m1 = true -> tag_agrees m2 = true ->
  createReferenceId m1 = createReferenceId m2 ->
  m_type m1 = m_type m2 /\ same_entry m1 m2
  /\ free_of COLON (createReferenceId m1) = false.
Proof.
  unfold tag_agrees, createReferenceId, same_entry.
  change (js ":") with [COLON].
  destruct (m_type m1), (reference m1) as [v1|h1]; try discriminate;
    destruct (m_type m2), (reference m2) as [v2|h2]; try discriminate;
    intros _ _ E; cbn [app] in *.
  - split; [reflexivity|].
    apply split_at_first in E as [Hs Ha]; try apply num_no_colon.
    split; [split; now apply num_inj|apply has_colon].
  - exfalso. rewrite (app_cons_assoc (collection h2)) in E.
    apply split_at_last in E as [E _]; try apply num_no_colon.
    pose proof (num_no_colon (surah_number v1)) as H.
    rewrite E, has_colon in H. discriminate H.
  - exfalso. rewrite (app_cons_assoc (collection h1)) in E.
    apply split_at_last in E as [E _]; try apply num_no_colon.
    pose proof (num_no_colon (surah_number v2)) as H.
    rewrite <- E, has_colon in H. discriminate H.
  - split; [reflexivity|].
    split; [|apply has_colon].
    rewrite (app_cons_assoc (collection h1)), (app_cons_assoc (collection h2)) in E.
    apply split_at_last in E as [E Hn]; try apply num_no_colon.
    apply split_at_last in E as [Hc Hb]; try apply num_no_colon.
    repeat split; [assumption|now apply num_inj..].
Qed.

Lemma createReferenceId_injective_witness :
  let m1 := tradition_result (js "abu:dawud") 1 23 (8 # 10) in
  let m2 := tradition_result (js "abu:dawud") 1 23 (5 # 10) in
  tag_agrees m1 = true /\ tag_agrees m2 = true
  /\ createReferenceId m1 = js "abu:dawud:1:23"
  /\ same_entry m1 m2.
Proof.
  intros m1 m2. split; [reflexivity|]. split; [reflexivity|]. split; [reflexivity|].
  exact (proj1 (proj2 (createReferenceId_injective m1 m2 eq_refl eq_refl eq_refl))).
Defined.

(** ** Surah names *)




